(** * BaseEx: the base converter, LEB128 and base phi

    A shallow embedding of the conversion core of BaseExJS: the generic
    [BaseConverter] (block sizes, [encode], [decode], padding accounting),
    the input handler [SmartInput.toBytes] for integers, the output handler
    [SmartOutput.compile] for bytes and integers, the utilities of the
    converters ([addCharset], [validateArgs], [toSignedStr]), the [LEB128]
    converter and the [BasePhi] converter.

    JavaScript values are modelled as follows.
    - A [BigInt] is a [Z]; [/] and [%] on BigInts truncate ([Z.quot], [Z.rem]),
      [>>] is the arithmetic shift ([Z.shiftr]), [&] and [|] are [Z.land] and
      [Z.lor] on the two's complement reading.
    - An integer valued [Number] is a [Z]; the places where the source relies on
      double precision arithmetic on such numbers are exact below 2^53.
    - A [Uint8Array] is a [list byte]; an ordinary array of numbers is a
      [list Z]; a string is a list of code units ([list ascii]).
    - A call either returns, throws or does not return: [result]. *)

From Stdlib Require Import ZArith List String Ascii Bool Lia Floats Uint63.
From Stdlib.Strings Require Import Byte.
Import ListNotations.
Local Open Scope Z_scope.

(** ** JavaScript values *)

Module JS.

Definition jsstring : Type := list ascii.

Definition str (s : string) : jsstring := list_ascii_of_string s.

Inductive error : Type :=
| TypeError (message : string)
| RangeError (message : string)
| SyntaxError (message : string)
| CharsetError (char : ascii).

Inductive result (A : Type) : Type :=
| Ok (a : A)
| Throw (e : error)
| Diverge.

Arguments Ok {A} a.
Arguments Throw {A} e.
Arguments Diverge {A}.

Definition bind {A B : Type} (m : result A) (k : A -> result B) : result B :=
  match m with
  | Ok a => k a
  | Throw e => Throw e
  | Diverge => Diverge
  end.

(** The value of [Math.floor] or [Math.ceil]: an integer, or one of the
    non-finite numbers a division by zero produces. *)
Inductive jsnum : Type :=
| Finite (z : Z)
| PlusInfinity
| MinusInfinity
| NaN.

(** [Math.floor(a / b)] and [Math.ceil(a / b)] for integers [a] and [b]. *)
Definition div_by_zero (a : Z) : jsnum :=
  if a =? 0 then NaN else if 0 <? a then PlusInfinity else MinusInfinity.


Definition Math_ceil_div (a b : Z) : jsnum :=
  if b =? 0 then div_by_zero a else Finite (- ((- a) / b)).

(** [Math.ceil] of a double. *)
Definition Math_ceil (x : float) : jsnum :=
  match Prim2SF x with
  | S754_zero _ => Finite 0
  | S754_infinity false => PlusInfinity
  | S754_infinity true => MinusInfinity
  | S754_nan => NaN
  | S754_finite s m e =>
      let v := if s then Z.neg m else Z.pos m in
      Finite (if 0 <=? e then v * 2 ^ e else - ((- v) / 2 ^ (- e)))
  end.

(** The double of an integer (exact below 2^53). *)
Definition Number_of_Z (z : Z) : float :=
  if z <? 0 then PrimFloat.opp (PrimFloat.of_uint63 (Uint63.of_Z (- z)))
  else PrimFloat.of_uint63 (Uint63.of_Z z).

(** Arrays: [a.length], [a[i]] ([None] is [undefined]), [new Array(n).fill(v)]
    and [a.splice(start)], which removes everything from [start] on. *)
Definition len {A : Type} (a : list A) : Z := Z.of_nat (List.length a).

Definition item {A : Type} (a : list A) (i : Z) : option A :=
  if i <? 0 then None else nth_error a (Z.to_nat i).

Definition new_Array_fill {A : Type} (n : Z) (v : A) : result (list A) :=
  if n <? 0 then Throw (RangeError "Invalid array length")
  else Ok (repeat v (Z.to_nat n)).

Definition splice_from {A : Type} (a : list A) (start : Z) : list A :=
  let start' := if start <? 0 then Z.max (len a + start) 0 else Z.min start (len a) in
  firstn (Z.to_nat start') a.

(** [BigInt(x)] for an array element. *)
Definition BigInt_of_item (x : option Z) : result Z :=
  match x with
  | Some z => Ok z
  | None => Throw (TypeError "Cannot convert undefined to a BigInt")
  end.

(** Elements of a [Uint8Array]; storing a number wraps it modulo 256. *)
Definition u8_to_Z (b : byte) : Z := Z.of_N (Byte.to_N b).

Definition Z_to_u8 (z : Z) : byte :=
  match Byte.of_N (Z.to_N (z mod 256)) with
  | Some b => b
  | None => x00
  end.

Definition Uint8Array_from (a : list Z) : list byte := map Z_to_u8 a.

(** [s.indexOf(c)] for a single code unit [c]: the first index, or [-1]. *)
Fixpoint indexOf (s : jsstring) (c : ascii) : Z :=
  match s with
  | [] => -1
  | x :: rest =>
      if Ascii.eqb x c then 0
      else let i := indexOf rest c in if i <? 0 then -1 else i + 1
  end.

(** [charset[i]] appended to a string: a missing element reads [undefined],
    which [concat] spells out. *)
Definition char_at (charset : jsstring) (i : Z) : jsstring :=
  match item charset i with
  | Some c => [c]
  | None => str "undefined"
  end.

End JS.

Import JS.

Declare Scope js_scope.
Delimit Scope js_scope with js.
Notation "x <- m ;; k" := (bind m (fun x => k))
  (at level 61, m at next level, right associativity) : js_scope.
Local Open Scope js_scope.

(** ** BaseConverter *)

Module BaseConverter.

Record t : Type := new { radix : Z; bsEnc : Z; bsDec : Z; decPadVal : Z }.

Section GuessBS.

(** [Math.log] belongs to the JavaScript engine. *)
Variable Math_log : float -> float.

(** [(bsEnc * 8) * Math.log(2) / Math.log(radix)] *)
Definition digits_per_bytes (radix bsEnc : Z) : float :=
  PrimFloat.div
    (PrimFloat.mul (Number_of_Z (bsEnc * 8)) (Math_log (Number_of_Z 2)))
    (Math_log (Number_of_Z radix)).

(** [while (bsDecPre > 8 && !(bsDecPre % 8)) bsDecPre /= 8] *)
Fixpoint reduce_by_8 (fuel : nat) (bsDecPre : Z) : result Z :=
  if (8 <? bsDecPre) && (Z.rem bsDecPre 8 =? 0) then
    match fuel with
    | O => Diverge
    | S fuel' => reduce_by_8 fuel' (Z.quot bsDecPre 8)
    end
  else Ok bsDecPre.

(** [while (... < bsDecPre) bsEnc++] *)
Fixpoint search_bsEnc (fuel : nat) (radix bsDecPre bsEnc : Z) : result Z :=
  if PrimFloat.ltb (digits_per_bytes radix bsEnc) (Number_of_Z bsDecPre) then
    match fuel with
    | O => Diverge
    | S fuel' => search_bsEnc fuel' radix bsDecPre (bsEnc + 1)
    end
  else Ok bsEnc.

(** [guessBS(radix)]. [Math.ceil(256 / radix)] is taken on integers: for
    [radix >= 8] the quotient of the doubles is exact enough for its ceiling.
    The loops get as many rounds as they can need for a radix of 2 or more. *)
Definition guessBS (radix : Z) : result (Z * jsnum) :=
  let bsDecPre0 := if radix <? 8 then radix else - ((- 256) / radix) in
  bsDecPre <- reduce_by_8 (Z.to_nat bsDecPre0) bsDecPre0 ;;
  bsEnc <- search_bsEnc (Z.to_nat (bsDecPre + Z.abs radix)) radix bsDecPre 0 ;;
  Ok (bsEnc, Math_ceil (digits_per_bytes radix bsEnc)).

(** The constructor: explicit block sizes are taken as they are, otherwise
    they are guessed. [None] stands for a converter whose guessed [bsDec] is
    not a finite number (a radix of 1 or less). *)
Definition constructor (radix : Z) (bsEnc bsDec : option Z) (decPadVal : Z)
  : result (option t) :=
  match bsEnc, bsDec with
  | Some e, Some d => Ok (Some (new radix e d decPadVal))
  | _, _ =>
      guess <- guessBS radix ;;
      match guess with
      | (e, Finite d) => Ok (Some (new radix e d decPadVal))
      | _ => Ok None
      end
  end.

End GuessBS.

(** [divmod] in a loop: [while (q >= radix) { [q, r] = divmod(q, radix);
    digits.unshift(r) } digits.unshift(q)]. A radix of 0 makes the BigInt
    division throw; with a radix of 1 the loop does not end. The rounds
    given, one more than the binary length of [q], are enough for every
    radix of 2 or more. *)
Fixpoint divmod_loop (fuel : nat) (radix q : Z) (digits : list Z) : result (list Z) :=
  if radix <=? q then
    match fuel with
    | O => Diverge
    | S fuel' =>
        if radix =? 0 then Throw (RangeError "Division by zero")
        else divmod_loop fuel' radix (Z.quot q radix) (Z.rem q radix :: digits)
    end
  else Ok (q :: digits).

Definition to_digits (radix n : Z) : result (list Z) :=
  divmod_loop (S (Z.to_nat (Z.log2 n))) radix n [].

(** [while (a.length < size) a.unshift(0)] *)
Definition unshift_zeros (size : Z) (a : list Z) : list Z :=
  repeat 0 (Z.to_nat (size - len a)) ++ a.

(** [for (j = i; j < i + bs; j++) n = (n << 8n) + BigInt(byteArray[j])] *)
Fixpoint read_bytes (count : nat) (byteArray : list Z) (j n : Z) : result Z :=
  match count with
  | O => Ok n
  | S count' =>
      b <- BigInt_of_item (item byteArray j) ;;
      read_bytes count' byteArray (j + 1) (Z.shiftl n 8 + b)
  end.

(** [n.toString()] and [BigInt(s)] for decimal strings. *)
Definition decimal_digits : jsstring := str "0123456789".

Definition BigInt_toString (n : Z) : jsstring :=
  let digits :=
    match to_digits 10 (Z.abs n) with
    | Ok ds => flat_map (char_at decimal_digits) ds
    | _ => []
    end in
  if n <? 0 then "-"%char :: digits else digits.

Fixpoint parse_decimal (s : jsstring) (n : Z) : result Z :=
  match s with
  | [] => Ok n
  | c :: rest =>
      let d := indexOf decimal_digits c in
      if d <? 0 then Throw (SyntaxError "Cannot convert to a BigInt")
      else parse_decimal rest (10 * n + d)
  end.

Definition BigInt_of_string (s : jsstring) : result Z :=
  match s with
  | "-"%char :: d :: digits => n <- parse_decimal (d :: digits) 0 ;; Ok (- n)
  | _ => parse_decimal s 0
  end.

Section Encode.

Variable this : t.

(** One block of [encode]: the digits of the block's number, filled up to
    [bsDec], as characters of the charset. A [null] charset cannot be
    indexed. *)
Definition encode_frame (charset : option jsstring) (n : Z) : result jsstring :=
  bXarray <- to_digits (radix this) n ;;
  let bXarray := unshift_zeros (bsDec this) bXarray in
  match charset with
  | Some cs => Ok (flat_map (char_at cs) bXarray)
  | None => Throw (TypeError "Cannot read properties of null")
  end.

(** [for (i = 0, l = byteArray.length; i < l; i += bs)] *)
Fixpoint encode_blocks (fuel : nat) (charset : option jsstring)
    (replacer : option (jsstring -> Z -> jsstring)) (zeroPadding : Z)
    (byteArray : list Z) (bs i : Z) (output : jsstring) : result jsstring :=
  if i <? len byteArray then
    match fuel with
    | O => Diverge
    | S fuel' =>
        n <- read_bytes (Z.to_nat bs) byteArray i 0 ;;
        frame <- encode_frame charset n ;;
        let frame :=
          match replacer with
          | Some f => f frame zeroPadding
          | None => frame
          end in
        encode_blocks fuel' charset replacer zeroPadding byteArray bs (i + bs)
          (output ++ frame)
    end
  else Ok output.

(** [encode(inputBytes, charset, littleEndian, replacer)]. The result is the
    returned pair [[output, zeroPadding]] together with the content of the
    caller's [inputBytes] when the call returns: the little endian branch
    reverses that array in place. *)
Definition encode (inputBytes : list byte) (charset : option jsstring)
    (littleEndian : bool) (replacer : option (jsstring -> Z -> jsstring))
  : result ((jsstring * Z) * list byte) :=
  let bs := if bsEnc this =? 0 then len inputBytes else bsEnc this in
  let zeroPadding :=
    if bs =? 0 then 0 else Z.rem (bs - Z.rem (len inputBytes) bs) bs in
  zeroArray <- new_Array_fill zeroPadding 0 ;;
  let inputBytes' := if littleEndian then rev inputBytes else inputBytes in
  let byteArray :=
    if littleEndian then zeroArray ++ map u8_to_Z inputBytes'
    else map u8_to_Z inputBytes' ++ zeroArray in
  if radix this =? 10 then
    n <- read_bytes (Z.to_nat bs) byteArray 0 0 ;;
    Ok ((BigInt_toString n, 0), inputBytes')
  else
    output <- encode_blocks (List.length byteArray) charset replacer zeroPadding
                byteArray bs 0 [] ;;
    Ok ((output, zeroPadding), inputBytes').


Definition padChars (byteCount : Z) : jsnum :=
  Math_ceil_div (byteCount * bsEnc this) (bsDec this).

(** The characters of the input that the charset knows, as digits. *)
Definition known_digits (charset : jsstring) (inputBaseStr : jsstring) : list Z :=
  flat_map (fun c => let index := indexOf charset c in
                     if -1 <? index then [index] else []) inputBaseStr.

(** [for (j = 0; j < bs; j++) n += BigInt(byteArray[i+j]) * this.pow(bs-1-j)] *)
Fixpoint sum_digits (count : nat) (byteArray : list Z) (bs i j n : Z) : result Z :=
  match count with
  | O => Ok n
  | S count' =>
      d <- BigInt_of_item (item byteArray (i + j)) ;;
      sum_digits count' byteArray bs i (j + 1) (n + d * radix this ^ (bs - 1 - j))
  end.

Fixpoint decode_blocks (fuel : nat) (byteArray : list Z) (bs i : Z)
    (b256Array : list Z) : result (list Z) :=
  if i <? len byteArray then
    match fuel with
    | O => Diverge
    | S fuel' =>
        n <- sum_digits (Z.to_nat bs) byteArray bs i 0 0 ;;
        subArray256 <- to_digits 256 n ;;
        let subArray256 := unshift_zeros (bsEnc this) subArray256 in
        decode_blocks fuel' byteArray bs (i + bs) (b256Array ++ subArray256)
    end
  else Ok b256Array.

(** [while (!b256Array[0]) b256Array.shift()]: on an array of zeros only the
    loop empties the array and then keeps reading [undefined]. *)
Fixpoint shift_zeros (b256Array : list Z) : result (list Z) :=
  match b256Array with
  | [] => Diverge
  | x :: rest => if x =? 0 then shift_zeros rest else Ok b256Array
  end.

(** [decode], from the digits of the known characters on. *)
Definition decode_digits (digits : list Z) (littleEndian : bool) : result (list byte) :=
  padded <-
    (if bsDec this =? 0 then Ok (len digits, digits, 0)
     else
       let bs := bsDec this in
       let padChars := Z.rem (bs - Z.rem (len digits) bs) bs in
       fillArray <- new_Array_fill padChars (decPadVal this) ;;
       Ok (bs, (if littleEndian then fillArray ++ digits
                else digits ++ fillArray), padChars)) ;;
  let '(bs, byteArray, padCharCount) := padded in
  b256Array <- decode_blocks (List.length byteArray) byteArray bs 0 [] ;;
  b256Array <-
    (if littleEndian then
       if 1 <? len b256Array then
         stripped <- shift_zeros b256Array ;;
         Ok (rev stripped)
       else Ok b256Array
     else if bsDec this =? 0 then Ok b256Array
     else
       match padChars padCharCount with
       | Finite padding => Ok (splice_from b256Array (len b256Array - padding))
       | MinusInfinity => Ok b256Array
       | _ => Ok []
       end) ;;
  Ok (Uint8Array_from b256Array).

(** [decode(inputBaseStr, charset, littleEndian)] *)
Definition decode (inputBaseStr : jsstring) (charset : jsstring)
    (littleEndian : bool) : result (list byte) :=
  match inputBaseStr with
  | [] => Ok []
  | _ => decode_digits (known_digits charset inputBaseStr) littleEndian
  end.

End Encode.

End BaseConverter.

(** ** SmartInput: the input handler, for byte buffers and integers *)

Module SmartInput.

(** The inputs of the model: a buffer or typed array, an integer valued
    [Number], a [BigInt]. *)
Inductive input : Type :=
| Bytes (b : list byte)
| Number (n : Z)
| BigInt (n : Z).

Definition MAX_SAFE_INTEGER : Z := 2 ^ 53 - 1.

(** [view.setInt16], [setInt32], [setUint32], [setBigInt64], [setBigUint64]
    at offset 0 of a fresh view of [width] bytes: the value modulo
    [2^(8*width)], least significant byte first when little endian. *)
Fixpoint low_bytes (width : nat) (v : Z) : list byte :=
  match width with
  | O => []
  | S width' => Z_to_u8 v :: low_bytes width' (Z.shiftr v 8)
  end.

Definition DataView_set (width : nat) (v : Z) (littleEndian : bool) : list byte :=
  if littleEndian then low_bytes width v else rev (low_bytes width v).

(** [numbers(input, littleEndian)] for an integer. *)
Definition numbers (input : Z) (littleEndian : bool) : result (list byte) :=
  if (input <? - MAX_SAFE_INTEGER) || (MAX_SAFE_INTEGER <? input) then
    Throw (RangeError "The provided integer is not a safe integer")
  else if input <? 0 then
    if input <? -2147483648 then Ok (DataView_set 8 input littleEndian)
    else if input <? -32768 then Ok (DataView_set 4 input littleEndian)
    else Ok (DataView_set 2 input littleEndian)
  else if 0 <? input then
    if 4294967295 <? input then Ok (DataView_set 8 input littleEndian)
    else if 65535 <? input then Ok (DataView_set 4 input littleEndian)
    else Ok (DataView_set 2 input littleEndian)
  else Ok (DataView_set 2 0 littleEndian).

(** [bigInts(input, littleEndian)]: the input is cut into 64 bit integers,
    appended with [push] (little endian) or [unshift]. *)
Definition maxN : Z := 18446744073709551616.

Fixpoint split64 (fuel : nat) (more : Z -> bool) (littleEndian : bool)
    (input : Z) (byteArray : list Z) : result (list Z) :=
  let append x := if littleEndian then byteArray ++ [x] else x :: byteArray in
  if more input then
    match fuel with
    | O => Diverge
    | S fuel' =>
        split64 fuel' more littleEndian (Z.shiftr input 64) (append (Z.rem input maxN))
    end
  else Ok (append input).

Definition bigInts (input : Z) (littleEndian : bool) : result (list byte) :=
  let fuel := S (Z.to_nat (Z.log2 (Z.abs input))) in
  byteArray <-
    (if input <? 0 then
       split64 fuel (fun x => x <? -9223372036854775808) littleEndian input []
     else split64 fuel (fun x => maxN <=? x) littleEndian input []) ;;
  Ok (flat_map (fun bigInt => DataView_set 8 bigInt littleEndian) byteArray).

(** [toBytes(input, settings)] with [settings.numberMode] off: the bytes and
    the sign that was taken off. *)
Definition toBytes (input : input) (littleEndian signed : bool)
  : result (list byte * bool) :=
  match input with
  | Bytes b => Ok (b, false)
  | Number n =>
      let negative := signed && (n <? 0) in
      let n := if negative then - n else n in
      inputUint8 <- numbers n littleEndian ;;
      Ok (inputUint8, negative)
  | BigInt n =>
      let negative := signed && (n <? 0) in
      let n := if negative then n * -1 else n in
      inputUint8 <- bigInts n littleEndian ;;
      Ok (inputUint8, negative)
  end.

End SmartInput.

(** [extractSign(input)] of the utilities. *)
Definition extractSign (input : jsstring) : jsstring * bool :=
  match input with
  | "-"%char :: rest => (rest, true)
  | _ => (input, false)
  end.

(** [s.toLowerCase()] on the letters A to Z. *)
Definition toLowerCase (s : jsstring) : jsstring :=
  map (fun c => let n := nat_of_ascii c in
                if (65 <=? n)%nat && (n <=? 90)%nat then ascii_of_nat (n + 32) else c) s.

(** ** SmartOutput: the output handler, for bytes and integers *)

Module SmartOutput.

(** The output types of the model: those of [typeList] that give bytes, a
    typed array of integers or an integer. The types [str], [float32],
    [float64] and [float_n] need the text decoder and floating point
    numbers and are left out. *)
Inductive type : Type :=
| bigint64 | bigint_n | biguint64 | buffer | bytes | int8 | int16 | int32
| int_n | uint8 | uint16 | uint32 | uint_n | view.

(** What [compile] returns: a buffer, a view of a buffer (a typed array of
    wider elements reads its buffer in the byte order of the machine), a
    [Number], a [BigInt] or [undefined]. *)
Inductive compiled : Type :=
| ArrayBuffer (b : list byte)
| Uint8Array (b : list byte)
| Int8Array (b : list byte)
| DataView (b : list byte)
| TypedArray (t : type) (buffer : list byte)
| NumberValue (n : Z)
| BigIntValue (n : Z)
| Undefined.

(** [makeTypedArrayBuffer(Uint8ArrayOut, bytesPerElem, littleEndian,
    negative)], which is called with 2, 4 or 8 bytes per element: the bytes
    themselves when their number is a multiple of [bytesPerElem], otherwise
    a new array filled with [fillVal] into which the bytes are set, at the
    start when little endian and at the end when big endian. *)
Definition makeTypedArrayBuffer (Uint8ArrayOut : list byte) (bytesPerElem : positive)
    (littleEndian negative : bool) : list byte :=
  let len := len Uint8ArrayOut in
  let delta :=
    Z.rem (Z.pos bytesPerElem - Z.rem len (Z.pos bytesPerElem)) (Z.pos bytesPerElem) in
  let fillVal := if negative && (1 <? len) then xff else x00 in
  if delta =? 0 then Uint8ArrayOut
  else if littleEndian then Uint8ArrayOut ++ repeat fillVal (Z.to_nat delta)
  else repeat fillVal (Z.to_nat delta) ++ Uint8ArrayOut.

(** [makeTypedArray(inArray, type, littleEndian, negative)]; [None] is the
    [undefined] it returns for any other type. *)
Definition makeTypedArray (inArray : list byte) (t : type) (littleEndian negative : bool)
  : option compiled :=
  match t with
  | int16 | uint16 =>
      Some (TypedArray t (makeTypedArrayBuffer inArray 2 littleEndian negative))
  | int32 | uint32 =>
      Some (TypedArray t (makeTypedArrayBuffer inArray 4 littleEndian negative))
  | bigint64 | biguint64 =>
      Some (TypedArray t (makeTypedArrayBuffer inArray 8 littleEndian negative))
  | _ => None
  end.

(** [BigInt.asIntN(bits, n)] *)
Definition asIntN (bits n : Z) : Z :=
  if bits <=? 0 then 0
  else
    let m := n mod 2 ^ bits in
    if 2 ^ (bits - 1) <=? m then m - 2 ^ bits else m.

(** The branch of [compile] for the types [uint_n], [int_n] and [bigint_n],
    up to the integer [n]: a single byte is expanded to two, the bytes are
    read most significant first, and for a signed type in two's complement. *)
Definition integer_value (Uint8ArrayOut : list byte) (t : type)
    (littleEndian negative : bool) : Z :=
  let Uint8ArrayOut :=
    if len Uint8ArrayOut =? 1
    then makeTypedArrayBuffer Uint8ArrayOut 2 littleEndian negative
    else Uint8ArrayOut in
  let Uint8ArrayOut := if littleEndian then rev Uint8ArrayOut else Uint8ArrayOut in
  let n := fold_left (fun n b => Z.shiftl n 8 + u8_to_Z b) Uint8ArrayOut 0 in
  match t with
  | uint_n => n
  | _ => asIntN (len Uint8ArrayOut * 8) n
  end.

(** [n >= Number.MIN_SAFE_INTEGER && n <= Number.MAX_SAFE_INTEGER] *)
Definition is_safe (n : Z) : bool :=
  (- SmartInput.MAX_SAFE_INTEGER <=? n) && (n <=? SmartInput.MAX_SAFE_INTEGER).

(** [compile(Uint8ArrayOut, type, littleEndian, negative)]. With [negative]
    set, the call of itself for the type [uint_n] gives the magnitude, and
    the input handler, unsigned, the bytes of its negation. *)
Definition compile (Uint8ArrayOut : list byte) (t : type) (littleEndian negative : bool)
  : result compiled :=
  Uint8ArrayOut <-
    (if negative then
       let n := integer_value Uint8ArrayOut uint_n littleEndian false in
       let n := if is_safe n then SmartInput.Number (- n) else SmartInput.BigInt (- n) in
       handled <- SmartInput.toBytes n littleEndian false ;;
       Ok (fst handled)
     else Ok Uint8ArrayOut) ;;
  match t with
  | buffer => Ok (ArrayBuffer Uint8ArrayOut)
  | bytes | uint8 => Ok (Uint8Array Uint8ArrayOut)
  | int8 => Ok (Int8Array Uint8ArrayOut)
  | view => Ok (DataView Uint8ArrayOut)
  | uint_n | int_n | bigint_n =>
      let n := integer_value Uint8ArrayOut t littleEndian negative in
      match t with
      | bigint_n => Ok (BigIntValue n)
      | _ => if is_safe n then Ok (NumberValue n) else Ok (BigIntValue n)
      end
  | _ =>
      match makeTypedArray Uint8ArrayOut t littleEndian negative with
      | Some outArray => Ok outArray
      | None => Ok Undefined
      end
  end.

End SmartOutput.

(** ** Utils: the utilities of the converters *)

Module Utils.

(** [output.replace(/^0+(?!$)/, "")]: the zeros at the start are removed,
    but never the last character of the string. *)
Fixpoint strip_zeros (output : jsstring) : jsstring :=
  match output with
  | [] => []
  | c :: rest =>
      match rest with
      | [] => output
      | _ :: _ => if Ascii.eqb c "0"%char then strip_zeros rest else output
      end
  end.

(** [toSignedStr(output, negative)] *)
Definition toSignedStr (output : jsstring) (negative : bool) : jsstring :=
  let output := strip_zeros output in
  if negative then "-"%char :: output else output.

Fixpoint jsstring_eqb (s t : jsstring) : bool :=
  match s, t with
  | [], [] => true
  | c :: s', d :: t' => Ascii.eqb c d && jsstring_eqb s' t'
  | _, _ => false
  end.

(** [a.includes(x)] for an array of strings. *)
Definition includes (a : list jsstring) (x : jsstring) : bool :=
  existsb (jsstring_eqb x) a.

(** [new Set(iterable)]: the elements in the order of their first
    occurrence. *)
Definition Set_from (iterable : list jsstring) : list jsstring :=
  fold_left (fun set x => if includes set x then set else set ++ [x]) iterable [].

(** The charset that [addCharset(name, charset)] is given: a string, an
    array of strings, a [Set] (its elements in the order of insertion), or
    a value of another type. *)
Inductive charset_argument : Type :=
| CharsetString (s : jsstring)
| CharsetArray (a : list jsstring)
| CharsetSet (elements : list jsstring)
| CharsetOther.

(** How [addCharset] ends: [charsets[name]] is set to a string, or one of
    its three errors is thrown. *)
Inductive added : Type :=
| Added (charset : jsstring)
| WrongType
| RepetitiveChars
| WrongLength.

(** [addCharset(name, charset)] for a name that is a string; [setLen] is the
    radix of the converter. *)
Definition addCharset (setLen : Z) (charset : charset_argument) : added :=
  let prepared :=
    match charset with
    | CharsetString s => Some (len s, Set_from (map (fun c => [c]) s))
    | CharsetArray a => Some (len a, Set_from a)
    | CharsetSet elements => Some (setLen, elements)
    | CharsetOther => None
    end in
  match prepared with
  | None => WrongType
  | Some (inputLen, set) =>
      if len set =? setLen then Added (List.concat set)
      else if inputLen =? setLen then RepetitiveChars
      else WrongLength
  end.

(** The settings of a call, and which of them arguments may change. *)
Record parameters : Type :=
  { littleEndian : bool; numberMode : bool; outputType : jsstring; padding : bool;
    signed : bool; upper : option bool; version : jsstring }.

Record mutable : Type :=
  { mutable_littleEndian : bool; mutable_padding : bool; mutable_signed : bool;
    mutable_upper : bool }.

(** The converter the utilities belong to: its settings, the names of its
    charsets and [isMutable]. *)
Record root : Type :=
  { defaults : parameters; versions : list jsstring; isMutable : mutable }.

(** The input and output handlers: the simple ones for bytes only, or the
    default ones. *)
Inductive handler : Type := BytesOnly | Smart.

Record handlers : Type := { inputHandler : handler; outputHandler : handler }.

Definition typeList (outputHandler : handler) : list jsstring :=
  match outputHandler with
  | BytesOnly => map str ["buffer"; "bytes"; "uint8"; "view"]%string
  | Smart =>
      map str ["bigint64"; "bigint_n"; "biguint64"; "buffer"; "bytes"; "float32";
               "float64"; "float_n"; "int8"; "int16"; "int32"; "int_n"; "str";
               "uint8"; "uint16"; "uint32"; "uint_n"; "view"]%string
  end.

(** [extractArg(arg)]: the arguments without the first occurrence of [arg],
    or [None] when it is not among them. *)
Fixpoint extractArg (arg : jsstring) (args : list jsstring) : option (list jsstring) :=
  match args with
  | [] => None
  | a :: rest =>
      if jsstring_eqb a arg then Some rest
      else match extractArg arg rest with
           | Some rest' => Some (a :: rest')
           | None => None
           end
  end.

Definition set_version (p : parameters) (v : jsstring) : parameters :=
  {| littleEndian := littleEndian p; numberMode := numberMode p;
     outputType := outputType p; padding := padding p; signed := signed p;
     upper := upper p; version := v |}.

Definition set_outputType (p : parameters) (t : jsstring) : parameters :=
  {| littleEndian := littleEndian p; numberMode := numberMode p;
     outputType := t; padding := padding p; signed := signed p;
     upper := upper p; version := version p |}.

Definition set_numberMode (p : parameters) (b : bool) : parameters :=
  {| littleEndian := littleEndian p; numberMode := b;
     outputType := outputType p; padding := padding p; signed := signed p;
     upper := upper p; version := version p |}.

Definition set_littleEndian (p : parameters) (b : bool) : parameters :=
  {| littleEndian := b; numberMode := numberMode p;
     outputType := outputType p; padding := padding p; signed := signed p;
     upper := upper p; version := version p |}.

Definition set_padding (p : parameters) (b : bool) : parameters :=
  {| littleEndian := littleEndian p; numberMode := numberMode p;
     outputType := outputType p; padding := b; signed := signed p;
     upper := upper p; version := version p |}.

Definition set_signed (p : parameters) (b : bool) : parameters :=
  {| littleEndian := littleEndian p; numberMode := numberMode p;
     outputType := outputType p; padding := padding p; signed := b;
     upper := upper p; version := version p |}.

Definition set_upper (p : parameters) (b : bool) : parameters :=
  {| littleEndian := littleEndian p; numberMode := numberMode p;
     outputType := outputType p; padding := padding p; signed := signed p;
     upper := Some b; version := version p |}.

(** One round of [for (const param in extraArgList)]: the two options of a
    parameter, index 0 for [false] and index 1 for [true]. The state is the
    parameters and [invalidArg]. *)
Definition extraArg (option0 option1 : string) (mutable : bool)
    (set : parameters -> bool -> parameters) (arg : jsstring)
    (state : parameters * bool) : result (parameters * bool) :=
  if includes [str option0; str option1] arg then
    if mutable then Ok (set (fst state) (jsstring_eqb arg (str option1)), false)
    else Throw (TypeError "Argument is not allowed for this type of converter.")
  else Ok state.

(** The body of [args.forEach]. *)
Definition walk (r : root) (outputTypes : list jsstring) (p : parameters)
    (arg : jsstring) : result parameters :=
  let arg := toLowerCase arg in
  if includes (versions r) arg then Ok (set_version p arg)
  else if includes outputTypes arg then Ok (set_outputType p arg)
  else
    state <- extraArg "be" "le" (mutable_littleEndian (isMutable r))
               set_littleEndian arg (p, true) ;;
    state <- extraArg "nopad" "pad" (mutable_padding (isMutable r))
               set_padding arg state ;;
    state <- extraArg "unsigned" "signed" (mutable_signed (isMutable r))
               set_signed arg state ;;
    state <- extraArg "lower" "upper" (mutable_upper (isMutable r))
               set_upper arg state ;;
    if snd state then Throw (TypeError "Invalid argument")
    else Ok (fst state).

(** [validateArgs(args, initial)] for arguments that are strings: the
    settings of the call and the handlers in place afterwards. On an initial
    call the settings returned also become the settings of the converter. *)
Definition validateArgs (r : root) (io : handlers) (args : list jsstring)
    (initial : bool) : result (parameters * handlers) :=
  let parameters := defaults r in
  match args with
  | [] =>
      Ok (parameters,
          if initial then {| inputHandler := Smart; outputHandler := Smart |} else io)
  | _ :: _ =>
      let '(io, args) :=
        if initial then
          match extractArg (str "bytes_only") args with
          | Some args =>
              ({| inputHandler := BytesOnly; outputHandler := BytesOnly |}, args)
          | None =>
              let '(inHandler, args) :=
                match extractArg (str "bytes_in") args with
                | Some args => (BytesOnly, args)
                | None => (Smart, args)
                end in
              let '(outHandler, args) :=
                match extractArg (str "bytes_out") args with
                | Some args => (BytesOnly, args)
                | None => (Smart, args)
                end in
              ({| inputHandler := inHandler; outputHandler := outHandler |}, args)
          end
        else (io, args) in
      let outputTypes := typeList (outputHandler io) in
      let '(parameters, args) :=
        match extractArg (str "number") args with
        | Some args =>
            (set_outputType (set_numberMode parameters true) (str "float_n"), args)
        | None => (parameters, args)
        end in
      parameters <-
        fold_left (fun state arg => p <- state ;; walk r outputTypes p arg)
          args (Ok parameters) ;;
      let parameters :=
        if padding parameters && signed parameters
        then set_padding parameters false
        else parameters in
      Ok (parameters, io)
  end.

End Utils.

(** ** LEB128 *)

Module LEB128.

Inductive version : Type := default | hex.

Definition converter : BaseConverter.t := BaseConverter.new 10 0 0 0.
Definition hexlify : BaseConverter.t := BaseConverter.new 16 1 2 0.
Definition hex_charset : jsstring := str "0123456789abcdef".

(** What [encode] returns: a [Uint8Array], or its hexadecimal string. *)
Inductive encoded : Type :=
| Uint8Output (bytes : list byte)
| HexOutput (s : jsstring).

(** The signed loop: [byte = n & 127; n >>= 7], until the rest is the sign
    extension of the byte. *)
Fixpoint signed_loop (fuel : nat) (n : Z) : result (list Z) :=
  let byte := Z.land n 127 in
  let n := Z.shiftr n 7 in
  if ((n =? 0) && (Z.land byte 64 =? 0)) || ((n =? -1) && negb (Z.land byte 64 =? 0))
  then Ok [byte]
  else
    match fuel with
    | O => Diverge
    | S fuel' => output <- signed_loop fuel' n ;; Ok (Z.lor byte 128 :: output)
    end.

(** The unsigned loop: until the rest is 0. *)
Fixpoint unsigned_loop (fuel : nat) (n : Z) : result (list Z) :=
  let byte := Z.land n 127 in
  let n := Z.shiftr n 7 in
  if n =? 0 then Ok [byte]
  else
    match fuel with
    | O => Diverge
    | S fuel' => output <- unsigned_loop fuel' n ;; Ok (Z.lor byte 128 :: output)
    end.

(** [encode(input, ...args)]: the setting [signed], and the version. The
    converter is little endian and hands [signed = true] to the input
    handler, whatever the setting. The loops get one round per bit of [n]. *)
Definition encode (input : SmartInput.input) (signed : bool) (v : version)
  : result encoded :=
  handled <- SmartInput.toBytes input true true ;;
  let '(inputBytes, negative) := handled in
  base10 <- BaseConverter.encode converter inputBytes None true None ;;
  n <- BaseConverter.BigInt_of_string (fst (fst base10)) ;;
  n <- (if negative then
          if negb signed then
            Throw (TypeError "Negative values in unsigned mode are invalid.")
          else Ok (- n)
        else Ok n) ;;
  let fuel := S (Z.to_nat (Z.log2 (Z.abs n))) in
  output <- (if signed then signed_loop fuel n else unsigned_loop fuel n) ;;
  let bytes := Uint8Array_from output in
  match v with
  | hex =>
      hexed <- BaseConverter.encode hexlify bytes (Some hex_charset) false None ;;
      Ok (HexOutput (fst (fst hexed)))
  | default => Ok (Uint8Output bytes)
  end.

(** [for (byte of input) { shiftVal += 7n; n += BigInt(byte & 127) << shiftVal }] *)
Fixpoint accumulate (input : list byte) (n shiftVal : Z) (byte : option Z)
  : Z * Z * option Z :=
  match input with
  | [] => (n, shiftVal, byte)
  | b :: rest =>
      let shiftVal := shiftVal + 7 in
      accumulate rest (n + Z.shiftl (Z.land (u8_to_Z b) 127) shiftVal) shiftVal
        (Some (u8_to_Z b))
  end.

(** The integer [decode] reconstructs, with the sign extension of signed
    mode: [n |= -(1n << shiftVal + 7n)] when bit 6 of the last byte is set. *)
Definition decode_integer (input : list byte) (signed : bool) : Z :=
  let '(n, shiftVal, byte) := accumulate input 0 (-7) None in
  let last := match byte with Some b => b | None => 0 end in
  if signed && negb (Z.land last 64 =? 0)
  then Z.lor n (- Z.shiftl 1 (shiftVal + 7))
  else n.

(** What [decode] is given: bytes, or for the hex version a string. *)
Inductive encoded_input : Type :=
| FromBytes (bytes : list byte)
| FromHex (s : jsstring).

(** [decode(input, ...args)], up to the call of the output handler: the
    bytes of the magnitude, least significant first, and the sign. *)
Definition decode (input : encoded_input) (signed : bool) : result (list byte * bool) :=
  input <-
    match input with
    | FromHex s => BaseConverter.decode hexlify (toLowerCase s) hex_charset false
    | FromBytes b => Ok b
    end ;;
  match input with
  | [x00] => Ok ([x00], false)
  | _ =>
      let n := decode_integer input signed in
      let '(decimalNum, negative) := extractSign (BaseConverter.BigInt_toString n) in
      output <- BaseConverter.decode converter decimalNum BaseConverter.decimal_digits true ;;
      Ok (output, negative)
  end.

(** The settings the constructor gives the converter, with those of the
    base template: little endian, not signed unless asked for, and only the
    sign is mutable. *)
Definition root : Utils.root :=
  {| Utils.defaults :=
       {| Utils.littleEndian := true; Utils.numberMode := false;
          Utils.outputType := str "buffer"; Utils.padding := false;
          Utils.signed := false; Utils.upper := None;
          Utils.version := str "default" |};
     Utils.versions := [str "default"; str "hex"];
     Utils.isMutable :=
       {| Utils.mutable_littleEndian := false; Utils.mutable_padding := false;
          Utils.mutable_signed := true; Utils.mutable_upper := false |} |}.

(** [decode(input, ...args)] with the output handler: what it returns for
    the output type of the settings. *)
Definition decode_compiled (input : encoded_input) (signed : bool)
    (outputType : SmartOutput.type) : result SmartOutput.compiled :=
  decoded <- decode input signed ;;
  let '(output, negative) := decoded in
  SmartOutput.compile output outputType true negative.

End LEB128.

(** ** Big: exact decimals *)

Module Big.

(** Modelled from the spec: the arbitrary precision decimal arithmetic that
    the base phi converter is given (the library big.js is not among the
    sources): add, subtract and compare are exact, and rounding to N digits
    goes to the nearest decimal, a tie away from zero. Every value of one
    conversion is a multiple of [10^-(120 + extra)], where 120 is the number
    of decimal places of the constant Phi and [extra] the number of further
    places of the input (none for an integer): a value is modelled by its
    numerator over [10^(120 + extra)]. *)
Definition places (extra : nat) : Z := 120 + Z.of_nat extra.

Definition one (extra : nat) : Z := 10 ^ places extra.

Definition of_integer (extra : nat) (n : Z) : Z := n * one extra.

Definition round (extra : nat) (dp : Z) (x : Z) : Z :=
  let q := 10 ^ (places extra - dp) in
  Z.sgn x * ((2 * Z.abs x + q) / (2 * q)) * q.

Definition to_integer (extra : nat) (x : Z) : Z := Z.quot x (one extra).

End Big.

(** ** BasePhi *)

Module BasePhi.

Definition default_charset : jsstring := str "01".

(** The closure variables of [encode] that [reduceN] updates, and whether
    the approximation warning was given. *)
Record vars : Type :=
  { n : Z; exponents : list Z; decExponents : list Z; warned : bool }.

Section Converter.

(** The decimal places beyond 120, the charset of the chosen version, and
    [normalizeInput] of the utilities, which is not among the sources. *)
Variable extra : nat.
Variable charset : jsstring.
Variable normalizeInput : jsstring -> jsstring.

Definition Phi : Z :=
  1618033988749894848204586834365638117720309179805762862135448622705260462818902449707207204189391137484754088075386891752
  * 10 ^ Z.of_nat extra.

Definition nextPhiExp (last cur : Z) : Z * Z := (cur, last + cur).

Definition prevPhiExp (cur prev : Z) : Z * Z := (prev - cur, cur).

(** [!(n.round(50).abs().toNumber())] *)
Definition approxNull (n : Z) : bool := Z.abs (Big.round extra 50 n) =? 0.

(** [while (cur.lt(n)) { [last, cur] = nextPhiExp(last, cur); exp++ }] *)
Fixpoint highest_exp (fuel : nat) (n last cur exp : Z) : result (Z * Z * Z) :=
  if cur <? n then
    match fuel with
    | O => Diverge
    | S fuel' =>
        let '(last, cur) := nextPhiExp last cur in
        highest_exp fuel' n last cur (exp + 1)
    end
  else Ok (last, cur, exp).

(** The loop of [reduceN]: [while (cur.gt(n))], left with [None] when [cur]
    is no longer positive. *)
Fixpoint fitting_exp (fuel : nat) (n cur prev exp : Z) : result (option (Z * Z * Z)) :=
  if n <? cur then
    match fuel with
    | O => Diverge
    | S fuel' =>
        let '(cur, prev) := prevPhiExp cur prev in
        if cur <=? 0 then Ok None
        else fitting_exp fuel' n cur prev (exp - 1)
    end
  else Ok (Some (cur, prev, exp)).

(** [reduceN(cur, prev, exp)]; [rounds] bounds its inner loop, [fuel] the
    depth of the recursion. *)
Fixpoint reduceN (rounds fuel : nat) (v : vars) (cur prev exp : Z) : result vars :=
  if approxNull (n v) then Ok v
  else
    fit <- fitting_exp rounds (n v) cur prev exp ;;
    match fit with
    | None =>
        Ok {| n := n v; exponents := exponents v;
              decExponents := decExponents v; warned := true |}
    | Some (cur, prev, exp) =>
        let v' :=
          {| n := n v - cur;
             exponents := if -1 <? exp then exp :: exponents v else exponents v;
             decExponents := if -1 <? exp then decExponents v
                             else decExponents v ++ [exp];
             warned := warned v |} in
        match fuel with
        | O => Diverge
        | S fuel' => reduceN rounds fuel' v' cur prev exp
        end
    end.

(** The two [forEach] loops that write the digits. *)
Definition write_exponent (state : jsstring * Z) (nExp : Z) : jsstring * Z :=
  let '(output, exp) := state in
  let zeros := List.concat (repeat (char_at charset 0) (Z.to_nat (nExp - exp))) in
  (char_at charset 1 ++ zeros ++ output, Z.max exp nExp + 1).

Definition write_decExponent (state : jsstring * Z) (nExp : Z) : jsstring * Z :=
  let '(output, exp) := state in
  let zeros := List.concat (repeat (char_at charset 0) (Z.to_nat (exp - nExp))) in
  (output ++ zeros ++ char_at charset 1, Z.min exp nExp - 1).

(** [encode], from the number [n] on (the magnitude of the input as a
    Big): the string, and whether the warning was given. [fuel] bounds
    every loop and the recursion. *)
Definition encode_number (fuel : nat) (negative : bool) (n : Z)
  : result (jsstring * bool) :=
  let sign (output : jsstring) := if negative then "-"%char :: output else output in
  if (n =? 0) || (n =? Big.one extra) then
    Ok (sign (char_at charset (Big.to_integer extra n)), false)
  else
    found <- highest_exp fuel n (Big.one extra) Phi 0 ;;
    let '(last, cur, exp) := found in
    v <- reduceN fuel fuel
           {| n := n; exponents := []; decExponents := []; warned := false |}
           last cur exp ;;
    let output := fst (fold_left write_exponent (exponents v) ([], 0)) in
    let output :=
      match output with
      | [] => str "0."
      | _ => output ++ str "."
      end in
    let output := fst (fold_left write_decExponent (decExponents v) (output, -1)) in
    Ok (sign output, warned v).

(** [encode(input)] outside of decimal mode: the input handler (signed,
    big endian) and the base 10 converter give the number. *)
Definition b10 : BaseConverter.t := BaseConverter.new 10 0 0 0.

Definition encode (fuel : nat) (input : SmartInput.input) : result jsstring :=
  handled <- SmartInput.toBytes input false true ;;
  let '(inputBytes, negative) := handled in
  base10 <- BaseConverter.encode b10 inputBytes None false None ;;
  n <- BaseConverter.BigInt_of_string (fst (fst base10)) ;;
  encoded <- encode_number fuel negative (Big.of_integer extra n) ;;
  Ok (fst encoded).

(** [input.split(".")] *)
Fixpoint split_point (s field : jsstring) : list jsstring :=
  match s with
  | [] => [field]
  | c :: rest =>
      if Ascii.eqb c "."%char then field :: split_point rest []
      else split_point rest (field ++ [c])
  end.

(** The two [forEach] loops of [decode]. *)
Definition digit_value (char : ascii) (n cur : Z) : result Z :=
  let charIndex := indexOf charset char in
  if charIndex =? 1 then Ok (n + cur)
  else if charIndex =? 0 then Ok n
  else Throw (CharsetError char).

Fixpoint sum_up (chars : jsstring) (n last cur : Z) : result Z :=
  match chars with
  | [] => Ok n
  | char :: rest =>
      n <- digit_value char n cur ;;
      let '(last, cur) := nextPhiExp last cur in
      sum_up rest n last cur
  end.

Fixpoint sum_down (chars : jsstring) (n cur prev : Z) : result Z :=
  match chars with
  | [] => Ok n
  | char :: rest =>
      n <- digit_value char n cur ;;
      let '(cur, prev) := prevPhiExp cur prev in
      sum_down rest n cur prev
  end.

(** [decode(input)] up to the number [n] it sums, with the sign. *)
Definition decode_number (input : jsstring) : result (Z * bool) :=
  let '(input, negative) := extractSign (normalizeInput input) in
  let fields := split_point input [] in
  let posExpStr := nth 0 fields [] in
  n <- sum_up (rev posExpStr) 0 (Phi - Big.one extra) (Big.one extra) ;;
  n <- match nth_error fields 1 with
       | Some (c :: decExpStr) =>
           sum_down (c :: decExpStr) n (Phi - Big.one extra) (Big.one extra)
       | _ => Ok n
       end ;;
  Ok (n, negative).

(** [decode(input)] outside of decimal mode, up to the call of the base 10
    converter: the integer [n.round()], which [toFixed] writes out, and the
    sign that goes to the output handler. *)
Definition decode (input : jsstring) : result (Z * bool) :=
  decoded <- decode_number input ;;
  let '(n, negative) := decoded in
  Ok (Big.to_integer extra (Big.round extra 0 n), negative).

End Converter.

End BasePhi.

(** * Specification

    The vocabulary of the statements: positional values, the integers that
    byte sequences stand for, and the powers of Phi as the converter
    computes them. *)

Definition base64_converter : BaseConverter.t := BaseConverter.new 64 3 4 0.

(** The doubles nearest to the logarithms of 2, 10 and 16, which is what
    [Math.log] returns for them. *)
Definition Math_log_reference (x : float) : float :=
  if PrimFloat.eqb x 2 then 0x1.62e42fefa39efp-1%float
  else if PrimFloat.eqb x 10 then 0x1.26bb1bbb55516p+1%float
  else if PrimFloat.eqb x 16 then 0x1.62e42fefa39efp+1%float
  else nan.

(** [inserted charset s s']: [s'] is [s] with characters that do not occur
    in the charset put in at any positions. *)
Inductive inserted (charset : jsstring) : jsstring -> jsstring -> Prop :=
| inserted_nil : inserted charset [] []
| inserted_same (c : ascii) (s s' : jsstring) :
    inserted charset s s' -> inserted charset (c :: s) (c :: s')
| inserted_here (c : ascii) (s s' : jsstring) :
    ~ In c charset -> inserted charset s s' -> inserted charset s (c :: s').

Definition horner (r : Z) (ds : list Z) (acc : Z) : Z :=
  fold_left (fun a d => a * r + d) ds acc.

Definition digits_in (r : Z) (ds : list Z) : Prop :=
  Forall (fun d => 0 <= d < r) ds.

(** The number a byte sequence stands for, least significant byte first. *)
Definition le_value (bytes : list byte) : Z :=
  fold_right (fun b acc => u8_to_Z b + 256 * acc) 0 bytes.

(** The number the payloads of a sequence of groups stand for, least
    significant group first. *)
Definition groups_value (out : list Z) : Z :=
  fold_right (fun x acc => Z.land x 127 + 128 * acc) 0 out.

(** Continuation terminated: bytes, the last one without the continuation
    bit and every other one with it. *)
Fixpoint terminated (out : list Z) : Prop :=
  match out with
  | [] => False
  | x :: rest =>
      match rest with
      | [] => 0 <= x < 128
      | _ => 128 <= x < 256 /\ terminated rest
      end
  end.

Definition signed_value (out : list Z) : Z :=
  if Z.land (last out 0) 64 =? 0 then groups_value out
  else groups_value out - 128 ^ len out.

(** The number a byte sequence stands for in the byte order given. *)
Definition bytes_value (littleEndian : bool) (bytes : list byte) : Z :=
  if littleEndian then le_value bytes else le_value (rev bytes).

(** What the input handler makes of an integer: the bytes of its magnitude
    and its sign. *)
Definition integer_input (input : SmartInput.input) (v : Z) : Prop :=
  input = SmartInput.BigInt v
  \/ (input = SmartInput.Number v
      /\ - SmartInput.MAX_SAFE_INTEGER <= v <= SmartInput.MAX_SAFE_INTEGER).

Definition negative_unsigned : error :=
  TypeError "Negative values in unsigned mode are invalid.".

Definition continuation_terminated (bs : list byte) : Prop :=
  terminated (map u8_to_Z bs).

(** The digits [encode] writes for a block of bytes, and the bytes [decode]
    writes for a block of digits. *)
Definition frame_digits (c : BaseConverter.t) (block : list Z) : list Z :=
  match BaseConverter.to_digits (BaseConverter.radix c) (horner 256 block 0) with
  | Ok ds => BaseConverter.unshift_zeros (BaseConverter.bsDec c) ds
  | _ => []
  end.

Definition block_bytes (c : BaseConverter.t) (digits : list Z) : list Z :=
  match BaseConverter.to_digits 256 (horner (BaseConverter.radix c) digits 0) with
  | Ok ds => BaseConverter.unshift_zeros (BaseConverter.bsEnc c) ds
  | _ => []
  end.

(** What [encode] makes of the input before it goes through the blocks. *)
Definition padded_input (c : BaseConverter.t) (b : list byte) (littleEndian : bool)
  : list Z :=
  let z := Z.to_nat ((BaseConverter.bsEnc c - len b mod BaseConverter.bsEnc c)
                     mod BaseConverter.bsEnc c) in
  if littleEndian then repeat 0 z ++ map u8_to_Z (rev b)
  else map u8_to_Z b ++ repeat 0 z.

Definition base64_charset : jsstring :=
  str "ABCDEFGHIJKLMNOPQRSTUVWXYZabcdefghijklmnopqrstuvwxyz0123456789+/".

(** The pair (Phi^k, Phi^(k+1)) as the converter computes it from
    (1, Phi), upwards with [nextPhiExp] and downwards with [prevPhiExp]. *)
Definition next_pair (p : Z * Z) : Z * Z := BasePhi.nextPhiExp (fst p) (snd p).

Definition prev_pair (p : Z * Z) : Z * Z := BasePhi.prevPhiExp (fst p) (snd p).

Definition phi_pair (k : Z) : Z * Z :=
  if 0 <=? k then Nat.iter (Z.to_nat k) next_pair (Big.one 0, BasePhi.Phi 0)
  else Nat.iter (Z.to_nat (- k)) prev_pair (Big.one 0, BasePhi.Phi 0).

Definition phi_power (k : Z) : Z := fst (phi_pair k).

(** Down to the exponent -250 the powers are positive and increase with
    the exponent. *)
Definition lowest : Z := -250.

Definition increasing_at (k : Z) : bool :=
  (0 <? phi_power k) && (phi_power k <? phi_power (k + 1)).

(** The sum of the powers at a list of exponents. *)
Definition sum_powers (exps : list Z) : Z :=
  fold_right (fun e acc => phi_power e + acc) 0 exps.

(** Exponents in increasing order from [lo] on, and in decreasing order
    from [hi] on. *)
Fixpoint ascending (lo : Z) (exps : list Z) : Prop :=
  match exps with
  | [] => True
  | e :: rest => lo <= e /\ ascending (e + 1) rest
  end.

Fixpoint descending (hi : Z) (exps : list Z) : Prop :=
  match exps with
  | [] => True
  | e :: rest => e <= hi /\ descending (e - 1) rest
  end.

(** What holds of the variables of [encode] whenever [reduceN] is called
    with the powers at the exponent [k]: the exponents stored so far are
    above the bound [b], in order, their powers sum up with [n] to the
    number [n0] that was to be encoded, and the next exponent to be stored
    is below [b]. *)
Record reducing (n0 : Z) (v : BasePhi.vars) (k b : Z) : Prop :=
  { red_n : 0 <= BasePhi.n v <= phi_power (k + 1);
    red_k : lowest <= k <= b;
    red_next : BasePhi.n v < phi_power b \/ b = k + 1;
    red_exps : ascending (Z.max b 0) (BasePhi.exponents v);
    red_decs : descending (-1) (BasePhi.decExponents v);
    red_above : forall e, In e (BasePhi.decExponents v) -> b <= e;
    red_decs_empty : 0 <= b -> BasePhi.decExponents v = [];
    red_sum : BasePhi.n v + sum_powers (BasePhi.exponents v)
              + sum_powers (BasePhi.decExponents v) = n0;
    red_warned : BasePhi.warned v = false }.

(** What holds when [reduceN] has returned. *)
Record reduced (n0 : Z) (v : BasePhi.vars) : Prop :=
  { fin_null : 0 <= 2 * BasePhi.n v < 10 ^ 70;
    fin_exps : ascending 0 (BasePhi.exponents v);
    fin_decs : descending (-1) (BasePhi.decExponents v);
    fin_sum : BasePhi.n v + sum_powers (BasePhi.exponents v)
              + sum_powers (BasePhi.decExponents v) = n0;
    fin_warned : BasePhi.warned v = false }.

Definition binary_digit (ch : ascii) : Prop := ch = "0"%char \/ ch = "1"%char.

(** The digits of the integer part from the exponent [exp] upwards, and of
    the fractional part from [exp] downwards. *)
Fixpoint up_string (exps : list Z) (exp : Z) : jsstring :=
  match exps with
  | [] => []
  | e :: rest => repeat "0"%char (Z.to_nat (e - exp)) ++ "1"%char :: up_string rest (e + 1)
  end.

Fixpoint down_string (decs : list Z) (exp : Z) : jsstring :=
  match decs with
  | [] => []
  | d :: rest => repeat "0"%char (Z.to_nat (exp - d)) ++ "1"%char :: down_string rest (d - 1)
  end.

(** The number a digit string stands for, read upwards or downwards from
    the exponent [j]. *)
Fixpoint value_up (t : jsstring) (j : Z) : Z :=
  match t with
  | [] => 0
  | ch :: rest => (if Ascii.eqb ch "1"%char then phi_power j else 0) + value_up rest (j + 1)
  end.

Fixpoint value_down (t : jsstring) (j : Z) : Z :=
  match t with
  | [] => 0
  | ch :: rest => (if Ascii.eqb ch "1"%char then phi_power j else 0) + value_down rest (j - 1)
  end.

(** The string [encode] writes for the exponents [reduceN] has found. *)
Definition written (negative : bool) (v : BasePhi.vars) : jsstring :=
  let output :=
    fst (fold_left (BasePhi.write_exponent BasePhi.default_charset) (BasePhi.exponents v)
           ([], 0)) in
  let output := match output with [] => str "0." | _ => output ++ str "." end in
  let output :=
    fst (fold_left (BasePhi.write_decExponent BasePhi.default_charset)
           (BasePhi.decExponents v) (output, -1)) in
  if negative then "-"%char :: output else output.

(** ** Further notions *)

(** The integer the output handler returns: a [Number] when it is safe,
    otherwise a [BigInt]. *)
Definition integer_output (n : Z) : SmartOutput.compiled :=
  if SmartOutput.is_safe n then SmartOutput.NumberValue n else SmartOutput.BigIntValue n.

(** The seven payload bits of a byte. *)
Definition payload (b : byte) : Z := Z.land (u8_to_Z b) 127.

(** What the arguments cannot change: the parameters that are not mutable. *)
Definition kept (r : Utils.root) (p : Utils.parameters) : Prop :=
  (Utils.mutable_littleEndian (Utils.isMutable r) = false ->
   Utils.littleEndian p = Utils.littleEndian (Utils.defaults r))
  /\ (Utils.mutable_padding (Utils.isMutable r) = false ->
      Utils.padding p = Utils.padding (Utils.defaults r))
  /\ (Utils.mutable_signed (Utils.isMutable r) = false ->
      Utils.signed p = Utils.signed (Utils.defaults r))
  /\ (Utils.mutable_upper (Utils.isMutable r) = false ->
      Utils.upper p = Utils.upper (Utils.defaults r)).



(** The characters [decode] takes for a digit: those at the index 0 or 1 of
    the charset. *)
Definition phi_digit (charset : jsstring) (c : ascii) : Prop :=
  indexOf charset c = 0 \/ indexOf charset c = 1.

(** Exponents that are at least two apart, in increasing order from [lo]
    on and in decreasing order from [hi] on. *)
Fixpoint gapped_up (lo : Z) (exps : list Z) : Prop :=
  match exps with
  | [] => True
  | e :: rest => lo <= e /\ gapped_up (e + 2) rest
  end.

Fixpoint gapped_down (hi : Z) (decs : list Z) : Prop :=
  match decs with
  | [] => True
  | d :: rest => d <= hi /\ gapped_down (d - 2) rest
  end.

(** Whether two digits 1 stand side by side in a string, the radix point
    left out; [after_one] tells whether the digit before the string is a
    1. *)
Fixpoint adjacent_ones (s : jsstring) (after_one : bool) : bool :=
  match s with
  | [] => false
  | ch :: rest =>
      if Ascii.eqb ch "."%char then adjacent_ones rest after_one
      else if Ascii.eqb ch "1"%char then after_one || adjacent_ones rest true
      else adjacent_ones rest false
  end.

(** What holds of the variables of [encode] whenever [reduceN] is called
    with the powers at the exponent [k], for a number strictly between the
    powers at [top] and [top + 1]: the number left is below the power at
    [b], the exponents stored are above [b] and two apart, and the first
    one stored is [top]. *)
Record spacing (v : BasePhi.vars) (k b top : Z) : Prop :=
  { sp_n : 0 <= BasePhi.n v < phi_power b;
    sp_k : lowest <= k;
    sp_b : lowest <= b <= k + 1;
    sp_exps : gapped_up (Z.max (b + 1) 0) (BasePhi.exponents v);
    sp_decs : gapped_down (-1) (BasePhi.decExponents v);
    sp_above : forall d, In d (BasePhi.decExponents v) -> b + 1 <= d;
    sp_cross : forall e d,
        In e (BasePhi.exponents v) -> In d (BasePhi.decExponents v) -> d + 2 <= e;
    sp_top : (BasePhi.exponents v = [] /\ b = k + 1 /\ k = top
              /\ 0 <= top /\ phi_power top <= BasePhi.n v)
             \/ exists rest, BasePhi.exponents v = rest ++ [top] }.

(** What holds when [reduceN] has returned. *)
Record spaced (v : BasePhi.vars) (top : Z) : Prop :=
  { fin_gapped_up : gapped_up 0 (BasePhi.exponents v);
    fin_gapped_down : gapped_down (-1) (BasePhi.decExponents v);
    fin_cross : forall e d,
        In e (BasePhi.exponents v) -> In d (BasePhi.decExponents v) -> d + 2 <= e;
    fin_top : exists rest, BasePhi.exponents v = rest ++ [top] }.

(** * Properties *)

(** ** Reading results *)

Lemma bind_Ok {A B : Type} (m : result A) (k : A -> result B) (b : B) :
  bind m k = Ok b -> exists a, m = Ok a /\ k a = Ok b.
Proof.
  destruct m as [a| |]; simpl; intros H; try discriminate.
  exists a; split; [reflexivity | exact H].
Qed.

Ltac bind_inv H :=
  let a := fresh "a" in
  let Ha := fresh "Ha" in
  apply bind_Ok in H; destruct H as [a [Ha H]].

(** ** Padding accounting *)




(** ** Block sizes *)

Lemma search_bsEnc_ext (f g : float -> float) (radix bsDecPre : Z) :
  f (Number_of_Z 2) = g (Number_of_Z 2) ->
  f (Number_of_Z radix) = g (Number_of_Z radix) ->
  forall fuel bsEnc,
    BaseConverter.search_bsEnc f fuel radix bsDecPre bsEnc
    = BaseConverter.search_bsEnc g fuel radix bsDecPre bsEnc.
Proof.
  intros H2 Hr fuel.
  induction fuel as [|fuel IH]; intros bsEnc; simpl;
    unfold BaseConverter.digits_per_bytes; rewrite H2, Hr;
    destruct (PrimFloat.ltb _ _); auto.
Qed.

Lemma guessBS_ext (f g : float -> float) (radix : Z) :
  f (Number_of_Z 2) = g (Number_of_Z 2) ->
  f (Number_of_Z radix) = g (Number_of_Z radix) ->
  BaseConverter.guessBS f radix = BaseConverter.guessBS g radix.
Proof.
  intros H2 Hr. unfold BaseConverter.guessBS.
  destruct (BaseConverter.reduce_by_8 _ _) as [pre| |]; simpl; auto.
  rewrite (search_bsEnc_ext f g radix pre H2 Hr).
  destruct (BaseConverter.search_bsEnc g _ _ _ _) as [e| |]; simpl; auto.
  unfold BaseConverter.digits_per_bytes. rewrite H2, Hr. reflexivity.
Qed.

(** C3, as stated, fails for radix 10: [guessBS(10)] is (11, 27), and not
    the pair of zeros that stands for one block of any length. *)
Lemma C3_guessBS_10_as_stated_fails :
  BaseConverter.guessBS Math_log_reference 10 = Ok (11, Finite 27)
  /\ BaseConverter.guessBS Math_log_reference 10 <> Ok (0, Finite 0).
Proof.
  split; [vm_compute; reflexivity | vm_compute; discriminate].
Qed.

(** C3, amended: with the engine's [Math.log] (its values at 2, 10 and 16
    the nearest doubles), [guessBS] returns (1, 2) for radix 16, (1, 8) for
    radix 2 and (11, 27) for radix 10. The block sizes (0, 0), which make
    the whole input one block, are not guessed: they come from a
    constructor that is given them, as in [new BaseConverter(10, 0, 0)];
    without them the constructor of radix 10 takes the guess. *)
Theorem C3_guessBS (Math_log : float -> float) :
  Math_log (Number_of_Z 2) = Math_log_reference (Number_of_Z 2) ->
  Math_log (Number_of_Z 10) = Math_log_reference (Number_of_Z 10) ->
  Math_log (Number_of_Z 16) = Math_log_reference (Number_of_Z 16) ->
  BaseConverter.guessBS Math_log 16 = Ok (1, Finite 2)
  /\ BaseConverter.guessBS Math_log 2 = Ok (1, Finite 8)
  /\ BaseConverter.guessBS Math_log 10 = Ok (11, Finite 27)
  /\ BaseConverter.constructor Math_log 10 (Some 0) (Some 0) 0
     = Ok (Some (BaseConverter.new 10 0 0 0))
  /\ BaseConverter.constructor Math_log 10 None None 0
     = Ok (Some (BaseConverter.new 10 11 27 0)).
Proof.
  intros H2 H10 H16.
  assert (G16 : BaseConverter.guessBS Math_log 16 = Ok (1, Finite 2)).
  { rewrite (guessBS_ext Math_log Math_log_reference 16 H2 H16).
    vm_compute; reflexivity. }
  assert (G2 : BaseConverter.guessBS Math_log 2 = Ok (1, Finite 8)).
  { rewrite (guessBS_ext Math_log Math_log_reference 2 H2 H2).
    vm_compute; reflexivity. }
  assert (G10 : BaseConverter.guessBS Math_log 10 = Ok (11, Finite 27)).
  { rewrite (guessBS_ext Math_log Math_log_reference 10 H2 H10).
    vm_compute; reflexivity. }
  repeat split; auto.
  unfold BaseConverter.constructor. rewrite G10. reflexivity.
Qed.

Lemma C3_guessBS_witness :
  BaseConverter.guessBS Math_log_reference 16 = Ok (1, Finite 2)
  /\ BaseConverter.guessBS Math_log_reference 2 = Ok (1, Finite 8)
  /\ BaseConverter.guessBS Math_log_reference 10 = Ok (11, Finite 27)
  /\ BaseConverter.constructor Math_log_reference 10 (Some 0) (Some 0) 0
     = Ok (Some (BaseConverter.new 10 0 0 0))
  /\ BaseConverter.constructor Math_log_reference 10 None None 0
     = Ok (Some (BaseConverter.new 10 11 27 0)).
Proof.
  apply (C3_guessBS Math_log_reference); reflexivity.
Defined.

(** ** The input of [encode] *)

(** C4, as stated, fails for little endian: after [encode] the two bytes
    1, 2 passed to it are 2, 1. *)
Lemma C4_encode_little_endian_as_stated_fails :
  exists r after,
    BaseConverter.encode LEB128.hexlify [x01; x02] (Some LEB128.hex_charset) true None
    = Ok (r, after)
    /\ after = [x02; x01] /\ after <> [x01; x02].
Proof.
  eexists; eexists; split; [vm_compute; reflexivity | split; [reflexivity | discriminate]].
Qed.

(** C4, amended: when [encode] returns, the byte sequence passed to it is
    unchanged for big endian; for little endian it holds the same bytes in
    reverse order ([inputBytes.reverse()] works in place). *)
Theorem C4_encode_inputBytes (c : BaseConverter.t) (inputBytes : list byte)
    (charset : option jsstring) (littleEndian : bool)
    (replacer : option (jsstring -> Z -> jsstring))
    (r : jsstring * Z) (after : list byte) :
  BaseConverter.encode c inputBytes charset littleEndian replacer = Ok (r, after) ->
  after = if littleEndian then rev inputBytes else inputBytes.
Proof.
  unfold BaseConverter.encode. intros H.
  bind_inv H.
  destruct (BaseConverter.radix c =? 10); bind_inv H; inversion H; reflexivity.
Qed.

Lemma C4_encode_inputBytes_witness :
  [x01; x02] = (if false then rev [x01; x02] else [x01; x02])
  /\ [x02; x01] = (if true then rev [x01; x02] else [x01; x02]).
Proof.
  split.
  - apply (C4_encode_inputBytes LEB128.hexlify [x01; x02] (Some LEB128.hex_charset)
             false None (str "0102", 0) [x01; x02]).
    vm_compute; reflexivity.
  - apply (C4_encode_inputBytes LEB128.hexlify [x01; x02] (Some LEB128.hex_charset)
             true None (str "0201", 0) [x02; x01]).
    vm_compute; reflexivity.
Defined.

(** ** Characters outside the charset *)

Lemma indexOf_not_In (charset : jsstring) (c : ascii) :
  ~ In c charset -> indexOf charset c = -1.
Proof.
  induction charset as [|x rest IH]; simpl; intros H; [reflexivity|].
  destruct (Ascii.eqb_spec x c) as [E|_]; [exfalso; apply H; left; exact E|].
  rewrite IH by (intros Hin; apply H; right; exact Hin). reflexivity.
Qed.

Lemma known_digits_inserted (c : BaseConverter.t) (charset s s' : jsstring) :
  inserted charset s s' ->
  BaseConverter.known_digits charset s' = BaseConverter.known_digits charset s.
Proof.
  induction 1 as [|ch s s' _ IH|ch s s' Hout _ IH]; simpl.
  - reflexivity.
  - rewrite IH; reflexivity.
  - rewrite (indexOf_not_In _ _ Hout). simpl. exact IH.
Qed.

(** An input without a known character decodes like the empty string. *)
Lemma decode_no_known_digit (c : BaseConverter.t) (charset s : jsstring)
    (littleEndian : bool) :
  BaseConverter.known_digits charset s = [] ->
  BaseConverter.decode c s charset littleEndian = Ok [].
Proof.
  intros H. unfold BaseConverter.decode.
  destruct s as [|a s]; [reflexivity|].
  rewrite H. unfold BaseConverter.decode_digits.
  destruct (Z.eqb_spec (BaseConverter.bsDec c) 0) as [E|E].
  - destruct littleEndian; reflexivity.
  - change (len (@nil Z)) with 0.
    rewrite Z.rem_0_l, Z.sub_0_r, Z.rem_same by exact E.
    unfold BaseConverter.padChars, Math_ceil_div.
    destruct (Z.eqb_spec (BaseConverter.bsDec c) 0) as [E'|_]; [contradiction|].
    destruct littleEndian; reflexivity.
Qed.

Lemma decode_known_digits (c : BaseConverter.t) (charset s s' : jsstring)
    (littleEndian : bool) :
  BaseConverter.known_digits charset s' = BaseConverter.known_digits charset s ->
  BaseConverter.decode c s' charset littleEndian
  = BaseConverter.decode c s charset littleEndian.
Proof.
  intros H.
  destruct s as [|a s]; [apply decode_no_known_digit; exact H|].
  destruct s' as [|a' s'].
  - symmetry. apply decode_no_known_digit. symmetry; exact H.
  - unfold BaseConverter.decode. rewrite H. reflexivity.
Qed.

(** C8: characters that do not occur in the charset are skipped. Whatever
    the converter, the charset and the byte order, a string decodes as the
    string it was made from by putting such characters in (to the same
    bytes, the same error, or neither returns). *)
Theorem C8_decode_skips_unknown (c : BaseConverter.t) (charset s s' : jsstring)
    (littleEndian : bool) :
  inserted charset s s' ->
  BaseConverter.decode c s' charset littleEndian
  = BaseConverter.decode c s charset littleEndian.
Proof.
  intros H. apply decode_known_digits. apply (known_digits_inserted c). exact H.
Qed.

Lemma C8_decode_skips_unknown_witness :
  BaseConverter.decode LEB128.hexlify (str "01 02-ff") LEB128.hex_charset false
  = BaseConverter.decode LEB128.hexlify (str "0102ff") LEB128.hex_charset false.
Proof.
  apply (C8_decode_skips_unknown LEB128.hexlify LEB128.hex_charset
           (str "0102ff") (str "01 02-ff") false).
  assert (Hout : forall ch, In ch (str " -") -> ~ In ch LEB128.hex_charset).
  { intros ch [E|[E|[]]]; subst ch; intros Hin;
      repeat (destruct Hin as [E|Hin]; [discriminate E|]); exact Hin. }
  repeat first
    [ apply inserted_nil
    | apply inserted_same
    | apply inserted_here; [apply Hout; simpl; tauto|] ].
Defined.

(** ** Positional notation *)

Lemma len_nil {A : Type} : len (@nil A) = 0.
Proof. reflexivity. Qed.

Lemma len_cons {A : Type} (x : A) (l : list A) : len (x :: l) = len l + 1.
Proof. unfold len. simpl List.length. lia. Qed.

Lemma len_app {A : Type} (l l' : list A) : len (l ++ l') = len l + len l'.
Proof. unfold len. rewrite length_app. lia. Qed.

Lemma len_nonneg {A : Type} (l : list A) : 0 <= len l.
Proof. unfold len. lia. Qed.

Lemma len_repeat {A : Type} (x : A) (k : nat) : len (repeat x k) = Z.of_nat k.
Proof. unfold len. rewrite repeat_length. reflexivity. Qed.

Lemma len_rev {A : Type} (l : list A) : len (rev l) = len l.
Proof. unfold len. rewrite length_rev. reflexivity. Qed.

Lemma len_map {A B : Type} (f : A -> B) (l : list A) : len (map f l) = len l.
Proof. unfold len. rewrite length_map. reflexivity. Qed.

Lemma horner_app (r : Z) (ds es : list Z) (acc : Z) :
  horner r (ds ++ es) acc = horner r es (horner r ds acc).
Proof. unfold horner. apply fold_left_app. Qed.

Lemma horner_acc (r : Z) (ds : list Z) :
  forall acc, horner r ds acc = acc * r ^ len ds + horner r ds 0.
Proof.
  induction ds as [|d ds IH]; intros acc.
  - change (len (@nil Z)) with 0. simpl. lia.
  - change (horner r (d :: ds) acc) with (horner r ds (acc * r + d)).
    change (horner r (d :: ds) 0) with (horner r ds (0 * r + d)).
    rewrite (IH (acc * r + d)), (IH (0 * r + d)), len_cons.
    rewrite Z.pow_add_r by (pose proof (len_nonneg ds); lia). lia.
Qed.

Lemma horner_bounds (r : Z) (ds : list Z) :
  0 < r -> digits_in r ds -> 0 <= horner r ds 0 < r ^ len ds.
Proof.
  intros Hr. induction 1 as [|d ds Hd _ IH].
  - change (len (@nil Z)) with 0. simpl. lia.
  - change (horner r (d :: ds) 0) with (horner r ds (0 * r + d)).
    rewrite horner_acc, len_cons, Z.pow_add_r by (pose proof (len_nonneg ds); lia).
    assert (0 < r ^ len ds) by (apply Z.pow_pos_nonneg; [lia | apply len_nonneg]).
    nia.
Qed.

Lemma horner_zeros (r : Z) (k : nat) (ds : list Z) :
  horner r (repeat 0 k ++ ds) 0 = horner r ds 0.
Proof.
  induction k as [|k IH]; simpl; [reflexivity|].
  change (horner r (0 :: repeat 0 k ++ ds) 0) with (horner r (repeat 0 k ++ ds) (0 * r + 0)).
  exact IH.
Qed.

Lemma horner_inj (r : Z) :
  0 < r ->
  forall ds es, digits_in r ds -> digits_in r es ->
    List.length ds = List.length es -> horner r ds 0 = horner r es 0 -> ds = es.
Proof.
  intros Hr ds. induction ds as [|d ds IH]; intros [|e es] Hds Hes Hlen Hval;
    try discriminate; [reflexivity|].
  inversion Hds as [|? ? Hd Hds']; inversion Hes as [|? ? He Hes']; subst.
  change (horner r (d :: ds) 0) with (horner r ds (0 * r + d)) in Hval.
  change (horner r (e :: es) 0) with (horner r es (0 * r + e)) in Hval.
  rewrite (horner_acc r ds), (horner_acc r es) in Hval.
  assert (Hl : len ds = len es) by (unfold len; simpl in Hlen; lia).
  rewrite Hl in Hval.
  pose proof (horner_bounds r ds Hr Hds') as Bd.
  pose proof (horner_bounds r es Hr Hes') as Be.
  rewrite Hl in Bd.
  assert (0 < r ^ len es) by (apply Z.pow_pos_nonneg; [lia | apply len_nonneg]).
  assert (d = e) by nia.
  subst e. f_equal. apply IH; auto. lia.
Qed.

(** The digits that [divmod_loop] unshifts: in range, of the right value,
    no more than the number needs, without a leading zero. *)
Lemma divmod_loop_spec (r : Z) :
  2 <= r ->
  forall fuel q acc,
    0 <= q < 2 ^ Z.of_nat fuel ->
    exists ds,
      BaseConverter.divmod_loop fuel r q acc = Ok (ds ++ acc)
      /\ digits_in r ds
      /\ horner r ds 0 = q
      /\ (forall k, 0 <= k -> q < r ^ (k + 1) -> len ds <= k + 1)
      /\ (ds = [0] /\ q = 0 \/ 0 < hd 0 ds).
Proof.
  intros Hr fuel. induction fuel as [|fuel IH]; intros q acc Hq.
  - assert (q = 0) by (simpl in Hq; lia). subst q.
    simpl. destruct (Z.leb_spec r 0); [lia|].
    exists [0]. split; [reflexivity|]. split; [|split; [reflexivity|split]].
    + constructor; [lia | constructor].
    + intros k Hk _. rewrite len_cons; change (len (@nil Z)) with 0; lia.
    + left; auto.
  - simpl BaseConverter.divmod_loop.
    destruct (Z.leb_spec r q) as [Hge|Hlt].
    + destruct (Z.eqb_spec r 0); [lia|].
      pose proof (Z.quot_rem' q r) as Hqr.
      assert (Hrem : 0 <= Z.rem q r < r) by (apply Z.rem_bound_pos; lia).
      assert (Hquot : 0 < Z.quot q r) by (apply Z.quot_str_pos; lia).
      assert (Hsmall : Z.quot q r < 2 ^ Z.of_nat fuel).
      { rewrite Nat2Z.inj_succ, Z.pow_succ_r in Hq by lia. nia. }
      destruct (IH (Z.quot q r) (Z.rem q r :: acc) (conj (Z.lt_le_incl _ _ Hquot) Hsmall))
        as [ds [Hrun [Hin [Hval [Hlen Hhd]]]]].
      exists (ds ++ [Z.rem q r]). split; [|split; [|split; [|split]]].
      * rewrite Hrun, <- app_assoc. reflexivity.
      * apply Forall_app; split; [exact Hin | constructor; [exact Hrem | constructor]].
      * rewrite horner_app. change (horner r [Z.rem q r] (horner r ds 0))
          with (horner r ds 0 * r + Z.rem q r). rewrite Hval. lia.
      * intros k Hk Hb. rewrite len_app, len_cons; change (len (@nil Z)) with 0.
        assert (1 <= k).
        { destruct (Z.eq_dec k 0) as [->|]; [simpl in Hb; lia | lia]. }
        specialize (Hlen (k - 1) ltac:(lia)).
        replace (k - 1 + 1) with k in Hlen by lia.
        rewrite Z.pow_add_r in Hb by lia.
        assert (Z.quot q r < r ^ k) by (rewrite Z.pow_1_r in Hb; nia).
        lia.
      * right. destruct Hhd as [[_ H0]|Hhd]; [lia|].
        destruct ds; [simpl in Hhd; lia | exact Hhd].
    + exists [q]. split; [reflexivity|]. split; [|split; [reflexivity|split]].
      * constructor; [lia | constructor].
      * intros k Hk _. rewrite len_cons; change (len (@nil Z)) with 0; lia.
      * destruct (Z.eq_dec q 0) as [->|]; [left; auto | right; simpl; lia].
Qed.

Lemma to_digits_spec (r n : Z) :
  2 <= r -> 0 <= n ->
  exists ds,
    BaseConverter.to_digits r n = Ok ds
    /\ digits_in r ds
    /\ horner r ds 0 = n
    /\ (forall k, 0 <= k -> n < r ^ (k + 1) -> len ds <= k + 1)
    /\ (ds = [0] /\ n = 0 \/ 0 < hd 0 ds).
Proof.
  intros Hr Hn. unfold BaseConverter.to_digits.
  destruct (divmod_loop_spec r Hr (S (Z.to_nat (Z.log2 n))) n []) as [ds H].
  - split; [exact Hn|].
    rewrite Nat2Z.inj_succ, Z2Nat.id by apply Z.log2_nonneg.
    destruct (Z.eq_dec n 0) as [->|]; [simpl; lia|].
    apply Z.log2_spec. lia.
  - exists ds. rewrite app_nil_r in H. exact H.
Qed.

(** ** Bytes *)

Lemma u8_to_Z_range (b : byte) : 0 <= u8_to_Z b < 256.
Proof. unfold u8_to_Z. pose proof (Byte.to_N_bounded b). lia. Qed.

Lemma Z_to_u8_to_Z (b : byte) : Z_to_u8 (u8_to_Z b) = b.
Proof.
  unfold Z_to_u8. rewrite Z.mod_small by apply u8_to_Z_range.
  unfold u8_to_Z. rewrite N2Z.id, Byte.of_to_N. reflexivity.
Qed.

Lemma u8_to_Z_to_u8 (z : Z) : 0 <= z < 256 -> u8_to_Z (Z_to_u8 z) = z.
Proof.
  intros Hz. unfold Z_to_u8, u8_to_Z. rewrite Z.mod_small by exact Hz.
  destruct (Byte.of_N (Z.to_N z)) as [b|] eqn:E.
  - apply Byte.to_of_N in E. rewrite E. lia.
  - apply Byte.of_N_None_iff in E. lia.
Qed.

Lemma u8_to_Z_inj (b b' : byte) : u8_to_Z b = u8_to_Z b' -> b = b'.
Proof.
  intros H. rewrite <- (Z_to_u8_to_Z b), <- (Z_to_u8_to_Z b'), H. reflexivity.
Qed.

Lemma map_u8_to_Z_from (a : list Z) :
  Forall (fun x => 0 <= x < 256) a -> map u8_to_Z (Uint8Array_from a) = a.
Proof.
  unfold Uint8Array_from. induction 1 as [|x a Hx _ IH]; simpl; [reflexivity|].
  rewrite u8_to_Z_to_u8, IH by exact Hx. reflexivity.
Qed.

Lemma Uint8Array_from_map (b : list byte) : Uint8Array_from (map u8_to_Z b) = b.
Proof.
  unfold Uint8Array_from. induction b as [|x b IH]; simpl; [reflexivity|].
  rewrite Z_to_u8_to_Z, IH. reflexivity.
Qed.

Lemma bytes_in_range (b : list byte) : digits_in 256 (map u8_to_Z b).
Proof.
  induction b as [|x b IH]; simpl; constructor; [apply u8_to_Z_range | exact IH].
Qed.

Lemma le_value_cons (b : byte) (l : list byte) :
  le_value (b :: l) = u8_to_Z b + 256 * le_value l.
Proof. reflexivity. Qed.

Lemma horner_rev_le_value (bytes : list byte) :
  horner 256 (map u8_to_Z (rev bytes)) 0 = le_value bytes.
Proof.
  induction bytes as [|b bytes IH]; [reflexivity|].
  change (rev (b :: bytes)) with (rev bytes ++ [b]).
  rewrite map_app, horner_app, IH, le_value_cons.
  change (horner 256 (map u8_to_Z [b]) (le_value bytes))
    with (le_value bytes * 256 + u8_to_Z b).
  lia.
Qed.

Lemma le_value_app (l l' : list byte) :
  le_value (l ++ l') = le_value l + 256 ^ len l * le_value l'.
Proof.
  induction l as [|b l IH].
  - change (len (@nil byte)) with 0. change (le_value []) with 0.
    rewrite Z.pow_0_r. cbn [app]. lia.
  - cbn [app]. rewrite !le_value_cons, IH, len_cons,
      Z.pow_add_r by (pose proof (len_nonneg l); lia). lia.
Qed.

Lemma le_value_bounds (l : list byte) : 0 <= le_value l < 256 ^ len l.
Proof.
  induction l as [|b l IH].
  - change (len (@nil byte)) with 0. change (le_value []) with 0.
    rewrite Z.pow_0_r. lia.
  - rewrite le_value_cons, len_cons, Z.pow_add_r by (pose proof (len_nonneg l); lia).
    pose proof (u8_to_Z_range b). lia.
Qed.

(** ** Reading arrays *)

Lemma item_app {A : Type} (pre : list A) (x : A) (rest : list A) :
  item (pre ++ x :: rest) (len pre) = Some x.
Proof.
  unfold item, len. destruct (Z.ltb_spec (Z.of_nat (List.length pre)) 0); [lia|].
  rewrite Nat2Z.id, nth_error_app2, Nat.sub_diag by lia. reflexivity.
Qed.

Lemma read_bytes_horner (bl : list Z) :
  forall pre post n,
    BaseConverter.read_bytes (List.length bl) (pre ++ bl ++ post) (len pre) n
    = Ok (horner 256 bl n).
Proof.
  induction bl as [|b bl IH]; intros pre post n; [reflexivity|].
  change (List.length (b :: bl)) with (S (List.length bl)).
  change ((b :: bl) ++ post) with (b :: (bl ++ post)).
  cbn [BaseConverter.read_bytes]. rewrite item_app. cbn [bind BigInt_of_item].
  replace (pre ++ b :: bl ++ post) with ((pre ++ [b]) ++ bl ++ post)
    by (rewrite <- app_assoc; reflexivity).
  replace (len pre + 1) with (len (pre ++ [b]))
    by (rewrite len_app, len_cons; reflexivity).
  rewrite IH. rewrite Z.shiftl_mul_pow2 by lia. reflexivity.
Qed.

Lemma read_bytes_all (bl : list Z) :
  BaseConverter.read_bytes (Z.to_nat (len bl)) bl 0 0 = Ok (horner 256 bl 0).
Proof.
  unfold len. rewrite Nat2Z.id.
  pose proof (read_bytes_horner bl [] [] 0) as H.
  simpl in H. rewrite app_nil_r in H. exact H.
Qed.

(** ** Digits and characters *)

Lemma indexOf_nth_error (cs : jsstring) :
  NoDup cs ->
  forall k c, nth_error cs k = Some c -> indexOf cs c = Z.of_nat k.
Proof.
  induction 1 as [|x cs Hx _ IH]; intros k c Hk.
  - destruct k; discriminate.
  - destruct k as [|k]; simpl in Hk.
    + inversion Hk; subst. simpl. rewrite Ascii.eqb_refl. reflexivity.
    + simpl indexOf. destruct (Ascii.eqb_spec x c) as [E|_].
      * subst. exfalso. apply Hx. eapply nth_error_In; eauto.
      * rewrite (IH k c Hk). destruct (Z.ltb_spec (Z.of_nat k) 0); lia.
Qed.

Lemma char_at_digit (cs : jsstring) (d : Z) :
  0 <= d < len cs -> exists c, nth_error cs (Z.to_nat d) = Some c /\ char_at cs d = [c].
Proof.
  intros Hd. unfold char_at, item. destruct (Z.ltb_spec d 0); [lia|].
  destruct (nth_error cs (Z.to_nat d)) as [c|] eqn:E.
  - exists c. split; reflexivity.
  - apply nth_error_None in E. unfold len in Hd. lia.
Qed.

Lemma known_digits_chars (cs : jsstring) (ds : list Z) :
  NoDup cs -> digits_in (len cs) ds ->
  BaseConverter.known_digits cs (flat_map (char_at cs) ds) = ds.
Proof.
  intros Hcs. induction 1 as [|d ds Hd _ IH]; [reflexivity|].
  destruct (char_at_digit cs d Hd) as [c [Hn Hc]].
  cbn [flat_map]. rewrite Hc. cbn [app BaseConverter.known_digits flat_map].
  rewrite (indexOf_nth_error cs Hcs _ _ Hn), Z2Nat.id by lia.
  destruct (Z.ltb_spec (-1) d); [|lia].
  cbn [app]. f_equal. exact IH.
Qed.

Lemma NoDup_decimal_digits : NoDup BaseConverter.decimal_digits.
Proof.
  unfold BaseConverter.decimal_digits. simpl.
  repeat (constructor; [simpl; intros H; repeat (destruct H as [H|H]; [discriminate H|]); exact H|]).
  constructor.
Qed.

Lemma parse_decimal_digits (ds : list Z) :
  digits_in 10 ds ->
  forall n, BaseConverter.parse_decimal
              (flat_map (char_at BaseConverter.decimal_digits) ds) n
            = Ok (horner 10 ds n).
Proof.
  induction 1 as [|d ds Hd _ IH]; intros n; [reflexivity|].
  destruct (char_at_digit BaseConverter.decimal_digits d Hd) as [c [Hn Hc]].
  cbn [flat_map]. rewrite Hc. cbn [app BaseConverter.parse_decimal].
  rewrite (indexOf_nth_error _ NoDup_decimal_digits _ _ Hn), Z2Nat.id by lia.
  destruct (Z.ltb_spec d 0); [lia|].
  rewrite IH. change (horner 10 (d :: ds) n) with (horner 10 ds (n * 10 + d)).
  f_equal. f_equal. lia.
Qed.

Lemma BigInt_toString_nonneg (m : Z) :
  0 <= m ->
  exists ds,
    BaseConverter.to_digits 10 m = Ok ds
    /\ digits_in 10 ds /\ horner 10 ds 0 = m
    /\ (ds = [0] /\ m = 0 \/ 0 < hd 0 ds)
    /\ BaseConverter.BigInt_toString m
       = flat_map (char_at BaseConverter.decimal_digits) ds.
Proof.
  intros Hm.
  destruct (to_digits_spec 10 m ltac:(lia) Hm) as [ds [Hrun [Hin [Hval [_ Hhd]]]]].
  exists ds. repeat (split; [assumption|]).
  unfold BaseConverter.BigInt_toString.
  rewrite Z.abs_eq by exact Hm. rewrite Hrun.
  destruct (Z.ltb_spec m 0); [lia | reflexivity].
Qed.

Lemma BigInt_of_string_digit (d : Z) (s : jsstring) :
  0 <= d < 10 ->
  BaseConverter.BigInt_of_string (char_at BaseConverter.decimal_digits d ++ s)
  = BaseConverter.parse_decimal (char_at BaseConverter.decimal_digits d ++ s) 0.
Proof.
  intros Hd.
  assert (H : d = 0 \/ d = 1 \/ d = 2 \/ d = 3 \/ d = 4 \/ d = 5 \/ d = 6
              \/ d = 7 \/ d = 8 \/ d = 9) by lia.
  repeat (destruct H as [H|H]; [subst d; destruct s; reflexivity|]).
  subst d; destruct s; reflexivity.
Qed.

Lemma BigInt_of_string_toString (m : Z) :
  0 <= m -> BaseConverter.BigInt_of_string (BaseConverter.BigInt_toString m) = Ok m.
Proof.
  intros Hm.
  destruct (BigInt_toString_nonneg m Hm) as [ds [_ [Hin [Hval [Hhd Hs]]]]].
  rewrite Hs.
  assert (Hparse := parse_decimal_digits ds Hin 0). rewrite Hval in Hparse.
  destruct ds as [|d ds]; [exact Hparse|].
  inversion Hin as [|? ? Hd _]; subst.
  cbn [flat_map] in *. rewrite BigInt_of_string_digit by exact Hd. exact Hparse.
Qed.

(** ** The groups of LEB128 *)

(** A property of all numbers below a bound, by looking at each. *)
Lemma forall_below (P : Z -> bool) (k : nat) :
  forallb P (map Z.of_nat (seq 0 k)) = true ->
  forall x, 0 <= x < Z.of_nat k -> P x = true.
Proof.
  intros H x Hx. rewrite forallb_forall in H. apply H.
  apply in_map_iff. exists (Z.to_nat x). split; [lia|].
  apply in_seq. lia.
Qed.

Lemma land_127 (n : Z) : Z.land n 127 = n mod 128.
Proof. change 127 with (Z.ones 7). rewrite Z.land_ones by lia. reflexivity. Qed.

Lemma shiftr_7 (n : Z) : Z.shiftr n 7 = n / 128.
Proof. rewrite Z.shiftr_div_pow2 by lia. reflexivity. Qed.

Lemma lor_128 (b : Z) : 0 <= b < 128 -> Z.lor b 128 = b + 128.
Proof.
  intros Hb.
  apply Z.eqb_eq.
  apply (forall_below (fun b => Z.lor b 128 =? b + 128) 128); [vm_compute; reflexivity | exact Hb].
Qed.

Lemma land_64 (b : Z) : 0 <= b < 256 -> (Z.land b 64 =? 0) = negb (64 <=? b mod 128).
Proof.
  intros Hb.
  apply Bool.eqb_prop.
  apply (forall_below (fun b => Bool.eqb (Z.land b 64 =? 0) (negb (64 <=? b mod 128))) 256);
    [vm_compute; reflexivity | exact Hb].
Qed.

Lemma lor_sign_extension (n s : Z) :
  0 <= s -> 0 <= n < 2 ^ s -> Z.lor n (- Z.shiftl 1 s) = n - 2 ^ s.
Proof.
  intros Hs Hn.
  rewrite Z.shiftl_1_l.
  assert (Hland : Z.land n (- 2 ^ s) = 0).
  { apply Z.bits_inj'. intros i Hi.
    rewrite Z.land_spec, Z.bits_0.
    destruct (Z.lt_ge_cases i s) as [Hlt|Hge].
    - replace (- 2 ^ s) with (Z.shiftl (-1) s)
        by (rewrite Z.shiftl_mul_pow2 by lia; lia).
      rewrite (Z.shiftl_spec_low _ _ _ Hlt). apply andb_false_r.
    - destruct (Z.eq_dec n 0) as [->|Hn0]; [rewrite Z.bits_0; reflexivity|].
      rewrite (Z.bits_above_log2 n i); [reflexivity | lia |].
      apply Z.log2_lt_pow2; [lia|].
      apply Z.lt_le_trans with (2 ^ s); [lia|].
      apply Z.pow_le_mono_r; lia. }
  rewrite <- (Z.lxor_lor _ _ Hland), <- (Z.add_nocarry_lxor _ _ Hland). lia.
Qed.

Lemma groups_value_cons (x : Z) (out : list Z) :
  groups_value (x :: out) = Z.land x 127 + 128 * groups_value out.
Proof. reflexivity. Qed.

Lemma groups_value_bounds (out : list Z) : 0 <= groups_value out < 128 ^ len out.
Proof.
  induction out as [|x out IH].
  - change (len (@nil Z)) with 0. change (groups_value []) with 0. rewrite Z.pow_0_r. lia.
  - rewrite groups_value_cons, land_127, len_cons,
      Z.pow_add_r by (pose proof (len_nonneg out); lia).
    pose proof (Z.mod_pos_bound x 128). lia.
Qed.

Lemma terminated_range (out : list Z) :
  terminated out -> Forall (fun x => 0 <= x < 256) out.
Proof.
  induction out as [|x [|y out] IH]; simpl; intros H.
  - constructor.
  - constructor; [lia | constructor].
  - destruct H as [Hx H]. constructor; [lia | apply IH; exact H].
Qed.

Lemma terminated_inj (out out' : list Z) :
  terminated out -> terminated out' ->
  List.length out = List.length out' ->
  groups_value out = groups_value out' ->
  out = out'.
Proof.
  revert out'. induction out as [|x out IH]; intros [|x' out'] H H' Hlen Hval;
    try discriminate; [reflexivity|].
  rewrite !groups_value_cons, !land_127 in Hval.
  pose proof (groups_value_bounds out) as B.
  pose proof (groups_value_bounds out') as B'.
  destruct out as [|y out]; destruct out' as [|y' out']; try discriminate.
  - simpl in H, H'. rewrite !Z.mod_small in Hval by lia.
    change (groups_value []) with 0 in Hval. f_equal. lia.
  - destruct H as [Hx H]; destruct H' as [Hx' H'].
    assert (Hm : forall z, 128 <= z < 256 -> z mod 128 = z - 128).
    { intros z Hz. symmetry. apply (Z.mod_unique z 128 1); lia. }
    rewrite (Hm x Hx), (Hm x' Hx') in Hval.
    assert (groups_value (y :: out) = groups_value (y' :: out')) by lia.
    f_equal; [lia|]. apply IH; auto.
Qed.

(** The unsigned loop returns the shortest terminated sequence of its
    number. *)
Lemma unsigned_loop_spec (fuel : nat) :
  forall n, 0 <= n < 2 ^ Z.of_nat fuel ->
    exists out,
      LEB128.unsigned_loop fuel n = Ok out
      /\ terminated out
      /\ groups_value out = n
      /\ (len out = 1 \/ 128 ^ (len out - 1) <= n).
Proof.
  induction fuel as [|fuel IH]; intros n Hn.
  - assert (n = 0) by (simpl in Hn; lia). subst n.
    exists [0]. split; [reflexivity|]. split; [simpl; lia|].
    split; [reflexivity | left; reflexivity].
  - cbn [LEB128.unsigned_loop]. rewrite shiftr_7, land_127.
    pose proof (Z.mod_pos_bound n 128 ltac:(lia)) as Hm.
    pose proof (Z.div_mod n 128 ltac:(lia)) as Hd.
    destruct (Z.eqb_spec (n / 128) 0) as [E|E].
    + exists [n mod 128]. split; [reflexivity|]. split; [simpl; lia|].
      split; [|left; reflexivity].
      rewrite groups_value_cons, land_127, Z.mod_mod by lia.
      change (groups_value []) with 0. lia.
    + assert (Hq : 0 <= n / 128 < 2 ^ Z.of_nat fuel).
      { split; [apply Z.div_pos; lia|].
        apply Z.div_lt_upper_bound; [lia|].
        rewrite Nat2Z.inj_succ, Z.pow_succ_r in Hn by lia. lia. }
      destruct (IH (n / 128) Hq) as [out [Hrun [Hterm [Hval Hmin]]]].
      rewrite Hrun. cbn [bind]. rewrite lor_128 by lia.
      exists (n mod 128 + 128 :: out).
      split; [reflexivity|]. split; [|split].
      * destruct out as [|y out]; [destruct Hterm|].
        split; [lia | exact Hterm].
      * rewrite groups_value_cons, land_127, Hval.
        replace ((n mod 128 + 128) mod 128) with (n mod 128); [lia|].
        apply Z.mod_unique with (q := 1); lia.
      * right. rewrite len_cons. replace (len out + 1 - 1) with (len out) by lia.
        assert (0 < n / 128) by lia.
        destruct Hmin as [H1|Hmin]; [rewrite H1; lia|].
        replace (len out) with (len out - 1 + 1) by lia.
        rewrite Z.pow_add_r, Z.pow_1_r; [lia | |lia].
        destruct out; [destruct Hterm | rewrite len_cons; pose proof (len_nonneg out); lia].
Qed.

Lemma signed_value_cons (x y : Z) (out : list Z) :
  0 <= x < 128 ->
  signed_value (x + 128 :: y :: out) = x + 128 * signed_value (y :: out).
Proof.
  intros Hx. unfold signed_value.
  change (last (x + 128 :: y :: out) 0) with (last (y :: out) 0).
  rewrite groups_value_cons, land_127, (len_cons (x + 128)).
  rewrite Z.pow_add_r, Z.pow_1_r by (pose proof (len_nonneg (y :: out)); lia).
  replace ((x + 128) mod 128) with x by (apply Z.mod_unique with (q := 1); lia).
  destruct (Z.land (last (y :: out) 0) 64 =? 0); lia.
Qed.

(** The signed loop returns a terminated sequence that stands for its
    number. *)
Lemma signed_loop_spec (fuel : nat) :
  forall n, - 2 ^ Z.of_nat fuel <= n < 2 ^ Z.of_nat fuel ->
    exists out,
      LEB128.signed_loop fuel n = Ok out
      /\ terminated out
      /\ signed_value out = n.
Proof.
  induction fuel as [|fuel IH]; intros n Hn.
  - assert (H : n = 0 \/ n = -1) by (simpl in Hn; lia).
    destruct H as [-> | ->].
    + exists [0]. split; [reflexivity|]. split; [simpl; lia | reflexivity].
    + exists [127]. split; [reflexivity|]. split; [simpl; lia | reflexivity].
  - cbn [LEB128.signed_loop]. rewrite shiftr_7, land_127.
    pose proof (Z.mod_pos_bound n 128 ltac:(lia)) as Hm.
    pose proof (Z.div_mod n 128 ltac:(lia)) as Hd.
    rewrite (land_64 (n mod 128)) by lia.
    rewrite (Z.mod_small (n mod 128) 128) by lia.
    assert (Hstop : forall cond, cond = true ->
              (n / 128 = 0 /\ n mod 128 < 64 \/ n / 128 = -1 /\ 64 <= n mod 128) ->
              exists out, (if cond then Ok [n mod 128]
                           else bind (LEB128.signed_loop fuel (n / 128))
                                  (fun output => Ok (Z.lor (n mod 128) 128 :: output)))
                          = Ok out
                          /\ terminated out /\ signed_value out = n).
    { intros cond -> Hc. exists [n mod 128]. split; [reflexivity|].
      split; [simpl; lia|].
      unfold signed_value. change (last [n mod 128] 0) with (n mod 128).
      rewrite (land_64 (n mod 128)) by lia.
      rewrite (Z.mod_small (n mod 128) 128) by lia.
      rewrite groups_value_cons, land_127, Z.mod_mod by lia.
      change (groups_value []) with 0. change (len [n mod 128]) with 1.
      destruct (Z.leb_spec 64 (n mod 128)); simpl negb; cbn match; lia. }
    destruct (Z.eqb_spec (n / 128) 0) as [E0|E0];
      destruct (Z.eqb_spec (n / 128) (-1)) as [E1|E1];
      destruct (Z.leb_spec 64 (n mod 128)) as [H64|H64];
      cbn [negb andb orb];
      try (apply (Hstop true eq_refl); lia).
    all: assert (Hq : - 2 ^ Z.of_nat fuel <= n / 128 < 2 ^ Z.of_nat fuel)
        by (rewrite Nat2Z.inj_succ, Z.pow_succ_r in Hn by lia;
            split; [apply Z.div_le_lower_bound; lia
                   | apply Z.div_lt_upper_bound; lia]).
    all: destruct (IH (n / 128) Hq) as [out [Hrun [Hterm Hval]]].
    all: rewrite Hrun; cbn [bind]; rewrite lor_128 by lia.
    all: exists (n mod 128 + 128 :: out); split; [reflexivity|].
    all: destruct out as [|y out]; [destruct Hterm|].
    all: split; [split; [lia | exact Hterm]|].
    all: rewrite signed_value_cons, Hval by lia; lia.
Qed.

Lemma accumulate_spec (input : list byte) :
  forall n s byte, 0 <= s + 7 ->
    LEB128.accumulate input n s byte
    = (n + 2 ^ (s + 7) * groups_value (map u8_to_Z input),
       s + 7 * len input,
       match input with
       | [] => byte
       | _ => Some (last (map u8_to_Z input) 0)
       end).
Proof.
  induction input as [|b input IH]; intros n s byte Hs.
  - change (len (@nil Byte.byte)) with 0. cbn. f_equal. f_equal; lia.
  - cbn [LEB128.accumulate]. rewrite IH by lia.
    rewrite Z.shiftl_mul_pow2 by lia.
    cbn [map]. rewrite groups_value_cons, len_cons.
    replace (s + 7 + 7) with (s + 7 + 7 * 1) by lia.
    rewrite (Z.pow_add_r 2 (s + 7)) by lia.
    f_equal; [f_equal; [change (2 ^ (7 * 1)) with 128; lia | lia]|].
    destruct input; reflexivity.
Qed.

Lemma decode_integer_value (bs : list byte) (signed : bool) :
  LEB128.decode_integer bs signed
  = if signed then signed_value (map u8_to_Z bs) else groups_value (map u8_to_Z bs).
Proof.
  unfold LEB128.decode_integer. rewrite accumulate_spec by lia.
  change (2 ^ (-7 + 7)) with 1.
  pose proof (groups_value_bounds (map u8_to_Z bs)) as B. rewrite len_map in B.
  replace (-7 + 7 * len bs + 7) with (7 * len bs) by lia.
  unfold signed_value. rewrite len_map.
  assert (E : match match bs with [] => None | _ => Some (last (map u8_to_Z bs) 0) end with
              | Some b => b | None => 0 end = last (map u8_to_Z bs) 0)
    by (destruct bs; reflexivity).
  destruct signed; cbn [andb]; rewrite ?E.
  - destruct (Z.land (last (map u8_to_Z bs) 0) 64 =? 0); cbn [negb]; [lia|].
    rewrite lor_sign_extension.
    + rewrite Z.pow_mul_r by (pose proof (len_nonneg bs); lia). change (2 ^ 7) with 128. lia.
    + pose proof (len_nonneg bs); lia.
    + rewrite Z.pow_mul_r by (pose proof (len_nonneg bs); lia). change (2 ^ 7) with 128. lia.
  - lia.
Qed.

(** ** The input handler on integers *)

Lemma u8_to_Z_of_Z (v : Z) : u8_to_Z (Z_to_u8 v) = v mod 256.
Proof.
  replace (Z_to_u8 v) with (Z_to_u8 (v mod 256)).
  - apply u8_to_Z_to_u8. apply Z.mod_pos_bound. lia.
  - unfold Z_to_u8. rewrite Z.mod_mod by lia. reflexivity.
Qed.

Lemma len_low_bytes (w : nat) : forall v, len (SmartInput.low_bytes w v) = Z.of_nat w.
Proof.
  induction w as [|w IH]; intros v; [reflexivity|].
  cbn [SmartInput.low_bytes]. rewrite len_cons, IH. lia.
Qed.

Lemma le_value_low_bytes (w : nat) :
  forall v, le_value (SmartInput.low_bytes w v) = v mod 256 ^ Z.of_nat w.
Proof.
  induction w as [|w IH]; intros v.
  - cbn. rewrite Z.mod_1_r. reflexivity.
  - cbn [SmartInput.low_bytes]. rewrite le_value_cons, IH, u8_to_Z_of_Z.
    rewrite Z.shiftr_div_pow2 by lia. change (2 ^ 8) with 256.
    rewrite Nat2Z.inj_succ, Z.pow_succ_r by lia.
    rewrite Z.rem_mul_r; [reflexivity | lia |].
    apply Z.pow_pos_nonneg; lia.
Qed.

Lemma bytes_value_DataView_set (w : nat) (v : Z) (littleEndian : bool) :
  0 <= v < 256 ^ Z.of_nat w ->
  bytes_value littleEndian (SmartInput.DataView_set w v littleEndian) = v.
Proof.
  intros Hv. unfold bytes_value, SmartInput.DataView_set.
  destruct littleEndian; rewrite ?rev_involutive, le_value_low_bytes;
    apply Z.mod_small; exact Hv.
Qed.

Lemma numbers_spec (v : Z) (littleEndian : bool) :
  0 <= v <= SmartInput.MAX_SAFE_INTEGER ->
  exists bytes,
    SmartInput.numbers v littleEndian = Ok bytes
    /\ bytes_value littleEndian bytes = v.
Proof.
  intros Hv. unfold SmartInput.numbers.
  unfold SmartInput.MAX_SAFE_INTEGER in *.
  destruct (Z.ltb_spec v (- (2 ^ 53 - 1))); [lia|].
  destruct (Z.ltb_spec (2 ^ 53 - 1) v); [lia|]. cbn [orb].
  destruct (Z.ltb_spec v 0); [lia|].
  destruct (Z.ltb_spec 0 v).
  - destruct (Z.ltb_spec 4294967295 v); [|destruct (Z.ltb_spec 65535 v)];
      eexists; (split; [reflexivity|]); apply bytes_value_DataView_set;
      change (256 ^ Z.of_nat 8) with 18446744073709551616;
      change (256 ^ Z.of_nat 4) with 4294967296;
      change (256 ^ Z.of_nat 2) with 65536; lia.
  - eexists; split; [reflexivity|].
    replace v with 0 by lia. apply bytes_value_DataView_set.
    change (256 ^ Z.of_nat 2) with 65536; lia.
Qed.

Lemma flat_map_rev {A B : Type} (f : A -> list B) (l : list A) :
  rev (flat_map f l) = flat_map (fun x => rev (f x)) (rev l).
Proof.
  induction l as [|x l IH]; [reflexivity|].
  cbn [flat_map rev]. rewrite rev_app_distr, IH, flat_map_app. cbn [flat_map].
  rewrite app_nil_r. reflexivity.
Qed.

Lemma split64_spec (littleEndian : bool) (fuel : nat) :
  forall input acc, 0 <= input < 2 ^ Z.of_nat fuel ->
    exists words,
      SmartInput.split64 fuel (fun x => SmartInput.maxN <=? x) littleEndian input acc
      = Ok (if littleEndian then acc ++ words else rev words ++ acc)
      /\ le_value (flat_map (SmartInput.low_bytes 8) words) = input.
Proof.
  unfold SmartInput.maxN.
  induction fuel as [|fuel IH]; intros input acc Hi.
  - assert (input = 0) by (simpl in Hi; lia). subst input.
    exists [0]. split; [destruct littleEndian; reflexivity | reflexivity].
  - cbn [SmartInput.split64].
    destruct (Z.leb_spec 18446744073709551616 input) as [Hge|Hlt].
    + assert (Hq : 0 <= Z.shiftr input 64 < 2 ^ Z.of_nat fuel).
      { rewrite Z.shiftr_div_pow2 by lia.
        rewrite Nat2Z.inj_succ, Z.pow_succ_r in Hi by lia.
        split; [apply Z.div_pos; lia|].
        apply Z.div_lt_upper_bound; [lia|].
        change (2 ^ 64) with 18446744073709551616. lia. }
      destruct (IH (Z.shiftr input 64)
                  (if littleEndian then acc ++ [Z.rem input SmartInput.maxN]
                   else Z.rem input SmartInput.maxN :: acc) Hq)
        as [words [Hrun Hval]].
      exists (Z.rem input SmartInput.maxN :: words). split.
      * rewrite Hrun. destruct littleEndian.
        -- rewrite <- app_assoc. reflexivity.
        -- cbn [rev]. rewrite <- app_assoc. reflexivity.
      * cbn [flat_map]. rewrite le_value_app, len_low_bytes, le_value_low_bytes, Hval.
        rewrite Z.shiftr_div_pow2 by lia.
        unfold SmartInput.maxN.
        rewrite Z.rem_mod_nonneg by lia.
        change (256 ^ Z.of_nat 8) with 18446744073709551616.
        change (2 ^ 64) with 18446744073709551616.
        rewrite Z.mod_mod by lia.
        pose proof (Z.div_mod input 18446744073709551616 ltac:(lia)). lia.
    + exists [input]. split; [destruct littleEndian; reflexivity|].
      cbn [flat_map]. rewrite app_nil_r, le_value_low_bytes.
      change (256 ^ Z.of_nat 8) with 18446744073709551616.
      apply Z.mod_small. lia.
Qed.

Lemma bigInts_spec (v : Z) (littleEndian : bool) :
  0 <= v ->
  exists bytes,
    SmartInput.bigInts v littleEndian = Ok bytes
    /\ bytes_value littleEndian bytes = v.
Proof.
  intros Hv. unfold SmartInput.bigInts.
  destruct (Z.ltb_spec v 0); [lia|].
  destruct (split64_spec littleEndian (S (Z.to_nat (Z.log2 (Z.abs v)))) v []) as [words [Hrun Hval]].
  { split; [exact Hv|].
    rewrite Z.abs_eq, Nat2Z.inj_succ, Z2Nat.id by (try apply Z.log2_nonneg; lia).
    destruct (Z.eq_dec v 0) as [->|]; [simpl; lia|]. apply Z.log2_spec. lia. }
  rewrite Hrun. cbn [bind]. eexists. split; [reflexivity|].
  unfold bytes_value, SmartInput.DataView_set.
  destruct littleEndian.
  - cbn [app]. exact Hval.
  - rewrite app_nil_r, flat_map_rev, rev_involutive.
    erewrite flat_map_ext; [exact Hval|].
    intros w. apply rev_involutive.
Qed.

Lemma toBytes_integer (input : SmartInput.input) (v : Z) (littleEndian : bool) :
  integer_input input v ->
  exists bytes,
    SmartInput.toBytes input littleEndian true = Ok (bytes, v <? 0)
    /\ bytes_value littleEndian bytes = Z.abs v.
Proof.
  intros [->|[-> Hv]]; unfold SmartInput.toBytes; cbn [andb].
  - destruct (bigInts_spec (Z.abs v) littleEndian (Z.abs_nonneg v)) as [bytes [Hrun Hval]].
    exists bytes. split; [|exact Hval].
    destruct (Z.ltb_spec v 0).
    + replace (v * -1) with (Z.abs v) by lia. rewrite Hrun. reflexivity.
    + replace v with (Z.abs v) at 1 by lia. rewrite Hrun. reflexivity.
  - destruct (numbers_spec (Z.abs v) littleEndian ltac:(lia)) as [bytes [Hrun Hval]].
    exists bytes. split; [|exact Hval].
    destruct (Z.ltb_spec v 0).
    + replace (- v) with (Z.abs v) by lia. rewrite Hrun. reflexivity.
    + replace v with (Z.abs v) at 1 by lia. rewrite Hrun. reflexivity.
Qed.

(** The base 10 converter without blocks writes the number of all bytes. *)
Lemma encode_base10 (bytes : list byte) (littleEndian : bool) :
  BaseConverter.encode (BaseConverter.new 10 0 0 0) bytes None littleEndian None
  = Ok ((BaseConverter.BigInt_toString (bytes_value littleEndian bytes), 0),
        if littleEndian then rev bytes else bytes).
Proof.
  unfold BaseConverter.encode. cbn [BaseConverter.bsEnc BaseConverter.radix].
  change (0 =? 0) with true. cbn match.
  assert (Hz : (if len bytes =? 0 then 0
                else Z.rem (len bytes - Z.rem (len bytes) (len bytes)) (len bytes)) = 0).
  { destruct (Z.eqb_spec (len bytes) 0); [reflexivity|].
    rewrite Z.rem_same, Z.sub_0_r, Z.rem_same by assumption. reflexivity. }
  rewrite Hz. cbn [new_Array_fill Z.ltb Z.compare Z.to_nat repeat bind].
  change (10 =? 10) with true. cbn match.
  destruct littleEndian; cbn [app]; rewrite ?app_nil_r.
  - rewrite <- (len_rev bytes), <- (len_map u8_to_Z (rev bytes)).
    rewrite read_bytes_all. cbn [bind]. rewrite horner_rev_le_value. reflexivity.
  - rewrite <- (len_map u8_to_Z bytes).
    rewrite read_bytes_all. cbn [bind].
    rewrite <- (rev_involutive bytes) at 1. rewrite horner_rev_le_value. reflexivity.
Qed.

(** ** LEB128: encoding and decoding integers *)

(** [encode] on the bytes and the sign that the input handler returns. *)
Lemma encode_handled (input : SmartInput.input) (bytes : list byte)
    (negative signed : bool) (ver : LEB128.version) :
  SmartInput.toBytes input true true = Ok (bytes, negative) ->
  LEB128.encode input signed ver
  = if negative && negb signed then Throw negative_unsigned
    else
      let n := if negative then - le_value bytes else le_value bytes in
      let fuel := S (Z.to_nat (Z.log2 (Z.abs n))) in
      bind (if signed then LEB128.signed_loop fuel n else LEB128.unsigned_loop fuel n)
        (fun output =>
           match ver with
           | LEB128.hex =>
               bind (BaseConverter.encode LEB128.hexlify (Uint8Array_from output)
                       (Some LEB128.hex_charset) false None)
                 (fun hexed => Ok (LEB128.HexOutput (fst (fst hexed))))
           | LEB128.default => Ok (LEB128.Uint8Output (Uint8Array_from output))
           end).
Proof.
  intros H. unfold LEB128.encode. rewrite H. cbn [bind].
  unfold LEB128.converter. rewrite encode_base10. cbn [bind fst bytes_value].
  rewrite BigInt_of_string_toString by apply le_value_bounds. cbn [bind].
  destruct negative, signed; reflexivity.
Qed.

Lemma encode_integer (input : SmartInput.input) (v : Z) (signed : bool) :
  integer_input input v ->
  LEB128.encode input signed LEB128.default
  = if (v <? 0) && negb signed then Throw negative_unsigned
    else
      let fuel := S (Z.to_nat (Z.log2 (Z.abs v))) in
      bind (if signed then LEB128.signed_loop fuel v else LEB128.unsigned_loop fuel v)
        (fun output => Ok (LEB128.Uint8Output (Uint8Array_from output))).
Proof.
  intros Hin.
  destruct (toBytes_integer input v true Hin) as [bytes [Hrun Hval]].
  rewrite (encode_handled input bytes (v <? 0) signed LEB128.default Hrun).
  cbn [bytes_value] in Hval. rewrite Hval. cbv zeta.
  destruct (Z.ltb_spec v 0).
  - replace (- Z.abs v) with v by lia. reflexivity.
  - rewrite !(Z.abs_eq v) by lia. reflexivity.
Qed.

Lemma fuel_bound (v : Z) :
  - 2 ^ Z.of_nat (S (Z.to_nat (Z.log2 (Z.abs v)))) <= v
  < 2 ^ Z.of_nat (S (Z.to_nat (Z.log2 (Z.abs v)))).
Proof.
  rewrite Nat2Z.inj_succ, Z2Nat.id by apply Z.log2_nonneg.
  destruct (Z.eq_dec v 0) as [->|Hv]; [simpl; lia|].
  pose proof (Z.log2_spec (Z.abs v) ltac:(lia)). lia.
Qed.

(** C5: for every integer [v >= 0], given as a BigInt or as a Number in the
    safe range, unsigned [encode] returns a continuation terminated byte
    sequence that the decode recurrence maps to [v]; no continuation
    terminated sequence with this value is shorter, and none of the same
    length is different. Also [encode(0)] is 00, [encode(127)] is 7F,
    [encode(128)] is 80 01 and [encode(300)] is AC 02. *)
Theorem C5_unsigned_shortest (input : SmartInput.input) (v : Z) :
  integer_input input v ->
  0 <= v ->
  (exists bs,
      LEB128.encode input false LEB128.default = Ok (LEB128.Uint8Output bs)
      /\ continuation_terminated bs
      /\ LEB128.decode_integer bs false = v
      /\ forall bs',
          continuation_terminated bs' ->
          LEB128.decode_integer bs' false = v ->
          (List.length bs <= List.length bs')%nat
          /\ (List.length bs' = List.length bs -> bs' = bs))
  /\ LEB128.encode (SmartInput.Number 0) false LEB128.default
     = Ok (LEB128.Uint8Output [x00])
  /\ LEB128.encode (SmartInput.Number 127) false LEB128.default
     = Ok (LEB128.Uint8Output [x7f])
  /\ LEB128.encode (SmartInput.Number 128) false LEB128.default
     = Ok (LEB128.Uint8Output [x80; x01])
  /\ LEB128.encode (SmartInput.Number 300) false LEB128.default
     = Ok (LEB128.Uint8Output [xac; x02]).
Proof.
  intros Hin Hv.
  split; [|repeat split; vm_compute; reflexivity].
  rewrite (encode_integer input v false Hin).
  destruct (Z.ltb_spec v 0); [lia|]. cbn [andb].
  destruct (unsigned_loop_spec (S (Z.to_nat (Z.log2 (Z.abs v)))) v
              (conj Hv (proj2 (fuel_bound v))))
    as [out [Hrun [Hterm [Hval Hmin]]]].
  cbv zeta. rewrite Hrun. cbn [bind].
  assert (Hmap : map u8_to_Z (Uint8Array_from out) = out)
    by (apply map_u8_to_Z_from, terminated_range, Hterm).
  exists (Uint8Array_from out).
  split; [reflexivity|]. split; [|split].
  - unfold continuation_terminated. rewrite Hmap. exact Hterm.
  - rewrite decode_integer_value, Hmap. exact Hval.
  - intros bs' Hterm' Hval'.
    rewrite decode_integer_value in Hval'.
    unfold continuation_terminated in Hterm'.
    pose proof (groups_value_bounds (map u8_to_Z bs')) as B'.
    rewrite Hval', len_map in B'.
    assert (Hlen : len out = len (Uint8Array_from out))
      by (unfold Uint8Array_from; rewrite len_map; reflexivity).
    assert (Hle : len out <= len bs').
    { destruct Hmin as [H1|Hmin].
      - destruct bs'; [destruct Hterm'|]. rewrite len_cons. pose proof (len_nonneg bs'). lia.
      - destruct (Z.le_gt_cases (len out) (len bs')) as [|Hgt]; [assumption|].
        exfalso.
        assert (128 ^ len bs' <= 128 ^ (len out - 1))
          by (apply Z.pow_le_mono_r; pose proof (len_nonneg bs'); lia).
        lia. }
    split; [unfold len in Hle, Hlen; lia|].
    intros Hsame.
    rewrite <- (Uint8Array_from_map bs'). f_equal.
    apply terminated_inj; auto.
    + rewrite length_map, Hsame. unfold Uint8Array_from. rewrite length_map. reflexivity.
    + rewrite Hval'. symmetry. exact Hval.
Qed.

Lemma C5_unsigned_shortest_witness :
  exists bs,
    LEB128.encode (SmartInput.BigInt 624485) false LEB128.default
    = Ok (LEB128.Uint8Output bs)
    /\ continuation_terminated bs
    /\ LEB128.decode_integer bs false = 624485.
Proof.
  destruct (C5_unsigned_shortest (SmartInput.BigInt 624485) 624485) as [[bs [H1 [H2 [H3 _]]]] _].
  - left; reflexivity.
  - lia.
  - exists bs. auto.
Defined.

(** ** Blocks *)

Lemma sum_digits_horner (c : BaseConverter.t) (suffix : list Z) :
  forall done pre post n,
    BaseConverter.sum_digits c (List.length suffix) (pre ++ done ++ suffix ++ post)
      (len done + len suffix) (len pre) (len done) n
    = Ok (n + horner (BaseConverter.radix c) suffix 0).
Proof.
  induction suffix as [|d suffix IH]; intros done pre post n.
  - cbn. f_equal. lia.
  - change (List.length (d :: suffix)) with (S (List.length suffix)).
    cbn [BaseConverter.sum_digits].
    replace (pre ++ done ++ (d :: suffix) ++ post)
      with ((pre ++ done) ++ d :: (suffix ++ post))
      by (rewrite <- app_assoc; reflexivity).
    rewrite <- len_app, item_app. cbn [bind BigInt_of_item].
    replace ((pre ++ done) ++ d :: (suffix ++ post))
      with (pre ++ (done ++ [d]) ++ suffix ++ post)
      by (rewrite <- !app_assoc; reflexivity).
    replace (len done + len (d :: suffix)) with (len (done ++ [d]) + len suffix)
      by (rewrite len_app, !len_cons; change (len (@nil Z)) with 0; lia).
    replace (len done + 1) with (len (done ++ [d]))
      by (rewrite len_app, len_cons; reflexivity).
    rewrite IH. f_equal.
    change (horner (BaseConverter.radix c) (d :: suffix) 0)
      with (horner (BaseConverter.radix c) suffix (0 * BaseConverter.radix c + d)).
    rewrite (horner_acc _ suffix (0 * BaseConverter.radix c + d)).
    replace (len (done ++ [d]) + len suffix - 1 - len done) with (len suffix)
      by (rewrite len_app, len_cons; change (len (@nil Z)) with 0; lia).
    lia.
Qed.

Lemma encode_blocks_concat (c : BaseConverter.t) (cs : jsstring) (z bs : Z)
    (blocks : list (list Z)) :
  2 <= BaseConverter.radix c ->
  0 < bs ->
  Forall (fun block => len block = bs /\ digits_in 256 block) blocks ->
  forall pre output fuel,
    (List.length blocks <= fuel)%nat ->
    BaseConverter.encode_blocks c fuel (Some cs) None z (pre ++ List.concat blocks) bs
      (len pre) output
    = Ok (output ++ flat_map (char_at cs) (List.concat (map (frame_digits c) blocks))).
Proof.
  intros Hr Hbs. induction 1 as [|block blocks [Hlen Hin] _ IH]; intros pre output fuel Hfuel.
  - cbn [List.concat map flat_map]. rewrite !app_nil_r.
    destruct fuel; cbn [BaseConverter.encode_blocks];
      rewrite Z.ltb_irrefl; reflexivity.
  - destruct fuel as [|fuel]; [simpl in Hfuel; lia|].
    cbn [BaseConverter.encode_blocks List.concat].
    destruct (Z.ltb_spec (len pre) (len (pre ++ block ++ List.concat blocks))) as [_|Hge];
      [|rewrite !len_app in Hge; pose proof (len_nonneg (List.concat blocks)); lia].
    replace (Z.to_nat bs) with (List.length block) by (unfold len in Hlen; lia).
    rewrite read_bytes_horner. cbn [bind].
    unfold BaseConverter.encode_frame.
    destruct (to_digits_spec (BaseConverter.radix c) (horner 256 block 0) Hr)
      as [ds [Hrun _]].
    { apply horner_bounds; [lia | exact Hin]. }
    cbn [map List.concat]. unfold frame_digits at 1. rewrite Hrun. cbn [bind].
    replace (pre ++ block ++ List.concat blocks) with ((pre ++ block) ++ List.concat blocks)
      by (rewrite <- app_assoc; reflexivity).
    replace (len pre + bs) with (len (pre ++ block)) by (rewrite len_app; lia).
    rewrite IH by (simpl in Hfuel; lia).
    rewrite flat_map_app, app_assoc. reflexivity.
Qed.

Lemma decode_blocks_concat (c : BaseConverter.t) (bs : Z) (blocks : list (list Z)) :
  0 < BaseConverter.radix c ->
  0 < bs ->
  Forall (fun block => len block = bs /\ digits_in (BaseConverter.radix c) block) blocks ->
  forall pre b256Array fuel,
    (List.length blocks <= fuel)%nat ->
    BaseConverter.decode_blocks c fuel (pre ++ List.concat blocks) bs (len pre) b256Array
    = Ok (b256Array ++ List.concat (map (block_bytes c) blocks)).
Proof.
  intros Hr Hbs. induction 1 as [|block blocks [Hlen Hin] _ IH];
    intros pre b256Array fuel Hfuel.
  - cbn [List.concat map]. rewrite !app_nil_r.
    destruct fuel; cbn [BaseConverter.decode_blocks];
      rewrite Z.ltb_irrefl; reflexivity.
  - destruct fuel as [|fuel]; [simpl in Hfuel; lia|].
    cbn [BaseConverter.decode_blocks List.concat].
    destruct (Z.ltb_spec (len pre) (len (pre ++ block ++ List.concat blocks))) as [_|Hge];
      [|rewrite !len_app in Hge; pose proof (len_nonneg (List.concat blocks)); lia].
    replace (Z.to_nat bs) with (List.length block) by (unfold len in Hlen; lia).
    pose proof (sum_digits_horner c block [] pre (List.concat blocks) 0) as Hsum.
    change (len (@nil Z)) with 0 in Hsum. cbn [app] in Hsum.
    rewrite Z.add_0_l, Hlen in Hsum. rewrite Hsum. cbn [bind].
    destruct (to_digits_spec 256 (horner (BaseConverter.radix c) block 0) ltac:(lia))
      as [ds [Hrun _]].
    { apply horner_bounds; [lia | exact Hin]. }
    cbn [map List.concat]. unfold block_bytes at 1.
    rewrite Z.add_0_l, Hrun. cbn [bind].
    replace (pre ++ block ++ List.concat blocks) with ((pre ++ block) ++ List.concat blocks)
      by (rewrite <- app_assoc; reflexivity).
    replace (len pre + bs) with (len (pre ++ block)) by (rewrite len_app; lia).
    rewrite IH by (simpl in Hfuel; lia).
    rewrite app_assoc. reflexivity.
Qed.

Lemma chunks_exist {A : Type} (k m : nat) :
  (0 < k)%nat ->
  forall l : list A, List.length l = (m * k)%nat ->
    exists blocks,
      l = List.concat blocks
      /\ Forall (fun block => List.length block = k) blocks
      /\ List.length blocks = m.
Proof.
  intros Hk. induction m as [|m IH]; intros l Hl.
  - destruct l; [|discriminate]. exists []. repeat split. constructor.
  - destruct (IH (skipn k l)) as [blocks [Hc [Hall Hm]]].
    { rewrite length_skipn, Hl. simpl. lia. }
    exists (firstn k l :: blocks). split; [|split].
    + cbn [List.concat]. rewrite <- Hc. symmetry. apply firstn_skipn.
    + constructor; [|exact Hall]. rewrite length_firstn, Hl. simpl. lia.
    + simpl. rewrite Hm. reflexivity.
Qed.

Lemma unshift_zeros_spec (r size : Z) (ds : list Z) :
  0 < r -> digits_in r ds -> len ds <= size ->
  len (BaseConverter.unshift_zeros size ds) = size
  /\ digits_in r (BaseConverter.unshift_zeros size ds)
  /\ horner r (BaseConverter.unshift_zeros size ds) 0 = horner r ds 0.
Proof.
  intros Hr Hin Hlen. unfold BaseConverter.unshift_zeros. split; [|split].
  - rewrite len_app, len_repeat. lia.
  - apply Forall_app. split; [|exact Hin].
    apply Forall_forall. intros x Hx. apply repeat_spec in Hx. lia.
  - apply horner_zeros.
Qed.

(** A block of bytes and the digits written for it stand for the same
    number, and the digits give the bytes back. *)
Lemma frame_digits_spec (c : BaseConverter.t) (block : list Z) :
  2 <= BaseConverter.radix c ->
  0 < BaseConverter.bsEnc c ->
  0 < BaseConverter.bsDec c ->
  256 ^ BaseConverter.bsEnc c <= BaseConverter.radix c ^ BaseConverter.bsDec c ->
  len block = BaseConverter.bsEnc c ->
  digits_in 256 block ->
  len (frame_digits c block) = BaseConverter.bsDec c
  /\ digits_in (BaseConverter.radix c) (frame_digits c block)
  /\ block_bytes c (frame_digits c block) = block.
Proof.
  intros Hr He Hd Hfit Hlen Hin.
  pose proof (horner_bounds 256 block ltac:(lia) Hin) as Hn. rewrite Hlen in Hn.
  destruct (to_digits_spec (BaseConverter.radix c) (horner 256 block 0) Hr (proj1 Hn))
    as [ds [Hrun [Hds [Hval [Hbound _]]]]].
  specialize (Hbound (BaseConverter.bsDec c - 1) ltac:(lia)).
  replace (BaseConverter.bsDec c - 1 + 1) with (BaseConverter.bsDec c) in Hbound by lia.
  specialize (Hbound ltac:(lia)).
  destruct (unshift_zeros_spec (BaseConverter.radix c) (BaseConverter.bsDec c) ds
              ltac:(lia) Hds Hbound) as [Hl [Hi Hv]].
  unfold frame_digits. rewrite Hrun.
  split; [exact Hl|]. split; [exact Hi|].
  unfold block_bytes. rewrite Hv, Hval.
  destruct (to_digits_spec 256 (horner 256 block 0) ltac:(lia) (proj1 Hn))
    as [bs [Hrun' [Hbs [Hval' [Hbound' _]]]]].
  rewrite Hrun'.
  assert (Hlen' : len bs <= BaseConverter.bsEnc c).
  { specialize (Hbound' (BaseConverter.bsEnc c - 1) ltac:(lia)).
    replace (BaseConverter.bsEnc c - 1 + 1) with (BaseConverter.bsEnc c) in Hbound' by lia.
    apply Hbound'. lia. }
  destruct (unshift_zeros_spec 256 (BaseConverter.bsEnc c) bs ltac:(lia) Hbs Hlen')
    as [Hl' [Hi' Hv']].
  apply horner_inj with (r := 256); auto; [lia | | lia].
  unfold len in Hl', Hlen. lia.
Qed.

(** ** The round trip of the base converter *)

Lemma decode_digits_nil (c : BaseConverter.t) (littleEndian : bool) :
  BaseConverter.decode_digits c [] littleEndian = Ok [].
Proof.
  pose proof (decode_no_known_digit c [] [" "%char] littleEndian eq_refl) as H.
  exact H.
Qed.

Lemma decode_as_digits (c : BaseConverter.t) (s cs : jsstring) (littleEndian : bool) :
  BaseConverter.decode c s cs littleEndian
  = BaseConverter.decode_digits c (BaseConverter.known_digits cs s) littleEndian.
Proof.
  destruct s; [symmetry; apply decode_digits_nil | reflexivity].
Qed.

Lemma len_concat_blocks {A : Type} (bs : Z) (blocks : list (list A)) :
  Forall (fun block => len block = bs) blocks ->
  len (List.concat blocks) = Z.of_nat (List.length blocks) * bs.
Proof.
  induction 1 as [|block blocks Hb _ IH].
  - reflexivity.
  - cbn [List.concat]. rewrite len_app, IH, Hb.
    change (List.length (block :: blocks)) with (S (List.length blocks)). lia.
Qed.

Lemma padded_input_blocks (c : BaseConverter.t) (b : list byte) (littleEndian : bool) :
  0 < BaseConverter.bsEnc c ->
  exists blocks,
    padded_input c b littleEndian = List.concat blocks
    /\ Forall (fun block => len block = BaseConverter.bsEnc c /\ digits_in 256 block) blocks
    /\ (List.length blocks <= List.length (padded_input c b littleEndian))%nat.
Proof.
  intros He.
  set (e := BaseConverter.bsEnc c) in *.
  set (z := (e - len b mod e) mod e).
  assert (Hz : 0 <= z < e) by (apply Z.mod_pos_bound; lia).
  assert (Hlen : len (padded_input c b littleEndian) = len b + z).
  { unfold padded_input. fold e. fold z.
    destruct littleEndian; rewrite len_app, len_repeat, len_map, ?len_rev; lia. }
  assert (Hm : exists m, len b + z = Z.of_nat m * e).
  { pose proof (Z.div_mod (len b) e ltac:(lia)) as Hd.
    pose proof (Z.mod_pos_bound (len b) e He) as Hr.
    pose proof (len_nonneg b).
    assert (0 <= len b / e) by (apply Z.div_pos; lia).
    destruct (Z.eq_dec (len b mod e) 0) as [E|E].
    - exists (Z.to_nat (len b / e)). unfold z. rewrite E, Z.sub_0_r, Z.mod_same by lia. nia.
    - exists (Z.to_nat (len b / e + 1)). unfold z. rewrite Z.mod_small by lia. nia. }
  destruct Hm as [m Hm].
  destruct (chunks_exist (Z.to_nat e) m ltac:(lia) (padded_input c b littleEndian))
    as [blocks [Hc [Hall Hcount]]].
  { apply Nat2Z.inj. rewrite Nat2Z.inj_mul, Z2Nat.id by lia. unfold len in *. lia. }
  exists blocks. split; [exact Hc|]. split.
  - assert (Hrange : Forall (fun x => 0 <= x < 256) (padded_input c b littleEndian)).
    { unfold padded_input. destruct littleEndian; apply Forall_app; split;
        try apply bytes_in_range;
        apply Forall_forall; intros x Hx; apply repeat_spec in Hx; lia. }
    rewrite Hc in Hrange. rewrite Forall_concat in Hrange.
    clear - Hall Hrange He. induction Hall as [|block blocks Hb _ IH]; [constructor|].
    inversion Hrange; subst. constructor; [|apply IH; assumption].
    split; [unfold len; lia | assumption].
  - rewrite Hcount. unfold len in *. nia.
Qed.

Lemma encode_blocked (c : BaseConverter.t) (cs : jsstring) (b : list byte)
    (littleEndian : bool) (blocks : list (list Z)) :
  2 <= BaseConverter.radix c ->
  BaseConverter.radix c <> 10 ->
  0 < BaseConverter.bsEnc c ->
  padded_input c b littleEndian = List.concat blocks ->
  Forall (fun block => len block = BaseConverter.bsEnc c /\ digits_in 256 block) blocks ->
  (List.length blocks <= List.length (padded_input c b littleEndian))%nat ->
  BaseConverter.encode c b (Some cs) littleEndian None
  = Ok ((flat_map (char_at cs) (List.concat (map (frame_digits c) blocks)),
         (BaseConverter.bsEnc c - len b mod BaseConverter.bsEnc c)
         mod BaseConverter.bsEnc c),
        if littleEndian then rev b else b).
Proof.
  intros Hr H10 He Hc Hall Hfuel.
  unfold BaseConverter.encode. cbv zeta.
  destruct (Z.eqb_spec (BaseConverter.bsEnc c) 0) as [E|_]; [lia|]. cbv iota.
  destruct (Z.eqb_spec (BaseConverter.bsEnc c) 0) as [E|_]; [lia|]. cbv iota.
  destruct (Z.eqb_spec (BaseConverter.radix c) 10) as [E|_]; [contradiction|].
  pose proof (len_nonneg b).
  pose proof (Z.mod_pos_bound (len b) (BaseConverter.bsEnc c) He).
  rewrite (Z.rem_mod_nonneg (len b)) by lia.
  rewrite Z.rem_mod_nonneg by lia.
  set (z := (BaseConverter.bsEnc c - len b mod BaseConverter.bsEnc c)
            mod BaseConverter.bsEnc c) in *.
  assert (Hz : 0 <= z) by (apply Z.mod_pos_bound; lia).
  unfold new_Array_fill. destruct (Z.ltb_spec z 0); [lia|]. cbn [bind].
  assert (Hp : (if littleEndian
                then repeat 0 (Z.to_nat z) ++ map u8_to_Z (if littleEndian then rev b else b)
                else map u8_to_Z (if littleEndian then rev b else b) ++ repeat 0 (Z.to_nat z))
               = padded_input c b littleEndian)
    by (unfold padded_input; fold z; destruct littleEndian; reflexivity).
  rewrite Hp.
  pose proof (encode_blocks_concat c cs z (BaseConverter.bsEnc c) blocks Hr He Hall
                [] [] (List.length (padded_input c b littleEndian)) Hfuel) as Hrun.
  cbn [app] in Hrun. change (len (@nil Z)) with 0 in Hrun.
  rewrite <- Hc in Hrun. rewrite Hrun. reflexivity.
Qed.

Lemma shift_zeros_repeat (k : nat) (y : Z) (rest : list Z) :
  y <> 0 -> BaseConverter.shift_zeros (repeat 0 k ++ y :: rest) = Ok (y :: rest).
Proof.
  intros Hy. induction k as [|k IH]; cbn [repeat app BaseConverter.shift_zeros].
  - destruct (Z.eqb_spec y 0); [contradiction | reflexivity].
  - exact IH.
Qed.

Lemma splice_from_len {A : Type} (a : list A) : splice_from a (len a - 0) = a.
Proof.
  unfold splice_from. rewrite Z.sub_0_r.
  pose proof (len_nonneg a). destruct (Z.ltb_spec (len a) 0); [lia|].
  rewrite Z.min_id. unfold len. rewrite Nat2Z.id. apply firstn_all.
Qed.

Lemma Uint8Array_from_padded (b : list byte) (k : nat) :
  Uint8Array_from (map u8_to_Z b ++ repeat 0 k) = b ++ repeat x00 k.
Proof.
  unfold Uint8Array_from. rewrite map_app. fold (Uint8Array_from (map u8_to_Z b)).
  rewrite Uint8Array_from_map. f_equal.
  induction k as [|k IH]; [reflexivity|]. cbn [repeat map]. rewrite IH. reflexivity.
Qed.

Lemma u8_to_Z_zero (x : byte) : u8_to_Z x = 0 -> x = x00.
Proof. intros H. apply u8_to_Z_inj. rewrite H. reflexivity. Qed.

(** [decode] on the digits of [encode]: the padded input comes back. *)
Lemma decode_blocks_of_frames (c : BaseConverter.t) (blocks : list (list Z)) :
  2 <= BaseConverter.radix c ->
  0 < BaseConverter.bsEnc c ->
  0 < BaseConverter.bsDec c ->
  256 ^ BaseConverter.bsEnc c <= BaseConverter.radix c ^ BaseConverter.bsDec c ->
  Forall (fun block => len block = BaseConverter.bsEnc c /\ digits_in 256 block) blocks ->
  let digits := List.concat (map (frame_digits c) blocks) in
  digits_in (BaseConverter.radix c) digits
  /\ Z.rem (BaseConverter.bsDec c - Z.rem (len digits) (BaseConverter.bsDec c))
       (BaseConverter.bsDec c) = 0
  /\ BaseConverter.decode_blocks c (List.length digits) digits (BaseConverter.bsDec c) 0 []
     = Ok (List.concat blocks).
Proof.
  intros Hr He Hd Hfit Hall digits.
  assert (Hframes : Forall (fun block => len block = BaseConverter.bsDec c
                                         /\ digits_in (BaseConverter.radix c) block)
                      (map (frame_digits c) blocks)).
  { apply Forall_map. eapply Forall_impl; [|exact Hall].
    intros block [Hl Hi]. cbv beta.
    destruct (frame_digits_spec c block Hr He Hd Hfit Hl Hi) as [H1 [H2 _]]. auto. }
  assert (Hbytes : map (block_bytes c) (map (frame_digits c) blocks) = blocks).
  { clear - Hr He Hd Hfit Hall. induction Hall as [|block blocks [Hl Hi] _ IH]; [reflexivity|].
    cbn [map]. rewrite IH.
    destruct (frame_digits_spec c block Hr He Hd Hfit Hl Hi) as [_ [_ H3]].
    rewrite H3. reflexivity. }
  assert (Hlen : len digits = Z.of_nat (List.length (map (frame_digits c) blocks))
                              * BaseConverter.bsDec c).
  { apply len_concat_blocks. eapply Forall_impl; [|exact Hframes]. intros ? [? _]; auto. }
  split; [|split].
  - unfold digits_in. unfold digits. rewrite Forall_concat.
    eapply Forall_impl; [|exact Hframes]. intros ? [_ ?]; auto.
  - rewrite Hlen, Z.rem_mul, Z.sub_0_r, Z.rem_same by lia. reflexivity.
  - pose proof (decode_blocks_concat c (BaseConverter.bsDec c) (map (frame_digits c) blocks)
                  ltac:(lia) Hd Hframes [] [] (List.length digits)) as Hrun.
    cbn [app] in Hrun. change (len (@nil Z)) with 0 in Hrun.
    rewrite Hbytes in Hrun. apply Hrun.
    unfold len in Hlen. nia.
Qed.

Lemma decode_of_frames (c : BaseConverter.t) (cs : jsstring) (blocks : list (list Z))
    (littleEndian : bool) :
  2 <= BaseConverter.radix c ->
  0 < BaseConverter.bsEnc c ->
  0 < BaseConverter.bsDec c ->
  256 ^ BaseConverter.bsEnc c <= BaseConverter.radix c ^ BaseConverter.bsDec c ->
  NoDup cs ->
  len cs = BaseConverter.radix c ->
  Forall (fun block => len block = BaseConverter.bsEnc c /\ digits_in 256 block) blocks ->
  BaseConverter.decode c
    (flat_map (char_at cs) (List.concat (map (frame_digits c) blocks))) cs littleEndian
  = bind (if littleEndian then
            if 1 <? len (List.concat blocks) then
              bind (BaseConverter.shift_zeros (List.concat blocks))
                (fun stripped => Ok (rev stripped))
            else Ok (List.concat blocks)
          else Ok (List.concat blocks))
      (fun b256Array => Ok (Uint8Array_from b256Array)).
Proof.
  intros Hr He Hd Hfit Hcs Hlen Hall.
  destruct (decode_blocks_of_frames c blocks Hr He Hd Hfit Hall) as [Hdig [Hpad Hrun]].
  rewrite decode_as_digits, known_digits_chars by (rewrite ?Hlen; assumption).
  unfold BaseConverter.decode_digits.
  destruct (Z.eqb_spec (BaseConverter.bsDec c) 0) as [E|_]; [lia|].
  cbv zeta. rewrite Hpad.
  cbn [new_Array_fill Z.ltb Z.compare Z.to_nat repeat bind].
  assert (Hb : (if littleEndian
                then [] ++ List.concat (map (frame_digits c) blocks)
                else List.concat (map (frame_digits c) blocks) ++ [])
               = List.concat (map (frame_digits c) blocks))
    by (destruct littleEndian; [reflexivity | apply app_nil_r]).
  rewrite Hb, Hrun. cbn [bind].
  destruct littleEndian; [reflexivity|].
  unfold BaseConverter.padChars, Math_ceil_div.
  destruct (Z.eqb_spec (BaseConverter.bsDec c) 0) as [E|_]; [lia|].
  rewrite Z.mul_0_l. change (- 0) with 0. rewrite Z.div_0_l by lia. change (- 0) with 0.
  rewrite splice_from_len. reflexivity.
Qed.

(** C1, as stated, fails. Big endian, base 64 (3 bytes, 4 digits): the one
    byte 4D is encoded with two zero bytes of padding, and decoding the
    string returns 4D 00 00. Little endian, base 16: the bytes 01 00 come
    back as 01. *)
Lemma C1_round_trip_as_stated_fails :
  (exists s z after,
      BaseConverter.encode base64_converter [x4d] (Some base64_charset) false None
      = Ok ((s, z), after)
      /\ BaseConverter.decode base64_converter s base64_charset false
         = Ok [x4d; x00; x00])
  /\ (exists s z after,
         BaseConverter.encode LEB128.hexlify [x01; x00] (Some LEB128.hex_charset) true None
         = Ok ((s, z), after)
         /\ BaseConverter.decode LEB128.hexlify s LEB128.hex_charset true = Ok [x01]).
Proof.
  split; eexists; eexists; eexists; (split; [vm_compute; reflexivity|]);
    vm_compute; reflexivity.
Qed.

(** C1, amended: for a converter with blocks (a radix of 2 or more other
    than 10, positive block sizes such that [bsDec] digits hold [bsEnc]
    bytes) and a charset without duplicates of length [radix], [encode]
    returns a string [s] and the number [z] of zero bytes it padded with,
    and then:
    - big endian, [decode s] is the input followed by [z] zero bytes, so it
      is the input when the length of the input is a multiple of [bsEnc];
    - little endian, [decode s] is the input when the input is empty or its
      last byte is not zero. *)
Theorem C1_round_trip (c : BaseConverter.t) (cs : jsstring) (b : list byte)
    (littleEndian : bool) :
  2 <= BaseConverter.radix c ->
  BaseConverter.radix c <> 10 ->
  0 < BaseConverter.bsEnc c ->
  0 < BaseConverter.bsDec c ->
  256 ^ BaseConverter.bsEnc c <= BaseConverter.radix c ^ BaseConverter.bsDec c ->
  NoDup cs ->
  len cs = BaseConverter.radix c ->
  exists s z,
    BaseConverter.encode c b (Some cs) littleEndian None
    = Ok ((s, z), if littleEndian then rev b else b)
    /\ z = (BaseConverter.bsEnc c - len b mod BaseConverter.bsEnc c)
           mod BaseConverter.bsEnc c
    /\ (littleEndian = false ->
        BaseConverter.decode c s cs false = Ok (b ++ repeat x00 (Z.to_nat z)))
    /\ (littleEndian = false -> len b mod BaseConverter.bsEnc c = 0 ->
        BaseConverter.decode c s cs false = Ok b)
    /\ (littleEndian = true -> b = [] \/ last b x00 <> x00 ->
        BaseConverter.decode c s cs true = Ok b).
Proof.
  intros Hr H10 He Hd Hfit Hcs Hlen.
  destruct (padded_input_blocks c b littleEndian He) as [blocks [Hc [Hall Hfuel]]].
  eexists. eexists.
  split; [apply (encode_blocked c cs b littleEndian blocks); assumption|].
  split; [reflexivity|].
  assert (HBE : littleEndian = false ->
                BaseConverter.decode c
                  (flat_map (char_at cs) (List.concat (map (frame_digits c) blocks))) cs false
                = Ok (b ++ repeat x00
                             (Z.to_nat ((BaseConverter.bsEnc c - len b mod BaseConverter.bsEnc c)
                                        mod BaseConverter.bsEnc c)))).
  { intros ->. rewrite (decode_of_frames c cs blocks false) by assumption.
    cbn [bind]. rewrite <- Hc. unfold padded_input.
    rewrite Uint8Array_from_padded. reflexivity. }
  split; [exact HBE|]. split.
  - intros Hle Hmod. rewrite (HBE Hle), Hmod, Z.sub_0_r, Z.mod_same by lia.
    cbn [Z.to_nat repeat]. rewrite app_nil_r. reflexivity.
  - intros -> Hb. rewrite (decode_of_frames c cs blocks true) by assumption.
    rewrite <- Hc. unfold padded_input.
    destruct Hb as [->|Hlast].
    + change (len (@nil byte)) with 0.
      rewrite Z.mod_0_l, Z.sub_0_r, Z.mod_same by lia. reflexivity.
    + destruct (exists_last (l := b)) as [b' [x Hb]].
      { intros ->. apply Hlast. reflexivity. }
      subst b. rewrite last_last in Hlast.
      rewrite rev_app_distr. cbn [rev app map].
      assert (Hx : u8_to_Z x <> 0) by (intros H0; apply Hlast, u8_to_Z_zero, H0).
      set (k := Z.to_nat ((BaseConverter.bsEnc c
                           - len (b' ++ [x]) mod BaseConverter.bsEnc c)
                          mod BaseConverter.bsEnc c)).
      destruct (Z.ltb_spec 1 (len (repeat 0 k ++ u8_to_Z x :: map u8_to_Z (rev b'))))
        as [Hlong|Hshort].
      * rewrite shift_zeros_repeat by exact Hx. cbn [bind rev].
        rewrite <- map_rev, rev_involutive.
        change [u8_to_Z x] with (map u8_to_Z [x]). rewrite <- map_app.
        rewrite Uint8Array_from_map. reflexivity.
      * rewrite len_app, len_repeat, len_cons, len_map, len_rev in Hshort.
        pose proof (len_nonneg b').
        assert (k = 0%nat) by lia. assert (b' = [])
          by (destruct b'; [reflexivity | rewrite len_cons in Hshort;
                pose proof (len_nonneg b'); lia]).
        subst b'. rewrite H0. cbn [repeat app rev map bind].
        change [u8_to_Z x] with (map u8_to_Z [x]).
        rewrite Uint8Array_from_map. reflexivity.
Qed.

Lemma NoDup_hex_charset : NoDup LEB128.hex_charset.
Proof.
  unfold LEB128.hex_charset. simpl.
  repeat (constructor; [simpl; intros H; repeat (destruct H as [H|H]; [discriminate H|]); exact H|]).
  constructor.
Qed.

Lemma C1_round_trip_witness :
  (exists s z,
      BaseConverter.encode LEB128.hexlify [x01; x02; xff] (Some LEB128.hex_charset) false None
      = Ok ((s, z), [x01; x02; xff])
      /\ BaseConverter.decode LEB128.hexlify s LEB128.hex_charset false
         = Ok [x01; x02; xff])
  /\ (exists s z,
         BaseConverter.encode LEB128.hexlify [x01; x02; xff] (Some LEB128.hex_charset) true None
         = Ok ((s, z), [xff; x02; x01])
         /\ BaseConverter.decode LEB128.hexlify s LEB128.hex_charset true
            = Ok [x01; x02; xff]).
Proof.
  split.
  - destruct (C1_round_trip LEB128.hexlify LEB128.hex_charset [x01; x02; xff] false)
      as [s [z [H1 [_ [_ [H2 _]]]]]];
      [ simpl; lia | discriminate | simpl; lia | simpl; lia | simpl; lia
      | apply NoDup_hex_charset | reflexivity | ].
    exists s, z. split; [exact H1 | apply H2; reflexivity].
  - destruct (C1_round_trip LEB128.hexlify LEB128.hex_charset [x01; x02; xff] true)
      as [s [z [H1 [_ [_ [_ H2]]]]]];
      [ simpl; lia | discriminate | simpl; lia | simpl; lia | simpl; lia
      | apply NoDup_hex_charset | reflexivity | ].
    exists s, z. split; [exact H1 | apply H2; [reflexivity | right; discriminate]].
Defined.

(** ** LEB128: what [decode] hands to the output handler *)

Lemma extractSign_digit (d : Z) (s : jsstring) :
  0 <= d < 10 ->
  extractSign (char_at BaseConverter.decimal_digits d ++ s)
  = (char_at BaseConverter.decimal_digits d ++ s, false).
Proof.
  intros Hd.
  assert (H : d = 0 \/ d = 1 \/ d = 2 \/ d = 3 \/ d = 4 \/ d = 5 \/ d = 6
              \/ d = 7 \/ d = 8 \/ d = 9) by lia.
  repeat (destruct H as [H|H]; [subst d; reflexivity|]). subst d; reflexivity.
Qed.

Lemma extractSign_toString (v : Z) :
  extractSign (BaseConverter.BigInt_toString v)
  = (BaseConverter.BigInt_toString (Z.abs v), v <? 0).
Proof.
  destruct (BigInt_toString_nonneg (Z.abs v) (Z.abs_nonneg v))
    as [ds [Hrun [Hin [_ [Hhd Hs]]]]].
  destruct (Z.ltb_spec v 0) as [Hneg|Hpos].
  - unfold BaseConverter.BigInt_toString at 1.
    destruct (Z.ltb_spec v 0); [|lia].
    rewrite Hrun, Hs. reflexivity.
  - rewrite Z.abs_eq in * by lia. rewrite Hs.
    destruct ds as [|d ds]; [destruct Hhd as [[H _]|H]; [discriminate | simpl in H; lia]|].
    inversion Hin; subst. cbn [flat_map]. apply extractSign_digit. assumption.
Qed.

(** The base 10 converter without blocks, little endian, on the decimal
    string of a number: the bytes of the number. *)
Lemma decode_base10_le (m : Z) :
  0 <= m ->
  exists out,
    BaseConverter.decode LEB128.converter (BaseConverter.BigInt_toString m)
      BaseConverter.decimal_digits true = Ok out
    /\ le_value out = m.
Proof.
  intros Hm.
  destruct (BigInt_toString_nonneg m Hm) as [ds [_ [Hin [Hval [Hhd Hs]]]]].
  rewrite Hs, decode_as_digits, known_digits_chars
    by (try apply NoDup_decimal_digits; exact Hin).
  unfold BaseConverter.decode_digits, LEB128.converter.
  cbn [BaseConverter.bsDec BaseConverter.bsEnc]. change (0 =? 0) with true.
  cbv iota. cbn [bind].
  assert (Hne : 0 < len ds).
  { destruct ds; [destruct Hhd as [[H _]|H]; [discriminate | simpl in H; lia]|].
    rewrite len_cons. pose proof (len_nonneg ds). lia. }
  pose proof (decode_blocks_concat (BaseConverter.new 10 0 0 0) (len ds) [ds]
                ltac:(simpl; lia) Hne
                ltac:(constructor; [split; [reflexivity | exact Hin] | constructor])
                [] [] (List.length ds)) as Hrun.
  cbn [List.concat map app] in Hrun. rewrite !app_nil_r in Hrun.
  change (len (@nil Z)) with 0 in Hrun.
  rewrite Hrun by (unfold len in Hne; simpl; lia). clear Hrun. cbn [bind].
  unfold block_bytes. cbn [BaseConverter.radix BaseConverter.bsEnc]. rewrite Hval.
  destruct (to_digits_spec 256 m ltac:(lia) Hm) as [bs [Hrun [Hbs [Hv [_ Hhd']]]]].
  rewrite Hrun.
  assert (Hu : BaseConverter.unshift_zeros 0 bs = bs).
  { unfold BaseConverter.unshift_zeros. pose proof (len_nonneg bs).
    replace (Z.to_nat (0 - len bs)) with 0%nat by lia. reflexivity. }
  rewrite Hu.
  exists (Uint8Array_from (rev bs)). split.
  - destruct (Z.ltb_spec 1 (len bs)) as [Hlong|Hshort].
    + destruct bs as [|y bs]; [change (len (@nil Z)) with 0 in Hlong; lia|].
      destruct Hhd' as [[H _]|H].
      * inversion H; subst. change (len [0]) with 1 in Hlong. lia.
      * cbn [hd] in H. cbn [BaseConverter.shift_zeros].
        destruct (Z.eqb_spec y 0); [lia|]. reflexivity.
    + destruct bs as [|y [|y' bs]]; try reflexivity.
      rewrite !len_cons in Hshort. pose proof (len_nonneg bs). lia.
  - rewrite <- horner_rev_le_value.
    unfold Uint8Array_from. rewrite <- map_rev, rev_involutive.
    fold (Uint8Array_from bs). rewrite map_u8_to_Z_from; [exact Hv | exact Hbs].
Qed.

Lemma decode_FromBytes (bs : list byte) (signed : bool) :
  LEB128.decode (LEB128.FromBytes bs) signed
  = if match bs with [b] => Byte.eqb b x00 | _ => false end
    then Ok ([x00], false)
    else
      let n := LEB128.decode_integer bs signed in
      let '(decimalNum, negative) := extractSign (BaseConverter.BigInt_toString n) in
      bind (BaseConverter.decode LEB128.converter decimalNum
              BaseConverter.decimal_digits true)
        (fun output => Ok (output, negative)).
Proof.
  unfold LEB128.decode. cbn [bind].
  destruct bs as [|b [|b' bs]]; try reflexivity.
  - destruct b; reflexivity.
  - destruct b; reflexivity.
Qed.



(** ** LEB128: negative input in unsigned mode *)

Lemma hexlify_encode_returns (bytes : list byte) :
  exists r, BaseConverter.encode LEB128.hexlify bytes (Some LEB128.hex_charset) false None
            = Ok r.
Proof.
  destruct (padded_input_blocks LEB128.hexlify bytes false ltac:(simpl; lia))
    as [blocks [Hc [Hall Hfuel]]].
  eexists.
  apply (encode_blocked LEB128.hexlify LEB128.hex_charset bytes false blocks);
    try assumption; simpl; try lia; discriminate.
Qed.

(** C7, as stated, fails for a negative integer Number beyond the safe
    range: the input handler rejects it with a RangeError, in either mode,
    and the sign check is not reached. *)
Lemma C7_unsafe_negative_as_stated_fails :
  LEB128.encode (SmartInput.Number (- 2 ^ 53)) false LEB128.default
  = Throw (RangeError "The provided integer is not a safe integer")
  /\ LEB128.encode (SmartInput.Number (- 2 ^ 53)) false LEB128.default
     <> Throw negative_unsigned.
Proof.
  split; [vm_compute; reflexivity | vm_compute; discriminate].
Qed.

(** C7, amended: for every integer input the input handler accepts (a
    BigInt, or a Number in the safe range), [encode] throws the TypeError
    for negative values in unsigned mode exactly when the integer is
    negative and signed mode is off, in both versions; it then returns
    nothing. *)
Theorem C7_negative_unsigned (input : SmartInput.input) (v : Z) (signed : bool)
    (ver : LEB128.version) :
  integer_input input v ->
  (LEB128.encode input signed ver = Throw negative_unsigned
   <-> v < 0 /\ signed = false)
  /\ (v < 0 -> LEB128.encode input false ver = Throw negative_unsigned).
Proof.
  intros Hin.
  destruct (toBytes_integer input v true Hin) as [bytes [Hrun Hval]].
  cbn [bytes_value] in Hval.
  assert (Hneg : v < 0 -> LEB128.encode input false ver = Throw negative_unsigned).
  { intros Hv. rewrite (encode_handled input bytes (v <? 0) false ver Hrun).
    destruct (Z.ltb_spec v 0); [reflexivity | lia]. }
  split; [|exact Hneg].
  split.
  - intros H. rewrite (encode_handled input bytes (v <? 0) signed ver Hrun) in H.
    destruct (Z.ltb_spec v 0) as [Hv|Hv]; destruct signed; cbn [andb negb] in H;
      try (split; [lia | reflexivity]); exfalso; cbv zeta in H.
    + destruct (signed_loop_spec _ _ (fuel_bound (- le_value bytes))) as [out [Hl _]].
      rewrite Hl in H. cbn [bind] in H. destruct ver; [discriminate|].
      destruct (hexlify_encode_returns (Uint8Array_from out)) as [r Hr].
      rewrite Hr in H. discriminate.
    + destruct (signed_loop_spec _ _ (fuel_bound (le_value bytes))) as [out [Hl _]].
      rewrite Hl in H. cbn [bind] in H. destruct ver; [discriminate|].
      destruct (hexlify_encode_returns (Uint8Array_from out)) as [r Hr].
      rewrite Hr in H. discriminate.
    + destruct (unsigned_loop_spec _ (le_value bytes)
                  (conj (proj1 (le_value_bounds bytes))
                     (proj2 (fuel_bound (le_value bytes))))) as [out [Hl _]].
      rewrite Hl in H. cbn [bind] in H. destruct ver; [discriminate|].
      destruct (hexlify_encode_returns (Uint8Array_from out)) as [r Hr].
      rewrite Hr in H. discriminate.
  - intros [Hv ->]. apply Hneg. exact Hv.
Qed.

Lemma C7_negative_unsigned_witness :
  LEB128.encode (SmartInput.BigInt (-129)) false LEB128.default = Throw negative_unsigned.
Proof.
  apply (C7_negative_unsigned (SmartInput.BigInt (-129)) (-129) false LEB128.default).
  - left; reflexivity.
  - lia.
Defined.

(** ** Base phi: the encoder returns *)

Lemma one_pos (extra : nat) : 0 < Big.one extra.
Proof. unfold Big.one, Big.places. apply Z.pow_pos_nonneg; lia. Qed.

Lemma Phi_bounds (extra : nat) :
  Big.one extra < BasePhi.Phi extra < 2 * Big.one extra.
Proof.
  unfold BasePhi.Phi, Big.one, Big.places.
  rewrite Z.pow_add_r by lia.
  assert (0 < 10 ^ Z.of_nat extra) by (apply Z.pow_pos_nonneg; lia).
  change (10 ^ 120) with
    1000000000000000000000000000000000000000000000000000000000000000000000000000000000000000000000000000000000000000000000000.
  lia.
Qed.

Lemma highest_exp_returns (fuel : nat) :
  forall n last cur exp,
    0 < last <= cur ->
    n - cur < Z.of_nat fuel ->
    exists last' cur' exp',
      BasePhi.highest_exp fuel n last cur exp = Ok (last', cur', exp')
      /\ 0 < last' <= cur' /\ cur' <= Z.max cur (2 * n).
Proof.
  induction fuel as [|fuel IH]; intros n last cur exp Hl Hf;
    cbn [BasePhi.highest_exp]; destruct (Z.ltb_spec cur n) as [Hlt|Hge];
    try lia.
  - exists last, cur, exp. split; [reflexivity | lia].
  - unfold BasePhi.nextPhiExp.
    destruct (IH n cur (last + cur) (exp + 1) ltac:(lia) ltac:(lia))
      as [last' [cur' [exp' [Hrun [Hpos Hmax]]]]].
    exists last', cur', exp'. split; [exact Hrun | lia].
  - exists last, cur, exp. split; [reflexivity | lia].
Qed.

Lemma fitting_exp_returns (fuel : nat) :
  forall n cur prev exp,
    0 < cur -> 0 < prev -> prev < Z.of_nat fuel ->
    exists r,
      BasePhi.fitting_exp fuel n cur prev exp = Ok r
      /\ match r with
         | None => True
         | Some (cur', prev', _) => 0 < cur' <= n /\ 0 < prev' <= prev
         end.
Proof.
  induction fuel as [|fuel IH]; intros n cur prev exp Hc Hp Hf; [lia|].
  cbn [BasePhi.fitting_exp]. destruct (Z.ltb_spec n cur) as [Hlt|Hge].
  - unfold BasePhi.prevPhiExp.
    destruct (Z.leb_spec (prev - cur) 0) as [Hle|Hgt].
    + exists None. split; [reflexivity | exact I].
    + destruct (IH n (prev - cur) cur (exp - 1) Hgt Hc ltac:(lia)) as [r [Hrun Hr]].
      exists r. split; [exact Hrun|].
      destruct r as [[[cur' prev'] exp']|]; [lia | exact I].
  - exists (Some (cur, prev, exp)). split; [reflexivity | lia].
Qed.

Lemma reduceN_returns (extra rounds : nat) (fuel : nat) :
  forall v cur prev exp,
    0 < cur -> 0 < prev -> prev < Z.of_nat rounds ->
    0 <= BasePhi.n v < Z.of_nat fuel ->
    exists v', BasePhi.reduceN extra rounds fuel v cur prev exp = Ok v'.
Proof.
  induction fuel as [|fuel IH]; intros v cur prev exp Hc Hp Hr Hn; [lia|].
  cbn [BasePhi.reduceN].
  destruct (BasePhi.approxNull extra (BasePhi.n v)); [eexists; reflexivity|].
  destruct (fitting_exp_returns rounds (BasePhi.n v) cur prev exp Hc Hp Hr)
    as [r [Hrun Hfit]].
  rewrite Hrun. cbn [bind].
  destruct r as [[[cur' prev'] exp']|]; [|eexists; reflexivity].
  apply IH; cbn [BasePhi.n]; lia.
Qed.

(** More fuel does not change a result. *)
Lemma highest_exp_mono (fuel : nat) :
  forall fuel' n last cur exp r,
    (fuel <= fuel')%nat ->
    BasePhi.highest_exp fuel n last cur exp = Ok r ->
    BasePhi.highest_exp fuel' n last cur exp = Ok r.
Proof.
  induction fuel as [|fuel IH]; intros fuel' n last cur exp r Hle H;
    cbn [BasePhi.highest_exp] in H; destruct fuel' as [|fuel'];
    cbn [BasePhi.highest_exp]; destruct (cur <? n); try discriminate; try exact H;
    try lia.
  unfold BasePhi.nextPhiExp in *. apply (IH fuel'); [lia | exact H].
Qed.

Lemma fitting_exp_mono (fuel : nat) :
  forall fuel' n cur prev exp r,
    (fuel <= fuel')%nat ->
    BasePhi.fitting_exp fuel n cur prev exp = Ok r ->
    BasePhi.fitting_exp fuel' n cur prev exp = Ok r.
Proof.
  induction fuel as [|fuel IH]; intros fuel' n cur prev exp r Hle H;
    cbn [BasePhi.fitting_exp] in H; destruct fuel' as [|fuel'];
    cbn [BasePhi.fitting_exp]; destruct (n <? cur); try discriminate; try exact H;
    try lia.
  unfold BasePhi.prevPhiExp in *.
  destruct (prev - cur <=? 0); [exact H|]. apply (IH fuel'); [lia | exact H].
Qed.

Lemma reduceN_mono (extra : nat) (fuel : nat) :
  forall rounds rounds' fuel' v cur prev exp r,
    (rounds <= rounds')%nat -> (fuel <= fuel')%nat ->
    BasePhi.reduceN extra rounds fuel v cur prev exp = Ok r ->
    BasePhi.reduceN extra rounds' fuel' v cur prev exp = Ok r.
Proof.
  induction fuel as [|fuel IH]; intros rounds rounds' fuel' v cur prev exp r Hr Hle H.
  - destruct fuel'; cbn [BasePhi.reduceN] in *;
      destruct (BasePhi.approxNull extra (BasePhi.n v)); try exact H;
      destruct (BasePhi.fitting_exp rounds (BasePhi.n v) cur prev exp) as [fit| |] eqn:E;
      try discriminate;
      rewrite (fitting_exp_mono rounds rounds' _ _ _ _ _ Hr E); cbn [bind] in *;
      destruct fit as [[[cur' prev'] exp']|]; try discriminate; exact H.
  - destruct fuel' as [|fuel']; [lia|]. cbn [BasePhi.reduceN] in *.
    destruct (BasePhi.approxNull extra (BasePhi.n v)); [exact H|].
    destruct (BasePhi.fitting_exp rounds (BasePhi.n v) cur prev exp) as [fit| |] eqn:E;
      try discriminate.
    rewrite (fitting_exp_mono rounds rounds' _ _ _ _ _ Hr E). cbn [bind] in *.
    destruct fit as [[[cur' prev'] exp']|]; [|exact H].
    apply (IH rounds rounds' fuel'); [exact Hr | lia | exact H].
Qed.

Lemma encode_number_mono (extra : nat) (charset : jsstring) (fuel fuel' : nat)
    (negative : bool) (n : Z) (r : jsstring * bool) :
  (fuel <= fuel')%nat ->
  BasePhi.encode_number extra charset fuel negative n = Ok r ->
  BasePhi.encode_number extra charset fuel' negative n = Ok r.
Proof.
  intros Hle H. unfold BasePhi.encode_number in *.
  destruct ((n =? 0) || (n =? Big.one extra)); [exact H|].
  bind_inv H. rewrite (highest_exp_mono fuel fuel' _ _ _ _ _ Hle Ha). cbn [bind].
  destruct a as [[last cur] exp].
  bind_inv H. rewrite (reduceN_mono extra fuel fuel fuel' fuel' _ _ _ _ _ Hle Hle Ha0).
  cbn [bind]. exact H.
Qed.

Lemma encode_number_returns (extra : nat) (charset : jsstring) (fuel : nat)
    (negative : bool) (n : Z) :
  0 <= n ->
  2 * n + BasePhi.Phi extra < Z.of_nat fuel ->
  exists r, BasePhi.encode_number extra charset fuel negative n = Ok r.
Proof.
  intros Hn Hf. unfold BasePhi.encode_number.
  destruct ((n =? 0) || (n =? Big.one extra)); [eexists; reflexivity|].
  pose proof (one_pos extra) as H1. pose proof (Phi_bounds extra) as HP.
  destruct (highest_exp_returns fuel n (Big.one extra) (BasePhi.Phi extra) 0
              ltac:(lia) ltac:(lia)) as [last [cur [exp [Hrun [Hpos Hmax]]]]].
  rewrite Hrun. cbn [bind].
  destruct (reduceN_returns extra fuel fuel
              {| BasePhi.n := n; BasePhi.exponents := []; BasePhi.decExponents := [];
                 BasePhi.warned := false |} last cur exp)
    as [v Hv]; cbn [BasePhi.n]; try lia.
  rewrite Hv. cbn [bind]. eexists; reflexivity.
Qed.

(** ** Base phi: the radix point *)

Lemma write_decExponents_keep (charset : jsstring) (c : ascii) (decs : list Z) :
  forall state,
    In c (fst state) ->
    In c (fst (fold_left (BasePhi.write_decExponent charset) decs state)).
Proof.
  induction decs as [|d decs IH]; intros [output exp] H; [exact H|].
  cbn [fold_left]. apply IH. unfold BasePhi.write_decExponent. cbn [fst].
  apply in_or_app. left. exact H.
Qed.

Lemma encode_number_radix_point (extra : nat) (charset : jsstring) (fuel : nat)
    (negative : bool) (n : Z) (s : jsstring) (w : bool) :
  n <> 0 -> n <> Big.one extra ->
  BasePhi.encode_number extra charset fuel negative n = Ok (s, w) ->
  In "."%char s.
Proof.
  intros H0 H1 H. unfold BasePhi.encode_number in H.
  destruct (Z.eqb_spec n 0); [contradiction|].
  destruct (Z.eqb_spec n (Big.one extra)); [contradiction|]. cbn [orb] in H.
  bind_inv H. destruct a as [[last cur] exp]. bind_inv H.
  inversion H as [[Hs Hw]]. clear H Hs Hw.
  assert (Hin : In "."%char
                  (fst (fold_left (BasePhi.write_decExponent charset)
                          (BasePhi.decExponents a)
                          (match fst (fold_left (BasePhi.write_exponent charset)
                                        (BasePhi.exponents a) ([], 0)) with
                           | [] => str "0."
                           | _ => fst (fold_left (BasePhi.write_exponent charset)
                                         (BasePhi.exponents a) ([], 0)) ++ str "."
                           end, -1)))).
  { apply write_decExponents_keep. cbn [fst].
    destruct (fst (fold_left (BasePhi.write_exponent charset) (BasePhi.exponents a) ([], 0))).
    - right. left. reflexivity.
    - apply in_or_app. right. left. reflexivity. }
  destruct negative; [right; exact Hin | exact Hin].
Qed.

Lemma encode_number_zero_one (extra : nat) (fuel : nat) (negative : bool) (n : Z) :
  n = 0 \/ n = Big.one extra ->
  exists s,
    BasePhi.encode_number extra BasePhi.default_charset fuel negative n = Ok (s, false)
    /\ ~ In "."%char s.
Proof.
  pose proof (one_pos extra) as H1.
  intros [-> | ->]; unfold BasePhi.encode_number.
  - cbn [Z.eqb orb]. unfold Big.to_integer. rewrite Z.quot_0_l by lia.
    eexists. split; [reflexivity|].
    destruct negative; cbn; intros H; repeat (destruct H as [H|H]; [discriminate H|]); exact H.
  - rewrite Z.eqb_refl, orb_true_r. unfold Big.to_integer. rewrite Z.quot_same by lia.
    eexists. split; [reflexivity|].
    destruct negative; cbn; intros H; repeat (destruct H as [H|H]; [discriminate H|]); exact H.
Qed.

(** [encode] on an integer: the number is the magnitude, as a Big. *)
Lemma encode_phi_integer (extra : nat) (charset : jsstring) (fuel : nat)
    (input : SmartInput.input) (v : Z) :
  integer_input input v ->
  BasePhi.encode extra charset fuel input
  = bind (BasePhi.encode_number extra charset fuel (v <? 0)
            (Big.of_integer extra (Z.abs v)))
      (fun encoded => Ok (fst encoded)).
Proof.
  intros Hin.
  destruct (toBytes_integer input v false Hin) as [bytes [Hrun Hval]].
  unfold BasePhi.encode. rewrite Hrun. cbn [bind].
  unfold BasePhi.b10. rewrite encode_base10. cbn [bind fst].
  rewrite Hval, BigInt_of_string_toString by apply Z.abs_nonneg.
  reflexivity.
Qed.

(** C10: with the default charset, the string [encode] returns has a radix
    point exactly when the magnitude is neither 0 nor 1. This for every
    magnitude [n >= 0] given as a Big (decimal mode; [encode] returns the
    same string [s] for every fuel above [2 n + Phi]), and for every
    integer input [v], where it says: a radix point exactly when
    [|v| >= 2]. With any charset a magnitude other than 0 and 1 gives a
    string with a radix point. *)
Theorem C10_radix_point (extra : nat) (negative : bool) (n : Z) :
  0 <= n ->
  (exists s w,
      (forall fuel, 2 * n + BasePhi.Phi extra < Z.of_nat fuel ->
                    BasePhi.encode_number extra BasePhi.default_charset fuel negative n
                    = Ok (s, w))
      /\ (In "."%char s <-> n <> 0 /\ n <> Big.one extra))
  /\ (forall input v,
         integer_input input v ->
         exists s,
           (forall fuel,
               2 * Big.of_integer extra (Z.abs v) + BasePhi.Phi extra < Z.of_nat fuel ->
               BasePhi.encode extra BasePhi.default_charset fuel input = Ok s)
           /\ (In "."%char s <-> 2 <= Z.abs v))
  /\ (forall charset fuel s w,
         n <> 0 -> n <> Big.one extra ->
         BasePhi.encode_number extra charset fuel negative n = Ok (s, w) ->
         In "."%char s).
Proof.
  intros Hn.
  assert (Hbig : forall negative n, 0 <= n ->
            exists s w,
              (forall fuel, 2 * n + BasePhi.Phi extra < Z.of_nat fuel ->
                            BasePhi.encode_number extra BasePhi.default_charset fuel negative n
                            = Ok (s, w))
              /\ (In "."%char s <-> n <> 0 /\ n <> Big.one extra)).
  { clear. intros negative n Hn.
    pose proof (Phi_bounds extra) as HP. pose proof (one_pos extra) as H1.
    set (fuel0 := S (Z.to_nat (2 * n + BasePhi.Phi extra))).
    destruct (encode_number_returns extra BasePhi.default_charset fuel0 negative n Hn
                ltac:(unfold fuel0; lia)) as [[s w] Hrun].
    exists s, w. split.
    - intros fuel Hf.
      apply (encode_number_mono extra BasePhi.default_charset fuel0 fuel);
        [unfold fuel0; lia | exact Hrun].
    - split.
      + intros Hin.
        destruct (Z.eq_dec n 0) as [E|E0];
          [|destruct (Z.eq_dec n (Big.one extra)) as [E|E1]; [|split; assumption]].
        * destruct (encode_number_zero_one extra fuel0 negative n (or_introl E))
            as [s' [Hrun' Hno]].
          rewrite Hrun in Hrun'. inversion Hrun'; subst. contradiction.
        * destruct (encode_number_zero_one extra fuel0 negative n (or_intror E))
            as [s' [Hrun' Hno]].
          rewrite Hrun in Hrun'. inversion Hrun'; subst. contradiction.
      + intros [E0 E1].
        apply (encode_number_radix_point extra BasePhi.default_charset fuel0 negative n s w);
          assumption. }
  split; [apply Hbig; exact Hn|]. split.
  - intros input v Hin.
    pose proof (one_pos extra) as H1.
    destruct (Hbig (v <? 0) (Big.of_integer extra (Z.abs v))) as [s [w [Hrun Hpoint]]].
    { unfold Big.of_integer. pose proof (Z.abs_nonneg v). nia. }
    exists s. split.
    + intros fuel Hf. rewrite (encode_phi_integer extra _ fuel input v Hin).
      rewrite (Hrun fuel Hf). reflexivity.
    + rewrite Hpoint. unfold Big.of_integer. pose proof (Z.abs_nonneg v). split.
      * intros [E0 E1]. destruct (Z.eq_dec (Z.abs v) 0); [nia|].
        destruct (Z.eq_dec (Z.abs v) 1) as [E|]; [rewrite E in E1; lia | lia].
      * intros Hv. split; nia.
  - intros charset fuel s w E0 E1 H.
    apply (encode_number_radix_point extra charset fuel negative n s w); assumption.
Qed.

Lemma C10_radix_point_witness :
  exists s,
    (forall fuel,
        2 * Big.of_integer 0 (Z.abs 12) + BasePhi.Phi 0 < Z.of_nat fuel ->
        BasePhi.encode 0 BasePhi.default_charset fuel (SmartInput.Number 12) = Ok s)
    /\ In "."%char s.
Proof.
  destruct (C10_radix_point 0 false 0 ltac:(lia)) as [_ [H _]].
  destruct (H (SmartInput.Number 12) 12) as [s [Hrun Hpoint]].
  - right. split; [reflexivity | vm_compute; split; discriminate].
  - exists s. split; [exact Hrun | apply Hpoint; simpl; lia].
Defined.

(** ** Base phi: the powers of Phi *)

Lemma prev_next_pair (p : Z * Z) : prev_pair (next_pair p) = p.
Proof.
  destruct p as [a b]. unfold prev_pair, next_pair, BasePhi.prevPhiExp, BasePhi.nextPhiExp.
  cbn [fst snd]. f_equal. lia.
Qed.

Lemma next_prev_pair (p : Z * Z) : next_pair (prev_pair p) = p.
Proof.
  destruct p as [a b]. unfold prev_pair, next_pair, BasePhi.prevPhiExp, BasePhi.nextPhiExp.
  cbn [fst snd]. f_equal. lia.
Qed.

Lemma phi_pair_succ (k : Z) : phi_pair (k + 1) = next_pair (phi_pair k).
Proof.
  unfold phi_pair.
  destruct (Z.leb_spec 0 k) as [Hk|Hk].
  - destruct (Z.leb_spec 0 (k + 1)); [|lia].
    replace (Z.to_nat (k + 1)) with (S (Z.to_nat k)) by lia. reflexivity.
  - destruct (Z.leb_spec 0 (k + 1)) as [Hk1|Hk1].
    + assert (k = -1) by lia. subst k. cbn [Z.add Z.to_nat Nat.iter Z.opp Pos.to_nat Pos.iter_op].
      change (Z.to_nat (-1 + 1)) with 0%nat. cbn [Nat.iter].
      change (Z.to_nat (- -1)) with 1%nat. cbn [Nat.iter].
      symmetry. apply next_prev_pair.
    + replace (Z.to_nat (- k)) with (S (Z.to_nat (- (k + 1)))) by lia.
      cbn [Nat.iter]. symmetry. apply next_prev_pair.
Qed.

Lemma phi_pair_pred (k : Z) : phi_pair (k - 1) = prev_pair (phi_pair k).
Proof.
  replace k with (k - 1 + 1) at 2 by lia.
  rewrite phi_pair_succ, prev_next_pair. reflexivity.
Qed.

Lemma phi_pair_powers (k : Z) : phi_pair k = (phi_power k, phi_power (k + 1)).
Proof.
  unfold phi_power. rewrite phi_pair_succ.
  destruct (phi_pair k) as [a b]. reflexivity.
Qed.

Lemma phi_power_rec (k : Z) : phi_power (k + 1) = phi_power k + phi_power (k - 1).
Proof.
  pose proof (phi_pair_succ k) as H.
  rewrite (phi_pair_powers (k + 1)), (phi_pair_powers k) in H.
  unfold next_pair, BasePhi.nextPhiExp in H. cbn [fst snd] in H.
  pose proof (phi_pair_pred k) as H'.
  rewrite (phi_pair_powers (k - 1)), (phi_pair_powers k) in H'.
  unfold prev_pair, BasePhi.prevPhiExp in H'. cbn [fst snd] in H'.
  inversion H as [[H1 H2]]. inversion H' as [[H3 H4]]. lia.
Qed.

Lemma phi_power_0 : phi_power 0 = Big.one 0.
Proof. reflexivity. Qed.

Lemma phi_power_1 : phi_power 1 = BasePhi.Phi 0.
Proof. reflexivity. Qed.

Lemma increasing_below_0 :
  forallb (fun i => increasing_at (- Z.of_nat i)) (seq 0 251) = true.
Proof. vm_compute. reflexivity. Qed.

Lemma phi_power_increasing (k : Z) :
  lowest <= k -> 0 < phi_power k < phi_power (k + 1).
Proof.
  intros Hk.
  assert (Hneg : forall j, lowest <= j <= 0 -> 0 < phi_power j < phi_power (j + 1)).
  { intros j Hj. pose proof increasing_below_0 as H.
    rewrite forallb_forall in H. specialize (H (Z.to_nat (- j))).
    unfold lowest in Hj.
    rewrite Z2Nat.id in H by lia. replace (- - j) with j in H by lia.
    assert (Hin : In (Z.to_nat (- j)) (seq 0 251)) by (apply in_seq; lia).
    specialize (H Hin). unfold increasing_at in H.
    apply andb_prop in H. destruct H as [H1 H2].
    apply Z.ltb_lt in H1. apply Z.ltb_lt in H2. lia. }
  destruct (Z.le_gt_cases k 0) as [Hle|Hgt]; [apply Hneg; lia|].
  assert (Hpos : forall m : nat, 0 < phi_power (Z.of_nat m) < phi_power (Z.of_nat m + 1)).
  { induction m as [|m IH]; [apply Hneg; unfold lowest; lia|].
    rewrite Nat2Z.inj_succ. unfold Z.succ.
    rewrite (phi_power_rec (Z.of_nat m + 1)).
    replace (Z.of_nat m + 1 - 1) with (Z.of_nat m) by lia. lia. }
  specialize (Hpos (Z.to_nat k)). rewrite Z2Nat.id in Hpos by lia. exact Hpos.
Qed.

Lemma phi_power_monotone (a b : Z) :
  lowest <= a -> a <= b -> phi_power a <= phi_power b.
Proof.
  intros Ha Hab.
  replace b with (a + Z.of_nat (Z.to_nat (b - a))) by lia.
  induction (Z.to_nat (b - a)) as [|m IH]; [rewrite Z.add_0_r; lia|].
  rewrite Nat2Z.inj_succ. unfold Z.succ. rewrite Z.add_assoc.
  pose proof (phi_power_increasing (a + Z.of_nat m) ltac:(lia)). lia.
Qed.

Lemma phi_power_lt_inv (a b : Z) :
  lowest <= a -> lowest <= b -> phi_power a < phi_power b -> a < b.
Proof.
  intros Ha Hb H. destruct (Z.lt_ge_cases a b) as [|Hge]; [assumption|].
  pose proof (phi_power_monotone b a Hb Hge). lia.
Qed.

(** The number is approximately null when its double is below 10^-50. *)
Lemma approxNull_spec (x : Z) :
  BasePhi.approxNull 0 x = (2 * Z.abs x <? 10 ^ 70).
Proof.
  unfold BasePhi.approxNull, Big.round, Big.places.
  change (120 + Z.of_nat 0 - 50) with 70.
  set (q := 10 ^ 70). assert (Hq : 0 < q) by (unfold q; lia).
  destruct (Z.ltb_spec (2 * Z.abs x) q) as [Hs|Hb].
  - rewrite (Z.div_small (2 * Z.abs x + q) (2 * q)) by lia.
    rewrite Z.mul_0_r, Z.mul_0_l. reflexivity.
  - assert (1 <= (2 * Z.abs x + q) / (2 * q)).
    { apply Z.div_le_lower_bound; lia. }
    assert (Z.sgn x <> 0) by (pose proof (Z.sgn_null_iff x); lia).
    apply Z.eqb_neq.
    assert (Z.sgn x = 1 \/ Z.sgn x = -1) by (pose proof (Z.sgn_spec x); lia).
    nia.
Qed.

Lemma lowest_power_small :
  2 * phi_power lowest < 10 ^ 70 /\ 2 * phi_power (lowest + 1) < 10 ^ 70.
Proof. split; vm_compute; reflexivity. Qed.

(** ** Base phi: the greedy reduction *)

Lemma highest_exp_good (fuel : nat) :
  forall n k,
    0 <= k ->
    n - phi_power (k + 1) < Z.of_nat fuel ->
    exists k',
      BasePhi.highest_exp fuel n (phi_power k) (phi_power (k + 1)) k
      = Ok (phi_power k', phi_power (k' + 1), k')
      /\ k <= k' /\ n <= phi_power (k' + 1)
      /\ (k' = k \/ phi_power k' < n).
Proof.
  induction fuel as [|fuel IH]; intros n k Hk Hf;
    cbn [BasePhi.highest_exp];
    destruct (Z.ltb_spec (phi_power (k + 1)) n) as [Hlt|Hge]; try lia.
  - exists k. split; [reflexivity | lia].
  - unfold BasePhi.nextPhiExp.
    pose proof (phi_power_increasing k ltac:(unfold lowest; lia)) as Hinc.
    replace (phi_power k + phi_power (k + 1)) with (phi_power (k + 1 + 1))
      by (rewrite (phi_power_rec (k + 1)); replace (k + 1 - 1) with k by lia; lia).
    destruct (IH n (k + 1) ltac:(lia)) as [k' [Hrun [Hk' [Hn Hor]]]].
    { rewrite (phi_power_rec (k + 1)). replace (k + 1 - 1) with k by lia. lia. }
    exists k'. split; [exact Hrun|]. split; [lia|]. split; [exact Hn|].
    right. destruct Hor as [->|H]; [exact Hlt | exact H].
  - exists k. split; [reflexivity | lia].
Qed.

Lemma fitting_exp_good (fuel : nat) :
  forall n k,
    lowest <= k ->
    phi_power lowest <= n ->
    k - lowest < Z.of_nat fuel ->
    exists k',
      BasePhi.fitting_exp fuel n (phi_power k) (phi_power (k + 1)) k
      = Ok (Some (phi_power k', phi_power (k' + 1), k'))
      /\ lowest <= k' <= k
      /\ phi_power k' <= n
      /\ (k' = k \/ n < phi_power (k' + 1)).
Proof.
  induction fuel as [|fuel IH]; intros n k Hk Hn Hf; [lia|].
  cbn [BasePhi.fitting_exp].
  destruct (Z.ltb_spec n (phi_power k)) as [Hlt|Hge].
  - assert (Hk' : lowest < k).
    { destruct (Z.eq_dec k lowest) as [->|]; [lia | lia]. }
    unfold BasePhi.prevPhiExp.
    replace (phi_power (k + 1) - phi_power k) with (phi_power (k - 1))
      by (rewrite (phi_power_rec k); lia).
    pose proof (phi_power_increasing (k - 1) ltac:(lia)) as Hinc.
    destruct (Z.leb_spec (phi_power (k - 1)) 0) as [Hz|Hz]; [lia|].
    destruct (IH n (k - 1) ltac:(lia) Hn ltac:(lia)) as [k' [Hrun [Hr [Hle Hor]]]].
    replace (k - 1 + 1) with k in Hrun by lia.
    exists k'. split; [exact Hrun|]. split; [lia|]. split; [exact Hle|].
    right. destruct Hor as [->|H]; [replace (k - 1 + 1) with k by lia; exact Hlt | exact H].
  - exists k. split; [reflexivity|]. split; [lia|]. split; [lia | left; reflexivity].
Qed.

Lemma sum_powers_app (l l' : list Z) :
  sum_powers (l ++ l') = sum_powers l + sum_powers l'.
Proof.
  induction l as [|e l IH]; [reflexivity|].
  cbn [app]. unfold sum_powers in *. cbn [fold_right]. rewrite IH. lia.
Qed.

Lemma ascending_above (exps : list Z) :
  forall lo lo', ascending lo exps -> (forall e, In e exps -> lo' <= e) -> ascending lo' exps.
Proof.
  destruct exps as [|e rest]; intros lo lo' H Hall; [exact I|].
  destruct H as [_ H]. split; [apply Hall; left; reflexivity | exact H].
Qed.

Lemma descending_snoc (exps : list Z) :
  forall hi e, descending hi exps -> e <= hi -> (forall x, In x exps -> e < x) ->
    descending hi (exps ++ [e]).
Proof.
  induction exps as [|x rest IH]; intros hi e H He Hall.
  - split; [exact He | exact I].
  - destruct H as [Hx H]. split; [exact Hx|].
    apply IH; [exact H | | intros y Hy; apply Hall; right; exact Hy].
    specialize (Hall x (or_introl eq_refl)). lia.
Qed.

Lemma reduceN_good (n0 : Z) (rounds : nat) (fuel : nat) :
  forall v k b,
    reducing n0 v k b ->
    k - lowest < Z.of_nat rounds ->
    b - lowest < Z.of_nat fuel ->
    exists v',
      BasePhi.reduceN 0 rounds fuel v (phi_power k) (phi_power (k + 1)) k = Ok v'
      /\ reduced n0 v'.
Proof.
  induction fuel as [|fuel IH]; intros v k b Hred Hrounds Hfuel.
  - destruct Hred. lia.
  - cbn [BasePhi.reduceN]. rewrite approxNull_spec.
    destruct Hred as [Hn Hk Hnext Hexps Hdecs Habove Hempty Hsum Hw].
    rewrite Z.abs_eq by lia.
    destruct (Z.ltb_spec (2 * BasePhi.n v) (10 ^ 70)) as [Hnull|Hbig].
    + exists v. split; [reflexivity|]. constructor; auto; try lia.
      apply (ascending_above _ (Z.max b 0)); [exact Hexps|].
      intros e He. clear - Hexps He.
      destruct (BasePhi.exponents v) as [|x rest]; [destruct He|].
      destruct Hexps as [Hx Hrest]. destruct He as [<-|He]; [lia|].
      assert (Hgen : forall l lo y, ascending lo l -> In y l -> lo <= y).
      { clear. induction l as [|z l IH]; intros lo y H Hy; [destruct Hy|].
        destruct H as [Hz H]. destruct Hy as [<-|Hy]; [exact Hz|].
        specialize (IH (z + 1) y H Hy). lia. }
      specialize (Hgen rest (x + 1) e Hrest He). lia.
    + destruct lowest_power_small as [Hsmall Hsmall'].
      destruct (fitting_exp_good rounds (BasePhi.n v) k ltac:(lia) ltac:(lia) Hrounds)
        as [k' [Hrun [Hk' [Hle Hor]]]].
      rewrite Hrun. cbn [bind].
      pose proof (phi_power_increasing k' ltac:(lia)) as Hinc'.
      assert (Hlt : k' < b).
      { destruct Hnext as [Hnb | ->]; [|lia].
        apply phi_power_lt_inv; lia. }
      assert (Hn' : BasePhi.n v - phi_power k' < phi_power k').
      { assert (BasePhi.n v <= phi_power (k' + 1)).
        { destruct Hor as [->|H]; [exact (proj2 Hn) | lia]. }
        pose proof (phi_power_increasing (k' - 1)) as Hinc''.
        destruct (Z.eq_dec k' lowest) as [E|E].
        - exfalso. rewrite E in H. lia.
        - rewrite (phi_power_rec k') in H. specialize (Hinc'' ltac:(lia)). replace (k' - 1 + 1) with k' in Hinc'' by lia. lia. }
      apply (IH _ k' k'); [|lia|lia].
      constructor; cbn [BasePhi.n BasePhi.exponents BasePhi.decExponents BasePhi.warned].
      * lia.
      * lia.
      * left. exact Hn'.
      * destruct (Z.ltb_spec (-1) k') as [Hpos|Hneg].
        -- split; [lia|].
           apply (ascending_above _ (Z.max b 0)); [exact Hexps|].
           intros e He.
           assert (Hgen : forall l lo y, ascending lo l -> In y l -> lo <= y).
           { clear. induction l as [|z l IH]; intros lo y H Hy; [destruct Hy|].
             destruct H as [Hz H]. destruct Hy as [<-|Hy]; [exact Hz|].
             specialize (IH (z + 1) y H Hy). lia. }
           specialize (Hgen _ _ e Hexps He). lia.
        -- apply (ascending_above _ (Z.max b 0)); [exact Hexps|].
           intros e He.
           assert (Hgen : forall l lo y, ascending lo l -> In y l -> lo <= y).
           { clear. induction l as [|z l IH]; intros lo y H Hy; [destruct Hy|].
             destruct H as [Hz H]. destruct Hy as [<-|Hy]; [exact Hz|].
             specialize (IH (z + 1) y H Hy). lia. }
           specialize (Hgen _ _ e Hexps He). lia.
      * destruct (Z.ltb_spec (-1) k') as [Hpos|Hneg]; [exact Hdecs|].
        apply descending_snoc; [exact Hdecs | lia |].
        intros x Hx. specialize (Habove x Hx). lia.
      * destruct (Z.ltb_spec (-1) k') as [Hpos|Hneg].
        -- rewrite Hempty by lia. intros e He. destruct He.
        -- intros e He. apply in_app_or in He.
           destruct He as [He|[<-|Hf]]; [|lia|destruct Hf].
           specialize (Habove e He). lia.
      * intros Hk0. destruct (Z.ltb_spec (-1) k') as [Hpos|Hneg]; [|lia].
        apply Hempty. lia.
      * destruct (Z.ltb_spec (-1) k') as [Hpos|Hneg].
        -- unfold sum_powers in *. cbn [fold_right]. lia.
        -- rewrite sum_powers_app. unfold sum_powers in *. cbn [fold_right]. lia.
      * exact Hw.
Qed.

(** ** Base phi: writing and reading the digits *)

Lemma concat_repeat_char (c : ascii) (k : nat) : List.concat (repeat [c] k) = repeat c k.
Proof. induction k as [|k IH]; [reflexivity|]. cbn [repeat List.concat app]. rewrite IH. reflexivity. Qed.

Lemma rev_repeat_char (c : ascii) (k : nat) : rev (repeat c k) = repeat c k.
Proof.
  induction k as [|k IH]; [reflexivity|].
  cbn [repeat rev]. rewrite IH. symmetry. apply repeat_cons.
Qed.

Lemma write_exponents_string (exps : list Z) :
  forall output exp,
    ascending exp exps ->
    fst (fold_left (BasePhi.write_exponent BasePhi.default_charset) exps (output, exp))
    = rev (up_string exps exp) ++ output.
Proof.
  induction exps as [|e rest IH]; intros output exp Hasc; [reflexivity|].
  destruct Hasc as [He Hrest].
  cbn [fold_left BasePhi.write_exponent up_string].
  change (char_at BasePhi.default_charset 0) with ["0"%char].
  change (char_at BasePhi.default_charset 1) with ["1"%char].
  rewrite concat_repeat_char, Z.max_r by lia.
  rewrite IH by exact Hrest.
  rewrite rev_app_distr. cbn [rev]. rewrite rev_repeat_char, <- !app_assoc.
  reflexivity.
Qed.

Lemma write_decExponents_string (decs : list Z) :
  forall output exp,
    descending exp decs ->
    fst (fold_left (BasePhi.write_decExponent BasePhi.default_charset) decs (output, exp))
    = output ++ down_string decs exp.
Proof.
  induction decs as [|d rest IH]; intros output exp Hdesc.
  - cbn. rewrite app_nil_r. reflexivity.
  - destruct Hdesc as [Hd Hrest].
    cbn [fold_left BasePhi.write_decExponent down_string].
    change (char_at BasePhi.default_charset 0) with ["0"%char].
    change (char_at BasePhi.default_charset 1) with ["1"%char].
    rewrite concat_repeat_char, Z.min_r by lia.
    rewrite IH by exact Hrest. rewrite <- !app_assoc. reflexivity.
Qed.

Lemma up_string_binary (exps : list Z) : forall exp, Forall binary_digit (up_string exps exp).
Proof.
  induction exps as [|e rest IH]; intros exp; [constructor|].
  cbn [up_string]. apply Forall_app. split.
  - apply Forall_forall. intros x Hx. apply repeat_spec in Hx. left; exact Hx.
  - constructor; [right; reflexivity | apply IH].
Qed.

Lemma down_string_binary (decs : list Z) : forall exp, Forall binary_digit (down_string decs exp).
Proof.
  induction decs as [|e rest IH]; intros exp; [constructor|].
  cbn [down_string]. apply Forall_app. split.
  - apply Forall_forall. intros x Hx. apply repeat_spec in Hx. left; exact Hx.
  - constructor; [right; reflexivity | apply IH].
Qed.

Lemma digit_value_binary (ch : ascii) (n cur : Z) :
  binary_digit ch ->
  BasePhi.digit_value BasePhi.default_charset ch n cur
  = Ok (n + if Ascii.eqb ch "1"%char then cur else 0).
Proof.
  intros [-> | ->]; cbn; f_equal; lia.
Qed.

Lemma sum_up_value (t : jsstring) :
  forall j n,
    Forall binary_digit t ->
    BasePhi.sum_up BasePhi.default_charset t n (phi_power (j - 1)) (phi_power j)
    = Ok (n + value_up t j).
Proof.
  induction t as [|ch rest IH]; intros j n Hbin.
  - cbn. f_equal. lia.
  - inversion Hbin as [|? ? Hch Hrest]; subst.
    cbn [BasePhi.sum_up value_up]. rewrite digit_value_binary by exact Hch.
    cbn [bind]. unfold BasePhi.nextPhiExp.
    replace (phi_power (j - 1) + phi_power j) with (phi_power (j + 1))
      by (rewrite (phi_power_rec j); lia).
    replace (phi_power j) with (phi_power (j + 1 - 1)) at 2 by (f_equal; lia).
    rewrite IH by exact Hrest. replace (j + 1 - 1) with j by lia. f_equal. lia.
Qed.

Lemma sum_down_value (t : jsstring) :
  forall j n,
    Forall binary_digit t ->
    BasePhi.sum_down BasePhi.default_charset t n (phi_power j) (phi_power (j + 1))
    = Ok (n + value_down t j).
Proof.
  induction t as [|ch rest IH]; intros j n Hbin.
  - cbn. f_equal. lia.
  - inversion Hbin as [|? ? Hch Hrest]; subst.
    cbn [BasePhi.sum_down value_down]. rewrite digit_value_binary by exact Hch.
    cbn [bind]. unfold BasePhi.prevPhiExp.
    replace (phi_power (j + 1) - phi_power j) with (phi_power (j - 1))
      by (rewrite (phi_power_rec j); lia).
    replace (phi_power j) with (phi_power (j - 1 + 1)) at 2 by (f_equal; lia).
    rewrite IH by exact Hrest. f_equal. lia.
Qed.

Lemma value_up_zeros (k : nat) (t : jsstring) :
  forall j, value_up (repeat "0"%char k ++ t) j = value_up t (j + Z.of_nat k).
Proof.
  induction k as [|k IH]; intros j.
  - cbn [repeat app]. f_equal. lia.
  - cbn [repeat app value_up]. rewrite IH. cbn. f_equal. lia.
Qed.

Lemma value_down_zeros (k : nat) (t : jsstring) :
  forall j, value_down (repeat "0"%char k ++ t) j = value_down t (j - Z.of_nat k).
Proof.
  induction k as [|k IH]; intros j.
  - cbn [repeat app]. f_equal. lia.
  - cbn [repeat app value_down]. rewrite IH. cbn. f_equal. lia.
Qed.

Lemma value_up_string (exps : list Z) :
  forall exp, ascending exp exps -> value_up (up_string exps exp) exp = sum_powers exps.
Proof.
  induction exps as [|e rest IH]; intros exp Hasc; [reflexivity|].
  destruct Hasc as [He Hrest].
  cbn [up_string]. rewrite value_up_zeros. cbn [value_up].
  rewrite Z2Nat.id by lia. replace (exp + (e - exp)) with e by lia.
  rewrite (IH (e + 1) Hrest). reflexivity.
Qed.

Lemma value_down_string (decs : list Z) :
  forall exp, descending exp decs -> value_down (down_string decs exp) exp = sum_powers decs.
Proof.
  induction decs as [|d rest IH]; intros exp Hdesc; [reflexivity|].
  destruct Hdesc as [Hd Hrest].
  cbn [down_string]. rewrite value_down_zeros. cbn [value_down].
  rewrite Z2Nat.id by lia. replace (exp - (exp - d)) with d by lia.
  rewrite (IH (d - 1) Hrest). reflexivity.
Qed.

Lemma split_point_none (t : jsstring) :
  forall field, Forall binary_digit t -> BasePhi.split_point t field = [field ++ t].
Proof.
  induction t as [|ch rest IH]; intros field Hbin.
  - cbn. rewrite app_nil_r. reflexivity.
  - inversion Hbin as [|? ? Hch Hrest]; subst.
    cbn [BasePhi.split_point].
    assert (E : Ascii.eqb ch "."%char = false) by (destruct Hch as [-> | ->]; reflexivity).
    rewrite E, (IH _ Hrest), <- app_assoc. reflexivity.
Qed.

Lemma split_point_one (t t' : jsstring) :
  forall field,
    Forall binary_digit t -> Forall binary_digit t' ->
    BasePhi.split_point (t ++ "."%char :: t') field = [field ++ t; t'].
Proof.
  induction t as [|ch rest IH]; intros field Hbin Hbin'.
  - cbn [app BasePhi.split_point]. change (Ascii.eqb "." ".") with true. cbv iota.
    rewrite (split_point_none t' [] Hbin'), app_nil_r. reflexivity.
  - inversion Hbin as [|? ? Hch Hrest]; subst.
    cbn [app BasePhi.split_point].
    assert (E : Ascii.eqb ch "."%char = false) by (destruct Hch as [-> | ->]; reflexivity).
    rewrite E, (IH _ Hrest Hbin'), <- app_assoc. reflexivity.
Qed.

(** Reading what was written: the sum of the powers at the exponents. *)
Lemma decode_number_written (normalizeInput : jsstring -> jsstring)
    (exps decs : list Z) (negative : bool) :
  (forall s, Forall (fun c => In c (str "-.01")) s -> normalizeInput s = s) ->
  ascending 0 exps ->
  descending (-1) decs ->
  let output := fst (fold_left (BasePhi.write_exponent BasePhi.default_charset) exps ([], 0)) in
  let output := match output with [] => str "0." | _ => output ++ str "." end in
  let output := fst (fold_left (BasePhi.write_decExponent BasePhi.default_charset) decs
                       (output, -1)) in
  BasePhi.decode_number 0 BasePhi.default_charset normalizeInput
    (if negative then "-"%char :: output else output)
  = Ok (sum_powers exps + sum_powers decs, negative).
Proof.
  intros Hnorm Hasc Hdesc. cbv zeta.
  assert (Hup : fst (fold_left (BasePhi.write_exponent BasePhi.default_charset) exps ([], 0))
                = rev (up_string exps 0)).
  { rewrite <- (app_nil_r (rev (up_string exps 0))).
    exact (write_exponents_string exps [] 0 Hasc). }
  rewrite Hup.
  set (I := match rev (up_string exps 0) with
            | [] => ["0"%char]
            | _ => rev (up_string exps 0)
            end).
  assert (HI : match rev (up_string exps 0) with
               | [] => str "0."
               | _ :: _ => rev (up_string exps 0) ++ str "."
               end = I ++ ["."%char]).
  { unfold I. destruct (rev (up_string exps 0)); reflexivity. }
  rewrite HI, (write_decExponents_string decs _ (-1) Hdesc), <- app_assoc.
  cbn [app].
  assert (HbinI : Forall binary_digit I).
  { unfold I. destruct (rev (up_string exps 0)) eqn:E.
    - constructor; [left; reflexivity | constructor].
    - rewrite <- E. apply Forall_rev, up_string_binary. }
  pose proof (down_string_binary decs (-1)) as HbinF.
  assert (HvalI : value_up (rev I) 0 = sum_powers exps).
  { unfold I. destruct (rev (up_string exps 0)) eqn:E.
    - destruct exps as [|e rest]; [reflexivity|].
      exfalso. apply (f_equal (@List.length ascii)) in E.
      rewrite length_rev in E. cbn [up_string] in E. rewrite length_app in E.
      simpl in E. lia.
    - rewrite <- E, rev_involutive. apply value_up_string. exact Hasc. }
  set (F := down_string decs (-1)) in *.
  unfold BasePhi.decode_number.
  set (s := if negative then _ else _).
  assert (Hchars : Forall (fun c => In c (str "-.01")) s).
  { assert (Hb : forall l, Forall binary_digit l -> Forall (fun c => In c (str "-.01")) l).
    { intros l Hl. eapply Forall_impl; [|exact Hl].
      intros c [-> | ->]; cbn; tauto. }
    assert (Forall (fun c => In c (str "-.01")) (I ++ "."%char :: F)).
    { apply Forall_app. split; [apply Hb; exact HbinI|].
      constructor; [cbn; tauto | apply Hb; exact HbinF]. }
    unfold s. destruct negative; [constructor; [cbn; tauto | assumption] | assumption]. }
  rewrite (Hnorm s Hchars).
  assert (Hsign : extractSign s = (I ++ "."%char :: F, negative)).
  { unfold s. destruct negative; [reflexivity|].
    destruct I as [|ch I'] eqn:EI.
    - exfalso. unfold I in EI. destruct (rev (up_string exps 0)); discriminate.
    - inversion HbinI as [|? ? Hch _]; subst.
      destruct Hch as [-> | ->]; reflexivity. }
  rewrite Hsign, (split_point_one I F [] HbinI HbinF).
  cbn [app nth nth_error].
  change (BasePhi.Phi 0 - Big.one 0) with (phi_power (0 - 1)).
  change (Big.one 0) with (phi_power 0) at 1.
  rewrite (sum_up_value (rev I) 0 0) by (apply Forall_rev; exact HbinI).
  cbn [bind]. rewrite HvalI.
  destruct F as [|c F'] eqn:EF.
  - cbn [bind]. f_equal. f_equal.
    destruct decs as [|d rest]; [cbn; lia|].
    exfalso. unfold F in EF. cbn [down_string] in EF.
    apply (f_equal (@List.length ascii)) in EF. rewrite length_app in EF. simpl in EF. lia.
  - change (phi_power (0 - 1)) with (phi_power (-1)).
    change (Big.one 0) with (phi_power (-1 + 1)).
    rewrite (sum_down_value (c :: F') (-1)) by exact HbinF.
    cbn [bind]. f_equal. f_equal. rewrite <- EF. unfold F.
    rewrite (value_down_string decs (-1) Hdesc). lia.
Qed.

(** ** Base phi: the round trip *)

Lemma phi_power_above (k : Z) : 0 <= k -> k < phi_power k.
Proof.
  intros Hk. pattern k. apply natlike_ind; [| |exact Hk].
  - rewrite phi_power_0. apply one_pos.
  - intros x Hx IH. pose proof (phi_power_increasing x ltac:(unfold lowest; lia)).
    unfold Z.succ. lia.
Qed.

Lemma round_near_integer (m n' : Z) :
  1 <= m -> 0 <= 2 * n' < 10 ^ 70 ->
  Big.to_integer 0 (Big.round 0 0 (Big.of_integer 0 m - n')) = m.
Proof.
  intros Hm Hn'. unfold Big.to_integer, Big.round, Big.of_integer, Big.one, Big.places.
  change (120 + Z.of_nat 0 - 0) with 120. change (120 + Z.of_nat 0) with 120.
  assert (HS : 10 ^ 70 <= 10 ^ 120) by (apply Z.pow_le_mono_r; lia).
  set (S := 10 ^ 120) in *. cbv zeta.
  assert (Hx : 0 < m * S - n') by nia.
  rewrite Z.sgn_pos, Z.abs_eq by lia.
  assert (E : (2 * (m * S - n') + S) / (2 * S) = m).
  { symmetry. apply (Z.div_unique_pos _ _ m (S - 2 * n')); lia. }
  rewrite E, Z.mul_1_l. apply Z.quot_mul. lia.
Qed.

Lemma encode_number_written (negative : bool) (m : Z) :
  2 <= m ->
  exists v,
    reduced (Big.of_integer 0 m) v
    /\ forall fuel,
         2 * Big.of_integer 0 m + BasePhi.Phi 0 < Z.of_nat fuel ->
         BasePhi.encode_number 0 BasePhi.default_charset fuel negative (Big.of_integer 0 m)
         = Ok (written negative v, false).
Proof.
  intros Hm.
  pose proof (one_pos 0) as Hone. pose proof (Phi_bounds 0) as HPhi.
  assert (Hn0 : 2 * Big.one 0 <= Big.of_integer 0 m) by (unfold Big.of_integer; nia).
  set (n0 := Big.of_integer 0 m) in *.
  set (fuel0 := S (Z.to_nat (2 * n0 + BasePhi.Phi 0))).
  assert (Hfuel0 : Z.of_nat fuel0 = 2 * n0 + BasePhi.Phi 0 + 1).
  { unfold fuel0. rewrite Nat2Z.inj_succ, Z2Nat.id by lia. lia. }
  assert (Hlarge : 252 < BasePhi.Phi 0).
  { apply Z.lt_trans with (Big.one 0); [|lia]. reflexivity. }
  destruct (highest_exp_good fuel0 n0 0 ltac:(lia)) as (k & Hhigh & Hk0 & Hle & Hk).
  { pose proof (phi_power_increasing 0 ltac:(unfold lowest; lia)). lia. }
  assert (Hkn : k < n0).
  { destruct Hk as [-> | Hk]; [lia|]. pose proof (phi_power_above k Hk0). lia. }
  destruct (reduceN_good n0 fuel0 fuel0
              {| BasePhi.n := n0; BasePhi.exponents := []; BasePhi.decExponents := [];
                 BasePhi.warned := false |} k (k + 1)) as (v & Hred & Hv).
  - constructor; cbn [BasePhi.n BasePhi.exponents BasePhi.decExponents BasePhi.warned
                        ascending descending sum_powers fold_right In].
    + lia.
    + unfold lowest. lia.
    + right; reflexivity.
    + exact I.
    + exact I.
    + intros e [].
    + reflexivity.
    + lia.
    + reflexivity.
  - unfold lowest. lia.
  - unfold lowest. lia.
  - exists v. split; [exact Hv|]. intros fuel Hfuel.
    apply (encode_number_mono 0 BasePhi.default_charset fuel0 fuel); [lia|].
    unfold BasePhi.encode_number.
    assert (E0 : (n0 =? 0) = false) by (apply Z.eqb_neq; lia).
    assert (E1 : (n0 =? Big.one 0) = false) by (apply Z.eqb_neq; lia).
    rewrite E0, E1. cbn [orb].
    change (BasePhi.highest_exp fuel0 n0 (Big.one 0) (BasePhi.Phi 0) 0)
      with (BasePhi.highest_exp fuel0 n0 (phi_power 0) (phi_power (0 + 1)) 0).
    rewrite Hhigh. cbn [bind]. rewrite Hred. cbn [bind].
    rewrite (fin_warned _ _ Hv). reflexivity.
Qed.

Lemma decode_written (normalizeInput : jsstring -> jsstring) (negative : bool)
    (m : Z) (v : BasePhi.vars) :
  (forall s, Forall (fun c => In c (str "-.01")) s -> normalizeInput s = s) ->
  1 <= m ->
  reduced (Big.of_integer 0 m) v ->
  BasePhi.decode 0 BasePhi.default_charset normalizeInput (written negative v)
  = Ok (m, negative).
Proof.
  intros Hnorm Hm Hv. unfold BasePhi.decode, written.
  rewrite (decode_number_written normalizeInput _ _ negative Hnorm
             (fin_exps _ _ Hv) (fin_decs _ _ Hv)).
  cbn [bind].
  replace (sum_powers (BasePhi.exponents v) + sum_powers (BasePhi.decExponents v))
    with (Big.of_integer 0 m - BasePhi.n v)
    by (pose proof (fin_sum _ _ Hv); lia).
  rewrite (round_near_integer m (BasePhi.n v) Hm (fin_null _ _ Hv)). reflexivity.
Qed.

(** C9: with the default charset and a [normalizeInput] that leaves the
    characters of the alphabet alone, for every integer input [v] (a BigInt,
    or a Number that is a safe integer) [encode] returns a string, the same
    one whenever the loops are given enough steps, and [decode] of that
    string, up to the rounded integer it hands to the base 10 converter,
    gives the magnitude of [v] and its sign. The base cases: 0 is written
    [0] and 1 is written [1]. *)
Theorem C9_base_phi_round_trip (normalizeInput : jsstring -> jsstring)
    (input : SmartInput.input) (v : Z) :
  (forall s, Forall (fun c => In c (str "-.01")) s -> normalizeInput s = s) ->
  integer_input input v ->
  (exists s,
      (forall fuel,
          2 * Big.of_integer 0 (Z.abs v) + BasePhi.Phi 0 < Z.of_nat fuel ->
          BasePhi.encode 0 BasePhi.default_charset fuel input = Ok s)
      /\ BasePhi.decode 0 BasePhi.default_charset normalizeInput s = Ok (Z.abs v, v <? 0))
  /\ (forall fuel,
         BasePhi.encode 0 BasePhi.default_charset fuel (SmartInput.Number 0) = Ok (str "0")
         /\ BasePhi.encode 0 BasePhi.default_charset fuel (SmartInput.Number 1) = Ok (str "1")).
Proof.
  intros Hnorm Hint. split.
  - assert (Hcases : Z.abs v = 0 \/ Z.abs v = 1 \/ 2 <= Z.abs v) by lia.
    destruct Hcases as [H0 | [H1 | H2]].
    + assert (v = 0) by lia. subst v.
      exists (str "0"). split.
      * intros fuel _. rewrite (encode_phi_integer 0 _ fuel input 0 Hint). reflexivity.
      * unfold BasePhi.decode, BasePhi.decode_number.
        rewrite Hnorm by (repeat constructor; cbn; tauto). reflexivity.
    + exists (if v <? 0 then str "-1" else str "1"). split.
      * intros fuel _. rewrite (encode_phi_integer 0 _ fuel input v Hint), H1.
        destruct (v <? 0); reflexivity.
      * rewrite H1. unfold BasePhi.decode, BasePhi.decode_number.
        destruct (v <? 0);
          (rewrite Hnorm by (repeat constructor; cbn; tauto)); reflexivity.
    + destruct (encode_number_written (v <? 0) (Z.abs v) H2) as (w & Hw & Henc).
      exists (written (v <? 0) w). split.
      * intros fuel Hfuel.
        rewrite (encode_phi_integer 0 _ fuel input v Hint), (Henc fuel Hfuel). reflexivity.
      * apply decode_written; [exact Hnorm | lia | exact Hw].
  - intros fuel. split.
    + rewrite (encode_phi_integer 0 _ fuel (SmartInput.Number 0) 0); [reflexivity|].
      right. split; [reflexivity | unfold SmartInput.MAX_SAFE_INTEGER; lia].
    + rewrite (encode_phi_integer 0 _ fuel (SmartInput.Number 1) 1); [reflexivity|].
      right. split; [reflexivity | unfold SmartInput.MAX_SAFE_INTEGER; lia].
Qed.

Lemma C9_base_phi_round_trip_witness :
  (exists s,
      (forall fuel,
          2 * Big.of_integer 0 (Z.abs (-12)) + BasePhi.Phi 0 < Z.of_nat fuel ->
          BasePhi.encode 0 BasePhi.default_charset fuel (SmartInput.Number (-12)) = Ok s)
      /\ BasePhi.decode 0 BasePhi.default_charset (fun s => s) s
         = Ok (Z.abs (-12), -12 <? 0))
  /\ (forall fuel,
         BasePhi.encode 0 BasePhi.default_charset fuel (SmartInput.Number 0) = Ok (str "0")
         /\ BasePhi.encode 0 BasePhi.default_charset fuel (SmartInput.Number 1) = Ok (str "1")).
Proof.
  apply (C9_base_phi_round_trip (fun s => s) (SmartInput.Number (-12)) (-12)).
  - intros s _. reflexivity.
  - right. split; [reflexivity | vm_compute; split; discriminate].
Defined.

(** * Further properties *)

(** ** The input handler: integers in two's complement *)

Lemma bytes_value_DataView_set_mod (w : nat) (v : Z) (littleEndian : bool) :
  bytes_value littleEndian (SmartInput.DataView_set w v littleEndian)
  = v mod 256 ^ Z.of_nat w.
Proof.
  unfold bytes_value, SmartInput.DataView_set.
  destruct littleEndian; rewrite ?rev_involutive; apply le_value_low_bytes.
Qed.

Lemma len_DataView_set (w : nat) (v : Z) (littleEndian : bool) :
  len (SmartInput.DataView_set w v littleEndian) = Z.of_nat w.
Proof.
  unfold SmartInput.DataView_set. destruct littleEndian;
    rewrite ?len_rev; apply len_low_bytes.
Qed.

Lemma asIntN_signed (bits v : Z) :
  0 < bits -> - 2 ^ (bits - 1) <= v < 2 ^ (bits - 1) ->
  SmartOutput.asIntN bits (v mod 2 ^ bits) = v.
Proof.
  intros Hb Hv. unfold SmartOutput.asIntN.
  destruct (Z.leb_spec bits 0); [lia|].
  assert (E : 2 ^ bits = 2 * 2 ^ (bits - 1)).
  { replace bits with (1 + (bits - 1)) at 1 by lia.
    rewrite Z.pow_add_r by lia. reflexivity. }
  assert (0 < 2 ^ (bits - 1)) by (apply Z.pow_pos_nonneg; lia).
  rewrite Z.mod_mod by lia.
  destruct (Z.lt_ge_cases v 0) as [Hneg|Hpos].
  - assert (Em : v mod 2 ^ bits = v + 2 ^ bits).
    { symmetry. apply (Z.mod_unique_pos _ _ (-1)); lia. }
    rewrite Em. destruct (Z.leb_spec (2 ^ (bits - 1)) (v + 2 ^ bits)); lia.
  - rewrite (Z.mod_small v) by lia.
    destruct (Z.leb_spec (2 ^ (bits - 1)) v); lia.
Qed.

Lemma asIntN_unsigned (bits v : Z) :
  0 < bits -> 0 <= v < 2 ^ (bits - 1) -> SmartOutput.asIntN bits v = v.
Proof.
  intros Hb Hv. rewrite <- (asIntN_signed bits v Hb) at 2 by lia.
  f_equal. symmetry. apply Z.mod_small.
  replace bits with (1 + (bits - 1)) at 1 by lia.
  rewrite Z.pow_add_r by lia. lia.
Qed.

(** [numbers] on a safe integer: the width in bytes and what it holds. *)
Lemma numbers_width (v : Z) (littleEndian : bool) :
  - SmartInput.MAX_SAFE_INTEGER <= v <= SmartInput.MAX_SAFE_INTEGER ->
  exists w : nat,
    SmartInput.numbers v littleEndian = Ok (SmartInput.DataView_set w v littleEndian)
    /\ Z.of_nat w = (if (-32768 <=? v) && (v <=? 65535) then 2
                     else if (-2147483648 <=? v) && (v <=? 4294967295) then 4
                     else 8)
    /\ - 2 ^ (8 * Z.of_nat w - 1) <= v < 256 ^ Z.of_nat w.
Proof.
  unfold SmartInput.numbers, SmartInput.MAX_SAFE_INTEGER. intros Hv.
  destruct (Z.ltb_spec v (- (2 ^ 53 - 1))); [lia|].
  destruct (Z.ltb_spec (2 ^ 53 - 1) v); [lia|]. cbn [orb].
  assert (Hw : forall w : nat,
             Z.of_nat w = (if (-32768 <=? v) && (v <=? 65535) then 2
                           else if (-2147483648 <=? v) && (v <=? 4294967295) then 4
                           else 8) ->
             - 2 ^ (8 * Z.of_nat w - 1) <= v < 256 ^ Z.of_nat w ->
             exists w' : nat,
               Ok (SmartInput.DataView_set w v littleEndian)
               = Ok (SmartInput.DataView_set w' v littleEndian)
               /\ Z.of_nat w' = (if (-32768 <=? v) && (v <=? 65535) then 2
                                 else if (-2147483648 <=? v) && (v <=? 4294967295) then 4
                                 else 8)
               /\ - 2 ^ (8 * Z.of_nat w' - 1) <= v < 256 ^ Z.of_nat w').
  { intros w H1 H2. exists w. auto. }
  destruct (Z.ltb_spec v 0) as [Hneg|Hpos];
    [destruct (Z.ltb_spec v (-2147483648)); [|destruct (Z.ltb_spec v (-32768))]
    |destruct (Z.ltb_spec 0 v);
     [destruct (Z.ltb_spec 4294967295 v); [|destruct (Z.ltb_spec 65535 v)]
     |replace v with 0 in * by lia]];
    apply Hw;
    try (destruct (Z.leb_spec (-32768) v); destruct (Z.leb_spec v 65535);
         destruct (Z.leb_spec (-2147483648) v); destruct (Z.leb_spec v 4294967295);
         cbn; lia);
    cbn; lia.
Qed.

Lemma numbers_value (w : nat) (v : Z) (littleEndian : bool) :
  (0 < w)%nat ->
  - 2 ^ (8 * Z.of_nat w - 1) <= v < 256 ^ Z.of_nat w ->
  (0 <= v -> bytes_value littleEndian (SmartInput.DataView_set w v littleEndian) = v)
  /\ (v < 0 ->
      SmartOutput.asIntN (8 * Z.of_nat w)
        (bytes_value littleEndian (SmartInput.DataView_set w v littleEndian)) = v).
Proof.
  intros Hw Hv. split; intros Hs.
  - apply bytes_value_DataView_set. lia.
  - rewrite bytes_value_DataView_set_mod.
    replace (256 ^ Z.of_nat w) with (2 ^ (8 * Z.of_nat w))
      by (rewrite Z.pow_mul_r by lia; reflexivity).
    apply asIntN_signed; [lia|].
    assert (0 < 2 ^ (8 * Z.of_nat w - 1)) by (apply Z.pow_pos_nonneg; lia). lia.
Qed.

(** X1: [numbers] turns a safe integer into 2, 4 or 8 bytes, the least of
    these widths that holds it, unsigned when it is not negative and in
    two's complement when it is negative; an integer that is not safe is
    rejected with a RangeError. *)
Theorem X1_numbers_twos_complement (v : Z) (littleEndian : bool) :
  (- SmartInput.MAX_SAFE_INTEGER <= v <= SmartInput.MAX_SAFE_INTEGER ->
   exists bytes,
     SmartInput.numbers v littleEndian = Ok bytes
     /\ len bytes = (if (-32768 <=? v) && (v <=? 65535) then 2
                     else if (-2147483648 <=? v) && (v <=? 4294967295) then 4
                     else 8)
     /\ (0 <= v -> bytes_value littleEndian bytes = v)
     /\ (v < 0 ->
         SmartOutput.asIntN (8 * len bytes) (bytes_value littleEndian bytes) = v))
  /\ (v < - SmartInput.MAX_SAFE_INTEGER \/ SmartInput.MAX_SAFE_INTEGER < v ->
      exists message, SmartInput.numbers v littleEndian = Throw (RangeError message)).
Proof.
  split.
  - intros Hv. destruct (numbers_width v littleEndian Hv) as (w & Hrun & Hw & Hrange).
    exists (SmartInput.DataView_set w v littleEndian).
    rewrite len_DataView_set. split; [exact Hrun|]. split; [exact Hw|].
    apply numbers_value; [|exact Hrange].
    destruct ((-32768 <=? v) && (v <=? 65535));
      [|destruct ((-2147483648 <=? v) && (v <=? 4294967295))]; lia.
  - unfold SmartInput.numbers, SmartInput.MAX_SAFE_INTEGER. intros Hv. eexists.
    destruct (Z.ltb_spec v (- (2 ^ 53 - 1))); [reflexivity|].
    destruct (Z.ltb_spec (2 ^ 53 - 1) v); [reflexivity|]. lia.
Qed.

Lemma X1_numbers_twos_complement_witness :
  (exists bytes,
     SmartInput.numbers (-129) true = Ok bytes
     /\ len bytes = 2
     /\ (0 <= -129 -> bytes_value true bytes = -129)
     /\ (-129 < 0 -> SmartOutput.asIntN (8 * len bytes) (bytes_value true bytes) = -129))
  /\ (exists message,
         SmartInput.numbers (2 ^ 53) true = Throw (RangeError message)).
Proof.
  split.
  - apply (proj1 (X1_numbers_twos_complement (-129) true)). vm_compute.
    split; discriminate.
  - apply (proj2 (X1_numbers_twos_complement (2 ^ 53) true)). right. vm_compute.
    reflexivity.
Defined.

Lemma pow2_64_split (k : Z) : 1 <= k -> 2 ^ (64 * (k + 1) - 1) = 2 ^ (64 * k - 1) * 2 ^ 64.
Proof.
  intros Hk. rewrite <- Z.pow_add_r by lia. f_equal. lia.
Qed.

Lemma pow2_64_succ (k : Z) : 0 <= k -> 2 ^ (64 * (k + 1)) = 2 ^ 64 * 2 ^ (64 * k).
Proof.
  intros Hk. rewrite <- Z.pow_add_r by lia. f_equal. lia.
Qed.

Lemma rem_mod_same (a b : Z) : 0 < b -> Z.rem a b mod b = a mod b.
Proof.
  intros Hb. rewrite (Z.quot_rem' a b) at 2.
  rewrite Z.add_comm, Z.mul_comm, Z_mod_plus_full. reflexivity.
Qed.

Lemma le_value_words_cons (w : Z) (words : list Z) (input : Z) :
  w mod 2 ^ 64 = input mod 2 ^ 64 ->
  le_value (flat_map (SmartInput.low_bytes 8) words)
  = (input / 2 ^ 64) mod 2 ^ (64 * len words) ->
  le_value (flat_map (SmartInput.low_bytes 8) (w :: words))
  = input mod 2 ^ (64 * len (w :: words)).
Proof.
  intros Hw Hval. cbn [flat_map].
  rewrite le_value_app, len_low_bytes, le_value_low_bytes, Hval, len_cons.
  change (256 ^ Z.of_nat 8) with (2 ^ 64). rewrite Hw.
  pose proof (len_nonneg words).
  rewrite pow2_64_succ by lia.
  rewrite Z.rem_mul_r; [reflexivity | lia |]. apply Z.pow_pos_nonneg; lia.
Qed.

(** The loop of [bigInts] on an input that is not negative. *)
Lemma split64_unsigned (littleEndian : bool) (fuel : nat) :
  forall input acc, 0 <= input < 2 ^ Z.of_nat fuel ->
    exists words,
      SmartInput.split64 fuel (fun x => SmartInput.maxN <=? x) littleEndian input acc
      = Ok (if littleEndian then acc ++ words else rev words ++ acc)
      /\ le_value (flat_map (SmartInput.low_bytes 8) words)
         = input mod 2 ^ (64 * len words)
      /\ 1 <= len words
      /\ input < 2 ^ (64 * len words)
      /\ (len words = 1 \/ 2 ^ (64 * (len words - 1)) <= input).
Proof.
  unfold SmartInput.maxN.
  assert (Hlast : forall input acc,
             0 <= input < 18446744073709551616 ->
             exists words,
               Ok (if littleEndian then acc ++ [input] else input :: acc)
               = Ok (if littleEndian then acc ++ words else rev words ++ acc)
               /\ le_value (flat_map (SmartInput.low_bytes 8) words)
                  = input mod 2 ^ (64 * len words)
               /\ 1 <= len words
               /\ input < 2 ^ (64 * len words)
               /\ (len words = 1 \/ 2 ^ (64 * (len words - 1)) <= input)).
  { intros input acc Hi. exists [input].
    split; [destruct littleEndian; reflexivity|].
    split; [cbn [flat_map]; rewrite app_nil_r, le_value_low_bytes; reflexivity|].
    change (len [input]) with 1. change (2 ^ (64 * 1)) with 18446744073709551616.
    lia. }
  induction fuel as [|fuel IH]; intros input acc Hi.
  - assert (input = 0) by (simpl in Hi; lia). subst input.
    cbn [SmartInput.split64]. change (18446744073709551616 <=? 0) with false.
    cbv iota. apply Hlast. lia.
  - cbn [SmartInput.split64].
    destruct (Z.leb_spec 18446744073709551616 input) as [Hge|Hlt]; [|apply Hlast; lia].
    assert (Hq : 0 <= Z.shiftr input 64 < 2 ^ Z.of_nat fuel).
    { rewrite Z.shiftr_div_pow2 by lia.
      rewrite Nat2Z.inj_succ, Z.pow_succ_r in Hi by lia.
      split; [apply Z.div_pos; lia|].
      apply Z.div_lt_upper_bound; [lia|].
      change (2 ^ 64) with 18446744073709551616. lia. }
    destruct (IH (Z.shiftr input 64)
                (if littleEndian then acc ++ [Z.rem input SmartInput.maxN]
                 else Z.rem input SmartInput.maxN :: acc) Hq)
      as (words & Hrun & Hval & Hlen & Hup & Hlow).
    exists (Z.rem input SmartInput.maxN :: words).
    rewrite Z.shiftr_div_pow2 in * by lia.
    split; [|split; [|split; [|split]]].
    + rewrite Hrun. destruct littleEndian.
      * rewrite <- app_assoc. reflexivity.
      * cbn [rev]. rewrite <- app_assoc. reflexivity.
    + apply le_value_words_cons; [|exact Hval].
      change SmartInput.maxN with (2 ^ 64). apply rem_mod_same. lia.
    + rewrite len_cons. lia.
    + rewrite len_cons, pow2_64_succ by lia.
      pose proof (Z.div_mod input (2 ^ 64) ltac:(lia)) as Hdm.
      pose proof (Z.mod_pos_bound input (2 ^ 64) ltac:(lia)). nia.
    + right. rewrite len_cons. replace (len words + 1 - 1) with (len words) by lia.
      destruct (Z.eq_dec (len words) 1) as [E | Hne]; [|destruct Hlow as [E | Hlow]; [lia|]].
      * rewrite E. change (2 ^ (64 * 1)) with 18446744073709551616. lia.
      * replace (len words) with ((len words - 1) + 1) at 1 by lia.
        rewrite pow2_64_succ by lia.
        pose proof (Z.div_mod input (2 ^ 64) ltac:(lia)) as Hdm.
        pose proof (Z.mod_pos_bound input (2 ^ 64) ltac:(lia)). nia.
Qed.

(** The loop of [bigInts] on a negative input. *)
Lemma split64_signed (littleEndian : bool) (fuel : nat) :
  forall input acc, - 2 ^ Z.of_nat fuel <= input < 0 ->
    exists words,
      SmartInput.split64 fuel (fun x => x <? -9223372036854775808) littleEndian input acc
      = Ok (if littleEndian then acc ++ words else rev words ++ acc)
      /\ le_value (flat_map (SmartInput.low_bytes 8) words)
         = input mod 2 ^ (64 * len words)
      /\ 1 <= len words
      /\ - 2 ^ (64 * len words - 1) <= input
      /\ (len words = 1 \/ input < - 2 ^ (64 * (len words - 1) - 1)).
Proof.
  assert (Hlast : forall input acc,
             -9223372036854775808 <= input < 0 ->
             exists words,
               Ok (if littleEndian then acc ++ [input] else input :: acc)
               = Ok (if littleEndian then acc ++ words else rev words ++ acc)
               /\ le_value (flat_map (SmartInput.low_bytes 8) words)
                  = input mod 2 ^ (64 * len words)
               /\ 1 <= len words
               /\ - 2 ^ (64 * len words - 1) <= input
               /\ (len words = 1 \/ input < - 2 ^ (64 * (len words - 1) - 1))).
  { intros input acc Hi. exists [input].
    split; [destruct littleEndian; reflexivity|].
    split; [cbn [flat_map]; rewrite app_nil_r, le_value_low_bytes; reflexivity|].
    change (len [input]) with 1. change (2 ^ (64 * 1 - 1)) with 9223372036854775808.
    lia. }
  induction fuel as [|fuel IH]; intros input acc Hi.
  - assert (input = -1) by (simpl in Hi; lia). subst input.
    cbn [SmartInput.split64]. change (-1 <? -9223372036854775808) with false.
    cbv iota. apply Hlast. lia.
  - cbn [SmartInput.split64].
    destruct (Z.ltb_spec input (-9223372036854775808)) as [Hlt|Hge]; [|apply Hlast; lia].
    assert (Hq : - 2 ^ Z.of_nat fuel <= Z.shiftr input 64 < 0).
    { rewrite Z.shiftr_div_pow2 by lia.
      rewrite Nat2Z.inj_succ, Z.pow_succ_r in Hi by lia.
      assert (0 < 2 ^ Z.of_nat fuel) by (apply Z.pow_pos_nonneg; lia).
      split.
      - apply Z.div_le_lower_bound; [lia|].
        change (2 ^ 64) with 18446744073709551616. nia.
      - apply Z.div_lt_upper_bound; lia. }
    destruct (IH (Z.shiftr input 64)
                (if littleEndian then acc ++ [Z.rem input SmartInput.maxN]
                 else Z.rem input SmartInput.maxN :: acc) Hq)
      as (words & Hrun & Hval & Hlen & Hup & Hlow).
    exists (Z.rem input SmartInput.maxN :: words).
    rewrite Z.shiftr_div_pow2 in * by lia.
    pose proof (Z.div_mod input (2 ^ 64) ltac:(lia)) as Hdm.
    pose proof (Z.mod_pos_bound input (2 ^ 64) ltac:(lia)) as Hmod.
    split; [|split; [|split; [|split]]].
    + rewrite Hrun. destruct littleEndian.
      * rewrite <- app_assoc. reflexivity.
      * cbn [rev]. rewrite <- app_assoc. reflexivity.
    + apply le_value_words_cons; [|exact Hval].
      change SmartInput.maxN with (2 ^ 64). apply rem_mod_same. lia.
    + rewrite len_cons. lia.
    + rewrite len_cons, pow2_64_split by lia.
      assert (0 < 2 ^ (64 * len words - 1)) by (apply Z.pow_pos_nonneg; lia).
      nia.
    + right. rewrite len_cons. replace (len words + 1 - 1) with (len words) by lia.
      destruct (Z.eq_dec (len words) 1) as [E | Hne]; [|destruct Hlow as [E | Hlow]; [lia|]].
      * rewrite E. change (2 ^ (64 * 1 - 1)) with 9223372036854775808. lia.
      * replace (len words) with ((len words - 1) + 1) at 1 by lia.
        rewrite pow2_64_split by lia.
        assert (0 < 2 ^ (64 * (len words - 1) - 1)) by (apply Z.pow_pos_nonneg; lia).
        nia.
Qed.

Lemma len_flat_map_words (littleEndian : bool) (words : list Z) :
  len (flat_map (fun bigInt => SmartInput.DataView_set 8 bigInt littleEndian) words)
  = 8 * len words.
Proof.
  induction words as [|w words IH]; [reflexivity|].
  cbn [flat_map]. rewrite len_app, len_DataView_set, IH, len_cons. lia.
Qed.

Lemma bytes_value_words (littleEndian : bool) (words : list Z) :
  bytes_value littleEndian
    (flat_map (fun bigInt => SmartInput.DataView_set 8 bigInt littleEndian)
       (if littleEndian then words else rev words))
  = le_value (flat_map (SmartInput.low_bytes 8) words).
Proof.
  unfold bytes_value, SmartInput.DataView_set. destruct littleEndian; [reflexivity|].
  rewrite flat_map_rev, rev_involutive.
  erewrite flat_map_ext; [reflexivity|]. intros w. apply rev_involutive.
Qed.

(** [bigInts] always returns the bytes of its 64 bit words. *)
Lemma bigInts_words (v : Z) (littleEndian : bool) :
  exists words,
    SmartInput.bigInts v littleEndian
    = Ok (flat_map (fun bigInt => SmartInput.DataView_set 8 bigInt littleEndian)
            (if littleEndian then words else rev words))
    /\ le_value (flat_map (SmartInput.low_bytes 8) words) = v mod 2 ^ (64 * len words)
    /\ 1 <= len words
    /\ (if v <? 0
        then - 2 ^ (64 * len words - 1) <= v
             /\ (len words = 1 \/ v < - 2 ^ (64 * (len words - 1) - 1))
        else v < 2 ^ (64 * len words)
             /\ (len words = 1 \/ 2 ^ (64 * (len words - 1)) <= v)).
Proof.
  unfold SmartInput.bigInts. pose proof (fuel_bound v) as Hfuel.
  destruct (Z.ltb_spec v 0) as [Hneg|Hpos].
  - destruct (split64_signed littleEndian (S (Z.to_nat (Z.log2 (Z.abs v)))) v []
                ltac:(lia)) as (words & Hrun & Hval & Hlen & Hrange).
    rewrite Hrun. cbn [bind app]. rewrite app_nil_r. exists words. auto.
  - destruct (split64_unsigned littleEndian (S (Z.to_nat (Z.log2 (Z.abs v)))) v []
                ltac:(lia)) as (words & Hrun & Hval & Hlen & Hrange).
    rewrite Hrun. cbn [bind app]. rewrite app_nil_r. exists words. auto.
Qed.

(** X2: [bigInts] always returns: a multiple of 8 bytes, the least number
    [k] of 64 bit words that holds the input, unsigned when it is not
    negative and in two's complement when it is negative. *)
Theorem X2_bigInts_twos_complement (v : Z) (littleEndian : bool) :
  exists bytes k,
    SmartInput.bigInts v littleEndian = Ok bytes
    /\ 1 <= k /\ len bytes = 8 * k
    /\ bytes_value littleEndian bytes = v mod 2 ^ (64 * k)
    /\ (if v <? 0
        then - 2 ^ (64 * k - 1) <= v /\ (k = 1 \/ v < - 2 ^ (64 * (k - 1) - 1))
        else v < 2 ^ (64 * k) /\ (k = 1 \/ 2 ^ (64 * (k - 1)) <= v)).
Proof.
  destruct (bigInts_words v littleEndian) as (words & Hrun & Hval & Hlen & Hrange).
  eexists. exists (len words). split; [exact Hrun|]. split; [exact Hlen|].
  split; [|split; [|exact Hrange]].
  - rewrite len_flat_map_words. destruct littleEndian; rewrite ?len_rev; reflexivity.
  - rewrite bytes_value_words. exact Hval.
Qed.

(** ** The output handler *)

Lemma fold_shift_horner (l : list byte) :
  forall acc,
    fold_left (fun n b => Z.shiftl n 8 + u8_to_Z b) l acc
    = horner 256 (map u8_to_Z l) acc.
Proof.
  unfold horner. induction l as [|b l IH]; intros acc; [reflexivity|].
  cbn [fold_left map]. rewrite IH, Z.shiftl_mul_pow2 by lia. reflexivity.
Qed.

Lemma big_endian_value (littleEndian : bool) (l : list byte) :
  horner 256 (map u8_to_Z (if littleEndian then rev l else l)) 0
  = bytes_value littleEndian l.
Proof.
  unfold bytes_value. destruct littleEndian.
  - apply horner_rev_le_value.
  - rewrite <- (rev_involutive l) at 1. apply horner_rev_le_value.
Qed.

Lemma le_value_repeat_zero (k : nat) : le_value (repeat x00 k) = 0.
Proof.
  induction k as [|k IH]; [reflexivity|].
  cbn [repeat]. rewrite le_value_cons, IH. reflexivity.
Qed.

Lemma le_value_repeat_ff (k : nat) : le_value (repeat xff k) = 256 ^ Z.of_nat k - 1.
Proof.
  induction k as [|k IH]; [reflexivity|].
  cbn [repeat]. rewrite le_value_cons, IH, Nat2Z.inj_succ, Z.pow_succ_r by lia.
  change (u8_to_Z xff) with 255. lia.
Qed.

Lemma bytes_value_fill (littleEndian : bool) (l : list byte) (fillVal : byte) (k : nat) :
  bytes_value littleEndian
    (if littleEndian then l ++ repeat fillVal k else repeat fillVal k ++ l)
  = le_value (if littleEndian then l else rev l)
    + 256 ^ len l * le_value (repeat fillVal k).
Proof.
  unfold bytes_value. destruct littleEndian.
  - apply le_value_app.
  - rewrite rev_app_distr, rev_repeat, le_value_app, len_rev. reflexivity.
Qed.

(** The padding [delta] of [makeTypedArrayBuffer]. *)
Lemma delta_spec (n b : Z) :
  0 <= n -> 0 < b ->
  Z.rem (b - Z.rem n b) b = (b - n mod b) mod b
  /\ 0 <= (b - n mod b) mod b < b
  /\ (n + (b - n mod b) mod b) mod b = 0
  /\ ((b - n mod b) mod b = 0 <-> n mod b = 0).
Proof.
  intros Hn Hb. pose proof (Z.mod_pos_bound n b Hb) as Hm.
  rewrite (Z.rem_mod_nonneg n b), Z.rem_mod_nonneg by lia.
  split; [reflexivity|]. split; [apply Z.mod_pos_bound; exact Hb|].
  destruct (Z.eq_dec (n mod b) 0) as [E | Hne].
  - rewrite E, Z.sub_0_r, Z.mod_same, Z.add_0_r by lia. tauto.
  - rewrite (Z.mod_small (b - n mod b)) by lia. split; [|lia].
    rewrite (Z.div_mod n b) at 1 by lia.
    replace (b * (n / b) + n mod b + (b - n mod b)) with ((n / b + 1) * b) by lia.
    apply Z.mod_mul. lia.
Qed.

(** X3: [makeTypedArrayBuffer] pads the bytes to the next multiple of the
    element size and returns them as they are when they already are one.
    The padding stands on the most significant side; it keeps the unsigned
    value whenever it is made of zeros (always for a single byte, and when
    [negative] is not set), and when it is made of 255 it keeps the two's
    complement value of bytes whose sign bit is set. *)
Theorem X3_makeTypedArrayBuffer (Uint8ArrayOut : list byte) (bytesPerElem : positive)
    (littleEndian negative : bool) :
  let buffer :=
    SmartOutput.makeTypedArrayBuffer Uint8ArrayOut bytesPerElem littleEndian negative in
  len buffer mod Z.pos bytesPerElem = 0
  /\ len Uint8ArrayOut <= len buffer < len Uint8ArrayOut + Z.pos bytesPerElem
  /\ (len Uint8ArrayOut mod Z.pos bytesPerElem = 0 -> buffer = Uint8ArrayOut)
  /\ (negative = false \/ len Uint8ArrayOut <= 1 ->
      bytes_value littleEndian buffer = bytes_value littleEndian Uint8ArrayOut)
  /\ (negative = true -> 1 < len Uint8ArrayOut ->
      2 ^ (8 * len Uint8ArrayOut - 1) <= bytes_value littleEndian Uint8ArrayOut ->
      SmartOutput.asIntN (8 * len buffer) (bytes_value littleEndian buffer)
      = SmartOutput.asIntN (8 * len Uint8ArrayOut)
          (bytes_value littleEndian Uint8ArrayOut)).
Proof.
  cbv zeta. unfold SmartOutput.makeTypedArrayBuffer.
  pose proof (len_nonneg Uint8ArrayOut) as Hlen.
  destruct (delta_spec (len Uint8ArrayOut) (Z.pos bytesPerElem) Hlen ltac:(lia))
    as (-> & Hdelta & Hmult & Hzero).
  set (delta := (Z.pos bytesPerElem - len Uint8ArrayOut mod Z.pos bytesPerElem)
                mod Z.pos bytesPerElem) in *.
  destruct (Z.eqb_spec delta 0) as [E | Hne].
  - rewrite E, Z.add_0_r in Hmult. repeat split; tauto || lia.
  - set (fillVal := if negative && (1 <? len Uint8ArrayOut) then xff else x00).
    assert (Hl : len (if littleEndian
                      then Uint8ArrayOut ++ repeat fillVal (Z.to_nat delta)
                      else repeat fillVal (Z.to_nat delta) ++ Uint8ArrayOut)
                 = len Uint8ArrayOut + delta).
    { destruct littleEndian; rewrite len_app, len_repeat, Z2Nat.id by lia; lia. }
    rewrite Hl, bytes_value_fill.
    assert (Hv : le_value (if littleEndian then Uint8ArrayOut else rev Uint8ArrayOut)
                 = bytes_value littleEndian Uint8ArrayOut)
      by (unfold bytes_value; destruct littleEndian; reflexivity).
    rewrite Hv. clear Hv.
    split; [exact Hmult|]. split; [lia|]. split; [tauto|]. split.
    + intros Hfill.
      assert (fillVal = x00) as ->.
      { unfold fillVal. destruct Hfill as [-> | Hone]; [reflexivity|].
        destruct (Z.ltb_spec 1 (len Uint8ArrayOut)); [lia|].
        rewrite andb_false_r. reflexivity. }
      rewrite le_value_repeat_zero. lia.
    + intros -> Hmore Htop.
      assert (fillVal = xff) as ->.
      { unfold fillVal. destruct (Z.ltb_spec 1 (len Uint8ArrayOut)); [reflexivity | lia]. }
      rewrite le_value_repeat_ff, Z2Nat.id by lia.
      set (n := len Uint8ArrayOut) in *.
      set (x := bytes_value littleEndian Uint8ArrayOut) in *.
      assert (Hx : 0 <= x < 256 ^ n).
      { unfold x, bytes_value, n. destruct littleEndian.
        - apply le_value_bounds.
        - rewrite <- (len_rev Uint8ArrayOut). apply le_value_bounds. }
      assert (E256 : forall k, 0 <= k -> 256 ^ k = 2 ^ (8 * k)).
      { intros k Hk. rewrite Z.pow_mul_r by lia. reflexivity. }
      rewrite !E256 in * by lia.
      assert (Epow : 2 ^ (8 * (n + delta)) = 2 ^ (8 * n) * 2 ^ (8 * delta)).
      { rewrite <- Z.pow_add_r by lia. f_equal. lia. }
      assert (Ehalf : 2 ^ (8 * n) = 2 * 2 ^ (8 * n - 1)).
      { rewrite <- Z.pow_succ_r by lia. f_equal. lia. }
      assert (Ehalf' : 2 ^ (8 * (n + delta)) = 2 * 2 ^ (8 * (n + delta) - 1)).
      { rewrite <- Z.pow_succ_r by lia. f_equal. lia. }
      replace (x + 2 ^ (8 * n) * (2 ^ (8 * delta) - 1))
        with ((x - 2 ^ (8 * n)) + 2 ^ (8 * (n + delta))) by lia.
      assert (0 < 2 ^ (8 * delta)) by (apply Z.pow_pos_nonneg; lia).
      assert (0 < 2 ^ (8 * n - 1)) by (apply Z.pow_pos_nonneg; lia).
      transitivity (x - 2 ^ (8 * n)).
      * replace (x - 2 ^ (8 * n) + 2 ^ (8 * (n + delta)))
          with ((x - 2 ^ (8 * n)) mod 2 ^ (8 * (n + delta))).
        -- apply asIntN_signed; [lia|]. nia.
        -- symmetry. apply (Z.mod_unique_pos _ _ (-1)); nia.
      * symmetry. replace x with ((x - 2 ^ (8 * n)) mod 2 ^ (8 * n)) at 1.
        -- apply asIntN_signed; lia.
        -- symmetry. apply (Z.mod_unique_pos _ _ (-1)); lia.
Qed.

Lemma X3_makeTypedArrayBuffer_witness :
  bytes_value true (SmartOutput.makeTypedArrayBuffer [x2a] 2 true false)
  = bytes_value true [x2a]
  /\ SmartOutput.asIntN (8 * len (SmartOutput.makeTypedArrayBuffer [x7f; xff; xff] 4 true true))
       (bytes_value true (SmartOutput.makeTypedArrayBuffer [x7f; xff; xff] 4 true true))
     = SmartOutput.asIntN (8 * len [x7f; xff; xff]) (bytes_value true [x7f; xff; xff]).
Proof.
  split.
  - destruct (X3_makeTypedArrayBuffer [x2a] 2 true false) as (_ & _ & _ & H & _).
    apply H. left. reflexivity.
  - destruct (X3_makeTypedArrayBuffer [x7f; xff; xff] 4 true true) as (_ & _ & _ & _ & H).
    apply H.
    + reflexivity.
    + vm_compute. reflexivity.
    + vm_compute. discriminate.
Defined.

Lemma bytes_value_bounds (littleEndian : bool) (l : list byte) :
  0 <= bytes_value littleEndian l < 256 ^ len l.
Proof.
  unfold bytes_value. destruct littleEndian.
  - apply le_value_bounds.
  - rewrite <- (len_rev l). apply le_value_bounds.
Qed.

(** The bytes the integer branch of [compile] reads: a single byte is
    expanded to two. *)
Lemma expanded_single (b : byte) (littleEndian negative : bool) :
  SmartOutput.makeTypedArrayBuffer [b] 2 littleEndian negative
  = if littleEndian then [b; x00] else [x00; b].
Proof.
  unfold SmartOutput.makeTypedArrayBuffer. change (len [b]) with 1.
  rewrite andb_false_r. destruct littleEndian; reflexivity.
Qed.

Lemma integer_value_spec (l : list byte) (t : SmartOutput.type)
    (littleEndian negative : bool) :
  SmartOutput.integer_value l t littleEndian negative
  = match t with
    | SmartOutput.uint_n => bytes_value littleEndian l
    | _ => SmartOutput.asIntN (8 * (if len l =? 1 then 2 else len l))
             (bytes_value littleEndian l)
    end.
Proof.
  unfold SmartOutput.integer_value.
  set (l' := if len l =? 1 then SmartOutput.makeTypedArrayBuffer l 2 littleEndian negative
             else l).
  assert (Hl' : bytes_value littleEndian l' = bytes_value littleEndian l
                /\ len l' = if len l =? 1 then 2 else len l).
  { unfold l'. destruct (Z.eqb_spec (len l) 1) as [E | _]; [|tauto].
    destruct l as [|b [|c rest]]; try discriminate E.
    - rewrite expanded_single. unfold bytes_value.
      destruct littleEndian; cbn [rev app]; rewrite !le_value_cons;
        change (le_value []) with 0; change (u8_to_Z x00) with 0;
        split; try reflexivity; lia.
    - exfalso. rewrite !len_cons in E. pose proof (len_nonneg rest). lia. }
  destruct Hl' as [Hv Hl].
  rewrite fold_shift_horner, big_endian_value, Hv.
  assert (Hlen : len (if littleEndian then rev l' else l') = len l')
    by (destruct littleEndian; rewrite ?len_rev; reflexivity).
  rewrite Hlen, Hl, (Z.mul_comm _ 8). reflexivity.
Qed.

(** The input handler without the sign: what the bytes of an integer hold. *)
Lemma toBytes_unsigned (input : SmartInput.input) (v : Z) (littleEndian : bool) :
  integer_input input v ->
  exists bytes,
    SmartInput.toBytes input littleEndian false = Ok (bytes, false)
    /\ 2 <= len bytes
    /\ (0 <= v -> bytes_value littleEndian bytes = v)
    /\ (v < 0 -> SmartOutput.asIntN (8 * len bytes) (bytes_value littleEndian bytes) = v).
Proof.
  intros [-> | [-> Hv]]; unfold SmartInput.toBytes; cbn [andb].
  - destruct (bigInts_words v littleEndian) as (words & Hrun & Hval & Hlen & Hrange).
    rewrite Hrun. cbn [bind]. eexists. split; [reflexivity|].
    assert (Hl : len (flat_map (fun bigInt => SmartInput.DataView_set 8 bigInt littleEndian)
                        (if littleEndian then words else rev words)) = 8 * len words).
    { rewrite len_flat_map_words. destruct littleEndian; rewrite ?len_rev; reflexivity. }
    rewrite Hl, bytes_value_words, Hval. split; [lia|]. split; intros Hs.
    + destruct (Z.ltb_spec v 0); [lia|]. apply Z.mod_small. lia.
    + destruct (Z.ltb_spec v 0); [|lia].
      replace (8 * (8 * len words)) with (64 * len words) by lia.
      apply asIntN_signed; lia.
  - destruct (numbers_width v littleEndian Hv) as (w & Hrun & Hw & Hrange).
    rewrite Hrun. cbn [bind]. eexists. split; [reflexivity|].
    rewrite len_DataView_set.
    assert (0 < w)%nat
      by (destruct ((-32768 <=? v) && (v <=? 65535));
          [|destruct ((-2147483648 <=? v) && (v <=? 4294967295))]; lia).
    split; [|apply numbers_value; assumption].
    destruct ((-32768 <=? v) && (v <=? 65535));
      [|destruct ((-2147483648 <=? v) && (v <=? 4294967295))]; lia.
Qed.

Lemma asIntN_zero (bits : Z) : SmartOutput.asIntN bits 0 = 0.
Proof.
  unfold SmartOutput.asIntN. destruct (Z.leb_spec bits 0); [reflexivity|].
  rewrite Z.mod_0_l by (apply Z.pow_nonzero; lia).
  assert (0 < 2 ^ (bits - 1)) by (apply Z.pow_pos_nonneg; lia).
  destruct (Z.leb_spec (2 ^ (bits - 1)) 0); [lia | reflexivity].
Qed.

(** X4: what the input handler makes of an integer in unsigned mode, the
    output handler reads back: with the type [uint_n] when the integer is
    not negative, and with the type [int_n] when it is negative (its bytes
    are then its two's complement). *)
Theorem X4_compile_toBytes (input : SmartInput.input) (v : Z) (littleEndian : bool) :
  integer_input input v ->
  exists bytes,
    SmartInput.toBytes input littleEndian false = Ok (bytes, false)
    /\ SmartOutput.compile bytes
         (if v <? 0 then SmartOutput.int_n else SmartOutput.uint_n) littleEndian false
       = Ok (integer_output v).
Proof.
  intros Hint.
  destruct (toBytes_unsigned input v littleEndian Hint) as (bytes & Hrun & Hlen & Hpos & Hneg).
  exists bytes. split; [exact Hrun|].
  unfold SmartOutput.compile. cbn [bind].
  destruct (Z.ltb_spec v 0) as [Hs | Hs]; cbv iota; rewrite integer_value_spec.
  - destruct (Z.eqb_spec (len bytes) 1); [lia|]. rewrite (Hneg Hs).
    unfold integer_output. destruct (SmartOutput.is_safe v); reflexivity.
  - rewrite (Hpos Hs).
    unfold integer_output. destruct (SmartOutput.is_safe v); reflexivity.
Qed.

Lemma X4_compile_toBytes_witness :
  exists bytes,
    SmartInput.toBytes (SmartInput.Number (-129)) true false = Ok (bytes, false)
    /\ SmartOutput.compile bytes SmartOutput.int_n true false
       = Ok (integer_output (-129)).
Proof.
  apply (X4_compile_toBytes (SmartInput.Number (-129)) (-129) true).
  right. split; [reflexivity | vm_compute; split; discriminate].
Defined.

(** The branch of [compile] for the flag [negative]: the bytes that the
    input handler returns for the negated magnitude. *)
Lemma negative_bytes (bytes : list byte) (littleEndian : bool) :
  exists twos,
    (let n := SmartOutput.integer_value bytes SmartOutput.uint_n littleEndian false in
     let n := if SmartOutput.is_safe n then SmartInput.Number (- n)
              else SmartInput.BigInt (- n) in
     bind (SmartInput.toBytes n littleEndian false) (fun handled => Ok (fst handled)))
    = Ok twos
    /\ 2 <= len twos
    /\ SmartOutput.asIntN (8 * len twos) (bytes_value littleEndian twos)
       = - bytes_value littleEndian bytes.
Proof.
  cbv zeta. rewrite integer_value_spec.
  set (m := bytes_value littleEndian bytes).
  pose proof (bytes_value_bounds littleEndian bytes) as Hm. fold m in Hm.
  set (input := if SmartOutput.is_safe m then SmartInput.Number (- m)
                else SmartInput.BigInt (- m)).
  assert (Hint : integer_input input (- m)).
  { unfold input, SmartOutput.is_safe, integer_input.
    destruct (Z.leb_spec (- SmartInput.MAX_SAFE_INTEGER) m);
      destruct (Z.leb_spec m SmartInput.MAX_SAFE_INTEGER); cbn [andb];
      try (left; reflexivity).
    right. split; [reflexivity|]. lia. }
  destruct (toBytes_unsigned input (- m) littleEndian Hint)
    as (twos & Hrun & Hlen & Hpos & Hneg).
  rewrite Hrun. cbn [bind fst]. exists twos. split; [reflexivity|].
  split; [exact Hlen|].
  destruct (Z.eq_dec m 0) as [E | Hne].
  - rewrite Hpos by lia. rewrite E. apply asIntN_zero.
  - apply Hneg. lia.
Qed.

Lemma compile_negative_int_n (bytes : list byte) (littleEndian : bool) :
  SmartOutput.compile bytes SmartOutput.int_n littleEndian true
  = Ok (integer_output (- bytes_value littleEndian bytes)).
Proof.
  unfold SmartOutput.compile.
  destruct (negative_bytes bytes littleEndian) as (twos & Hrun & Hlen & Hval).
  cbv zeta in Hrun. rewrite Hrun. cbn [bind].
  rewrite integer_value_spec.
  destruct (Z.eqb_spec (len twos) 1); [lia|]. rewrite Hval.
  unfold integer_output.
  destruct (SmartOutput.is_safe (- bytes_value littleEndian bytes)); reflexivity.
Qed.

Lemma compile_uint_n (bytes : list byte) (littleEndian : bool) :
  SmartOutput.compile bytes SmartOutput.uint_n littleEndian false
  = Ok (integer_output (bytes_value littleEndian bytes)).
Proof.
  unfold SmartOutput.compile. cbn [bind]. rewrite integer_value_spec.
  unfold integer_output.
  destruct (SmartOutput.is_safe (bytes_value littleEndian bytes)); reflexivity.
Qed.

(** X5: with the flag [negative], [compile] takes the bytes for a magnitude
    and returns its negation: as a [Number] or a [BigInt] for the types
    [int_n] and [bigint_n], and for the type [buffer] as at least two bytes
    in two's complement. *)
Theorem X5_compile_negative (bytes : list byte) (littleEndian : bool) :
  SmartOutput.compile bytes SmartOutput.int_n littleEndian true
  = Ok (integer_output (- bytes_value littleEndian bytes))
  /\ SmartOutput.compile bytes SmartOutput.bigint_n littleEndian true
     = Ok (SmartOutput.BigIntValue (- bytes_value littleEndian bytes))
  /\ exists buffer,
       SmartOutput.compile bytes SmartOutput.buffer littleEndian true
       = Ok (SmartOutput.ArrayBuffer buffer)
       /\ 2 <= len buffer
       /\ SmartOutput.asIntN (8 * len buffer) (bytes_value littleEndian buffer)
          = - bytes_value littleEndian bytes.
Proof.
  split; [apply compile_negative_int_n|].
  unfold SmartOutput.compile.
  destruct (negative_bytes bytes littleEndian) as (twos & Hrun & Hlen & Hval).
  cbv zeta in Hrun. rewrite Hrun. cbn [bind]. split.
  - rewrite integer_value_spec.
    destruct (Z.eqb_spec (len twos) 1); [lia|]. rewrite Hval. reflexivity.
  - exists twos. auto.
Qed.

(** ** LEB128 with its output handler *)

Lemma decode_FromBytes_value (bs : list byte) (signed : bool) :
  exists out,
    LEB128.decode (LEB128.FromBytes bs) signed
    = Ok (out, LEB128.decode_integer bs signed <? 0)
    /\ le_value out = Z.abs (LEB128.decode_integer bs signed).
Proof.
  rewrite decode_FromBytes.
  destruct (match bs with [b] => Byte.eqb b x00 | _ => false end) eqn:E.
  - assert (Hz : bs = [x00]).
    { destruct bs as [|b [|b' l]]; try discriminate.
      apply Byte.byte_dec_bl in E. rewrite E. reflexivity. }
    subst bs. exists [x00]. destruct signed; split; reflexivity.
  - cbv zeta. rewrite extractSign_toString.
    destruct (decode_base10_le (Z.abs (LEB128.decode_integer bs signed))
                (Z.abs_nonneg _)) as [magnitude [Hdec Hmag]].
    rewrite Hdec. cbn [bind]. exists magnitude. split; [reflexivity | exact Hmag].
Qed.

Lemma encode_decode_integer (input : SmartInput.input) (v : Z) (signed : bool) :
  integer_input input v ->
  0 <= v \/ signed = true ->
  exists bs,
    LEB128.encode input signed LEB128.default = Ok (LEB128.Uint8Output bs)
    /\ continuation_terminated bs
    /\ LEB128.decode_integer bs signed = v.
Proof.
  intros Hin Hs. rewrite (encode_integer input v signed Hin).
  assert (E : (v <? 0) && negb signed = false).
  { destruct Hs as [Hv | ->]; [|apply andb_false_r].
    destruct (Z.ltb_spec v 0); [lia | reflexivity]. }
  rewrite E. cbv zeta.
  assert (Hout : exists out,
             (if signed then LEB128.signed_loop (S (Z.to_nat (Z.log2 (Z.abs v)))) v
              else LEB128.unsigned_loop (S (Z.to_nat (Z.log2 (Z.abs v)))) v) = Ok out
             /\ terminated out
             /\ (if signed then signed_value out else groups_value out) = v).
  { destruct signed.
    - apply signed_loop_spec, fuel_bound.
    - destruct Hs as [Hv | Hs]; [|discriminate].
      destruct (unsigned_loop_spec (S (Z.to_nat (Z.log2 (Z.abs v)))) v
                  (conj Hv (proj2 (fuel_bound v)))) as (out & H1 & H2 & H3 & _).
      exists out. auto. }
  destruct Hout as (out & Hrun & Hterm & Hval).
  rewrite Hrun. cbn [bind].
  assert (Hmap : map u8_to_Z (Uint8Array_from out) = out)
    by (apply map_u8_to_Z_from, terminated_range, Hterm).
  exists (Uint8Array_from out). split; [reflexivity|]. split.
  - unfold continuation_terminated. rewrite Hmap. exact Hterm.
  - rewrite decode_integer_value, Hmap. exact Hval.
Qed.

(** X6: the round trip of LEB128 with the output handler: [decode] of what
    [encode] returns for an integer gives that integer back, as a [Number]
    when it is safe and as a [BigInt] otherwise, with the output type
    [uint_n] for an integer that is not negative (in either mode) and with
    the output type [int_n] for a negative one (in signed mode). *)
Theorem X6_leb128_integer_round_trip (input : SmartInput.input) (v : Z) (signed : bool) :
  integer_input input v ->
  0 <= v \/ signed = true ->
  exists bs,
    LEB128.encode input signed LEB128.default = Ok (LEB128.Uint8Output bs)
    /\ LEB128.decode_compiled (LEB128.FromBytes bs) signed
         (if v <? 0 then SmartOutput.int_n else SmartOutput.uint_n)
       = Ok (integer_output v).
Proof.
  intros Hin Hs.
  destruct (encode_decode_integer input v signed Hin Hs) as (bs & Henc & _ & Hint).
  exists bs. split; [exact Henc|].
  unfold LEB128.decode_compiled.
  destruct (decode_FromBytes_value bs signed) as (out & Hdec & Hmag).
  rewrite Hdec, Hint. cbn [bind].
  destruct (Z.ltb_spec v 0) as [Hneg | Hpos].
  - rewrite compile_negative_int_n. unfold bytes_value. rewrite Hmag, Hint.
    f_equal. f_equal. lia.
  - rewrite compile_uint_n. unfold bytes_value. rewrite Hmag, Hint.
    f_equal. f_equal. lia.
Qed.

Lemma X6_leb128_integer_round_trip_witness :
  exists bs,
    LEB128.encode (SmartInput.BigInt (-123456)) true LEB128.default
    = Ok (LEB128.Uint8Output bs)
    /\ LEB128.decode_compiled (LEB128.FromBytes bs) true SmartOutput.int_n
       = Ok (integer_output (-123456)).
Proof.
  apply (X6_leb128_integer_round_trip (SmartInput.BigInt (-123456)) (-123456) true).
  - left. reflexivity.
  - right. reflexivity.
Defined.

Lemma land_64_payload (x : Z) : Z.land (Z.land x 127) 64 = Z.land x 64.
Proof. rewrite <- Z.land_assoc. reflexivity. Qed.

Lemma same_payload (bs bs' : list byte) :
  map payload bs = map payload bs' ->
  groups_value (map u8_to_Z bs) = groups_value (map u8_to_Z bs')
  /\ Z.land (last (map u8_to_Z bs) 0) 64 = Z.land (last (map u8_to_Z bs') 0) 64
  /\ len (map u8_to_Z bs) = len (map u8_to_Z bs').
Proof.
  revert bs'. induction bs as [|b bs IH]; intros [|b' bs'] H; try discriminate H.
  - repeat split.
  - cbn [map] in H. injection H as Hb Hrest.
    destruct (IH bs' Hrest) as (Hg & Hl & Hn).
    cbn [map]. rewrite !groups_value_cons, !len_cons, Hg, Hn.
    unfold payload in Hb. rewrite Hb. split; [reflexivity|]. split; [|reflexivity].
    destruct bs as [|c bs]; destruct bs' as [|c' bs']; try discriminate Hrest.
    + cbn [map last]. rewrite <- (land_64_payload (u8_to_Z b)), Hb.
      apply land_64_payload.
    + exact Hl.
Qed.

Lemma decode_FromBytes_general (bs : list byte) (signed : bool) :
  LEB128.decode (LEB128.FromBytes bs) signed
  = let n := LEB128.decode_integer bs signed in
    let '(decimalNum, negative) := extractSign (BaseConverter.BigInt_toString n) in
    bind (BaseConverter.decode LEB128.converter decimalNum
            BaseConverter.decimal_digits true)
      (fun output => Ok (output, negative)).
Proof.
  rewrite decode_FromBytes.
  destruct (match bs with [b] => Byte.eqb b x00 | _ => false end) eqn:E; [|reflexivity].
  assert (Hz : bs = [x00]).
  { destruct bs as [|b [|b' l]]; try discriminate.
    apply Byte.byte_dec_bl in E. rewrite E. reflexivity. }
  subst bs. destruct signed; reflexivity.
Qed.

(** X7: [decode] accepts every byte sequence, terminated or not: it
    returns the magnitude and the sign of the integer that the groups of
    seven bits spell, and the continuation bits have no influence on the
    result. *)
Theorem X7_leb128_decode_accepts (signed : bool) :
  (forall bs,
      exists out,
        LEB128.decode (LEB128.FromBytes bs) signed
        = Ok (out, LEB128.decode_integer bs signed <? 0)
        /\ le_value out = Z.abs (LEB128.decode_integer bs signed))
  /\ (forall bs bs',
         map payload bs = map payload bs' ->
         LEB128.decode (LEB128.FromBytes bs) signed
         = LEB128.decode (LEB128.FromBytes bs') signed).
Proof.
  split; [intros bs; apply decode_FromBytes_value|].
  intros bs bs' H. rewrite !decode_FromBytes_general.
  replace (LEB128.decode_integer bs' signed) with (LEB128.decode_integer bs signed);
    [reflexivity|].
  rewrite !decode_integer_value. destruct (same_payload bs bs' H) as (Hg & Hl & Hn).
  destruct signed; [|exact Hg].
  unfold signed_value. rewrite Hg, Hl, Hn. reflexivity.
Qed.

(** ** The signed encoding is the shortest *)

Lemma groups_value_app (l l' : list Z) :
  groups_value (l ++ l') = groups_value l + 128 ^ len l * groups_value l'.
Proof.
  induction l as [|x l IH].
  - cbn [app]. change (len (@nil Z)) with 0. change (groups_value []) with 0. lia.
  - cbn [app]. rewrite !groups_value_cons, IH, len_cons.
    pose proof (len_nonneg l). rewrite Z.pow_add_r by lia. lia.
Qed.

(** The range of the integers that [k] bytes spell in signed mode, and how
    the sign bit of the last byte tells the sign. *)
Lemma signed_value_range (out : list Z) :
  out <> [] ->
  Forall (fun x => 0 <= x < 256) out ->
  - 64 * 128 ^ (len out - 1) <= signed_value out < 64 * 128 ^ (len out - 1)
  /\ (signed_value out < 0 <-> signed_value out <> groups_value out).
Proof.
  intros Hne Hall.
  destruct (exists_last Hne) as (init & x & ->).
  apply Forall_app in Hall. destruct Hall as [_ Hx]. inversion Hx as [|? ? Hx' _]; subst.
  unfold signed_value. rewrite last_last, (land_64 x) by exact Hx'.
  rewrite groups_value_app, groups_value_cons, land_127, len_app.
  change (groups_value []) with 0. change (len [x]) with 1.
  replace (len init + 1 - 1) with (len init) by lia.
  pose proof (len_nonneg init) as Hl.
  pose proof (groups_value_bounds init) as Hg.
  pose proof (Z.mod_pos_bound x 128 ltac:(lia)) as Hm.
  rewrite Z.pow_add_r by lia. change (128 ^ 1) with 128.
  assert (0 < 128 ^ len init) by (apply Z.pow_pos_nonneg; lia).
  destruct (Z.leb_spec 64 (x mod 128)); cbn [negb]; split; nia.
Qed.

(** The loop of signed mode stops as early as the value allows. *)
Lemma signed_loop_shortest (fuel : nat) :
  forall n out,
    LEB128.signed_loop fuel n = Ok out ->
    len out = 1 /\ - 64 <= n < 64
    \/ 1 < len out /\ ~ (- 64 * 128 ^ (len out - 2) <= n < 64 * 128 ^ (len out - 2)).
Proof.
  induction fuel as [|fuel IH]; intros n out H; cbn [LEB128.signed_loop] in H;
    rewrite shiftr_7, land_127 in H;
    pose proof (Z.mod_pos_bound n 128 ltac:(lia)) as Hm;
    pose proof (Z.div_mod n 128 ltac:(lia)) as Hd;
    rewrite (land_64 (n mod 128)) in H by lia;
    rewrite (Z.mod_small (n mod 128) 128) in H by lia;
    destruct (Z.eqb_spec (n / 128) 0) as [E0|E0];
    destruct (Z.eqb_spec (n / 128) (-1)) as [E1|E1];
    destruct (Z.leb_spec 64 (n mod 128)) as [H64|H64];
    cbn [negb andb orb] in H;
    try discriminate H;
    try (injection H as <-; left; change (len [n mod 128]) with 1; lia).
  all: destruct (LEB128.signed_loop fuel (n / 128)) as [out'| |] eqn:Hrun;
    try discriminate H.
  all: cbn [bind] in H; injection H as <-; right; rewrite len_cons.
  all: pose proof (len_nonneg out') as Hl.
  all: destruct (IH _ _ Hrun) as [[Hone Hr] | [Hmore Hr]].
  all: try (rewrite Hone; change (1 + 1 - 2) with 0; change (128 ^ 0) with 1; lia).
  all: split; [lia|]; intros Hn; apply Hr.
  all: replace (len out' + 1 - 2) with ((len out' - 2) + 1) in Hn by lia.
  all: rewrite Z.pow_add_r in Hn by lia; change (128 ^ 1) with 128 in Hn.
  all: assert (0 < 128 ^ (len out' - 2)) by (apply Z.pow_pos_nonneg; lia).
  all: split; [apply Z.div_le_lower_bound; lia | apply Z.div_lt_upper_bound; lia].
Qed.

(** X8: in signed mode [encode] writes an integer in as few bytes as
    signed [decode] needs to give it back: no byte sequence that decodes to
    the integer is shorter, and among the continuation terminated ones of
    the same length it is the only one. Its length is the least [k] with
    [-64 * 128^(k-1) <= v < 64 * 128^(k-1)]. *)
Theorem X8_leb128_signed_shortest (input : SmartInput.input) (v : Z) :
  integer_input input v ->
  exists bs,
    LEB128.encode input true LEB128.default = Ok (LEB128.Uint8Output bs)
    /\ continuation_terminated bs
    /\ - 64 * 128 ^ (len bs - 1) <= v < 64 * 128 ^ (len bs - 1)
    /\ (len bs = 1 \/ ~ (- 64 * 128 ^ (len bs - 2) <= v < 64 * 128 ^ (len bs - 2)))
    /\ forall bs',
        bs' <> [] ->
        LEB128.decode_integer bs' true = v ->
        (List.length bs <= List.length bs')%nat
        /\ (continuation_terminated bs' -> List.length bs' = List.length bs -> bs' = bs).
Proof.
  intros Hin. rewrite (encode_integer input v true Hin).
  rewrite andb_false_r. cbv zeta.
  destruct (signed_loop_spec (S (Z.to_nat (Z.log2 (Z.abs v)))) v (fuel_bound v))
    as (out & Hrun & Hterm & Hval).
  pose proof (signed_loop_shortest _ _ _ Hrun) as Hshort.
  rewrite Hrun. cbn [bind].
  pose proof (terminated_range out Hterm) as Hrange.
  assert (Hmap : map u8_to_Z (Uint8Array_from out) = out)
    by (apply map_u8_to_Z_from, Hrange).
  assert (Hlen : len (Uint8Array_from out) = len out)
    by (unfold Uint8Array_from; apply len_map).
  assert (Hne : out <> []) by (intros ->; destruct Hterm).
  destruct (signed_value_range out Hne Hrange) as [Hv Hsign]. rewrite Hval in Hv, Hsign.
  exists (Uint8Array_from out). rewrite Hlen.
  split; [reflexivity|]. split; [unfold continuation_terminated; rewrite Hmap; exact Hterm|].
  split; [exact Hv|]. split; [destruct Hshort as [[? ?] | [? ?]]; [left | right]; assumption|].
  intros bs' Hne' Hval'. rewrite decode_integer_value in Hval'.
  assert (Hne'' : map u8_to_Z bs' <> []) by (destruct bs'; [contradiction | discriminate]).
  destruct (signed_value_range (map u8_to_Z bs') Hne'' (bytes_in_range bs')) as [Hv' Hsign'].
  rewrite Hval', len_map in Hv'. rewrite Hval' in Hsign'.
  assert (Hle : len out <= len bs').
  { destruct (Z.le_gt_cases (len out) (len bs')) as [|Hgt]; [assumption|]. exfalso.
    destruct Hshort as [[Hone _] | [_ Hr]].
    - destruct bs'; [contradiction|]. rewrite len_cons in Hgt.
      pose proof (len_nonneg bs'). lia.
    - apply Hr.
      assert (0 <= len bs' - 1)
        by (destruct bs'; [contradiction|]; rewrite len_cons;
            pose proof (len_nonneg bs'); lia).
      assert (128 ^ (len bs' - 1) <= 128 ^ (len out - 2))
        by (apply Z.pow_le_mono_r; lia).
      lia. }
  split; [unfold len in Hle; unfold Uint8Array_from; rewrite length_map; lia|].
  intros Hterm' Hsame. unfold continuation_terminated in Hterm'.
  rewrite <- (Uint8Array_from_map bs'). f_equal.
  assert (Hsame' : List.length (map u8_to_Z bs') = List.length out).
  { rewrite length_map, Hsame. unfold Uint8Array_from. apply length_map. }
  apply terminated_inj; auto.
  assert (Hl : len (map u8_to_Z bs') = len out) by (unfold len; rewrite Hsame'; reflexivity).
  unfold signed_value in Hval, Hval', Hsign, Hsign'. rewrite Hl in *.
  destruct (Z.lt_ge_cases v 0) as [Hneg | Hpos].
  - destruct (Z.land (last out 0) 64 =? 0); [lia|].
    destruct (Z.land (last (map u8_to_Z bs') 0) 64 =? 0); cbn [negb] in *; lia.
  - assert (Hg : v = groups_value out) by (destruct (Z.eq_dec v (groups_value out)); tauto || lia).
    assert (Hg' : v = groups_value (map u8_to_Z bs'))
      by (destruct (Z.eq_dec v (groups_value (map u8_to_Z bs'))); tauto || lia).
    lia.
Qed.

Lemma X8_leb128_signed_shortest_witness :
  exists bs,
    LEB128.encode (SmartInput.Number (-129)) true LEB128.default
    = Ok (LEB128.Uint8Output bs)
    /\ continuation_terminated bs
    /\ - 64 * 128 ^ (len bs - 1) <= -129 < 64 * 128 ^ (len bs - 1)
    /\ (len bs = 1 \/ ~ (- 64 * 128 ^ (len bs - 2) <= -129 < 64 * 128 ^ (len bs - 2)))
    /\ forall bs',
        bs' <> [] ->
        LEB128.decode_integer bs' true = -129 ->
        (List.length bs <= List.length bs')%nat
        /\ (continuation_terminated bs' -> List.length bs' = List.length bs -> bs' = bs).
Proof.
  apply (X8_leb128_signed_shortest (SmartInput.Number (-129)) (-129)).
  right. split; [reflexivity | vm_compute; split; discriminate].
Defined.

(** ** The base converter: the shape of the output *)

Lemma chars_of_digits (cs : jsstring) (ds : list Z) :
  digits_in (len cs) ds ->
  len (flat_map (char_at cs) ds) = len ds
  /\ Forall (fun ch => In ch cs) (flat_map (char_at cs) ds).
Proof.
  induction 1 as [|d ds Hd _ [IHl IHc]]; [split; [reflexivity | constructor]|].
  destruct (char_at_digit cs d Hd) as (ch & Hnth & Hch).
  cbn [flat_map]. rewrite Hch. cbn [app]. rewrite !len_cons, IHl.
  split; [reflexivity|]. constructor; [|exact IHc].
  eapply nth_error_In. exact Hnth.
Qed.

Lemma frames_digits (c : BaseConverter.t) (blocks : list (list Z)) :
  2 <= BaseConverter.radix c ->
  0 < BaseConverter.bsEnc c ->
  0 < BaseConverter.bsDec c ->
  256 ^ BaseConverter.bsEnc c <= BaseConverter.radix c ^ BaseConverter.bsDec c ->
  Forall (fun block => len block = BaseConverter.bsEnc c /\ digits_in 256 block) blocks ->
  len (List.concat (map (frame_digits c) blocks))
  = BaseConverter.bsDec c * len blocks
  /\ digits_in (BaseConverter.radix c) (List.concat (map (frame_digits c) blocks)).
Proof.
  intros Hr He Hd Hfit. induction 1 as [|block blocks [Hlen Hin] _ [IHl IHd]].
  - split; [cbn; lia | constructor].
  - destruct (frame_digits_spec c block Hr He Hd Hfit Hlen Hin) as (Hfl & Hfd & _).
    cbn [map List.concat]. rewrite len_app, len_cons, IHl, Hfl.
    split; [lia|]. apply Forall_app. split; assumption.
Qed.

(** X9: for a converter with blocks, [encode] pads the input with zero
    bytes to whole blocks, fewer than a block, and reports their number;
    every block of [bsEnc] bytes gives [bsDec] characters, all of them from
    the charset. *)
Theorem X9_encode_shape (c : BaseConverter.t) (cs : jsstring) (b : list byte)
    (littleEndian : bool) :
  2 <= BaseConverter.radix c ->
  BaseConverter.radix c <> 10 ->
  0 < BaseConverter.bsEnc c ->
  0 < BaseConverter.bsDec c ->
  256 ^ BaseConverter.bsEnc c <= BaseConverter.radix c ^ BaseConverter.bsDec c ->
  len cs = BaseConverter.radix c ->
  exists s z,
    BaseConverter.encode c b (Some cs) littleEndian None
    = Ok ((s, z), if littleEndian then rev b else b)
    /\ 0 <= z < BaseConverter.bsEnc c
    /\ (len b + z) mod BaseConverter.bsEnc c = 0
    /\ len s * BaseConverter.bsEnc c = BaseConverter.bsDec c * (len b + z)
    /\ Forall (fun ch => In ch cs) s.
Proof.
  intros Hr H10 He Hd Hfit Hlen.
  destruct (padded_input_blocks c b littleEndian He) as (blocks & Hc & Hall & Hfuel).
  eexists. eexists.
  split; [apply (encode_blocked c cs b littleEndian blocks); assumption|].
  set (z := (BaseConverter.bsEnc c - len b mod BaseConverter.bsEnc c)
            mod BaseConverter.bsEnc c).
  assert (Hz : 0 <= z < BaseConverter.bsEnc c) by (apply Z.mod_pos_bound; lia).
  assert (Hpad : len (padded_input c b littleEndian) = len b + z).
  { unfold padded_input. fold z.
    destruct littleEndian; rewrite len_app, len_repeat, len_map, ?len_rev; lia. }
  assert (Hblocks : len b + z = len blocks * BaseConverter.bsEnc c).
  { rewrite <- Hpad, Hc. apply len_concat_blocks.
    eapply Forall_impl; [|exact Hall]. intros block [H _]. exact H. }
  destruct (frames_digits c blocks Hr He Hd Hfit Hall) as [Hfl Hfd].
  rewrite <- Hlen in Hfd.
  destruct (chars_of_digits cs _ Hfd) as [Hsl Hsc].
  split; [exact Hz|]. split; [rewrite Hblocks; apply Z.mod_mul; lia|].
  split; [rewrite Hsl, Hfl, Hblocks; lia | exact Hsc].
Qed.

Lemma X9_encode_shape_witness :
  exists s z,
    BaseConverter.encode base64_converter [x4d; x61] (Some base64_charset) false None
    = Ok ((s, z), [x4d; x61])
    /\ 0 <= z < 3
    /\ (len [x4d; x61] + z) mod 3 = 0
    /\ len s * 3 = 4 * (len [x4d; x61] + z)
    /\ Forall (fun ch => In ch base64_charset) s.
Proof.
  apply (X9_encode_shape base64_converter base64_charset [x4d; x61] false);
    vm_compute; (reflexivity || discriminate).
Defined.

(** ** The hexadecimal version of LEB128 *)

Lemma toLowerCase_hex (s : jsstring) :
  Forall (fun ch => In ch LEB128.hex_charset) s -> toLowerCase s = s.
Proof.
  induction 1 as [|ch s Hch _ IH]; [reflexivity|].
  unfold toLowerCase in *. cbn [map]. rewrite IH. f_equal.
  cbn in Hch. repeat (destruct Hch as [<- | Hch]; [reflexivity|]). destruct Hch.
Qed.

Lemma hexlify_round_trip (bytes : list byte) :
  exists s,
    BaseConverter.encode LEB128.hexlify bytes (Some LEB128.hex_charset) false None
    = Ok ((s, 0), bytes)
    /\ len s = 2 * len bytes
    /\ Forall (fun ch => In ch LEB128.hex_charset) s
    /\ BaseConverter.decode LEB128.hexlify s LEB128.hex_charset false = Ok bytes.
Proof.
  assert (Hr : 2 <= BaseConverter.radix LEB128.hexlify) by (cbn; lia).
  assert (He : 0 < BaseConverter.bsEnc LEB128.hexlify) by (cbn; lia).
  assert (Hd : 0 < BaseConverter.bsDec LEB128.hexlify) by (cbn; lia).
  assert (Hfit : 256 ^ BaseConverter.bsEnc LEB128.hexlify
                 <= BaseConverter.radix LEB128.hexlify ^ BaseConverter.bsDec LEB128.hexlify)
    by (cbn; lia).
  assert (Hz : (BaseConverter.bsEnc LEB128.hexlify
                - len bytes mod BaseConverter.bsEnc LEB128.hexlify)
               mod BaseConverter.bsEnc LEB128.hexlify = 0)
    by (cbn [BaseConverter.bsEnc LEB128.hexlify]; apply Z.mod_1_r).
  destruct (padded_input_blocks LEB128.hexlify bytes false He) as (blocks & Hc & Hall & Hfuel).
  assert (Hpad : padded_input LEB128.hexlify bytes false = map u8_to_Z bytes).
  { unfold padded_input. rewrite Hz. cbn [Z.to_nat repeat]. apply app_nil_r. }
  eexists. split.
  { rewrite (encode_blocked LEB128.hexlify LEB128.hex_charset bytes false blocks)
      by (assumption || discriminate).
    rewrite Hz. reflexivity. }
  destruct (frames_digits LEB128.hexlify blocks Hr He Hd Hfit Hall) as [Hfl Hfd].
  destruct (chars_of_digits LEB128.hex_charset _ Hfd) as [Hsl Hsc].
  assert (Hblocks : len bytes = len blocks).
  { rewrite <- (len_map u8_to_Z bytes), <- Hpad, Hc.
    rewrite (len_concat_blocks (BaseConverter.bsEnc LEB128.hexlify)).
    - cbn [BaseConverter.bsEnc LEB128.hexlify]. unfold len. lia.
    - eapply Forall_impl; [|exact Hall]. intros block [H _]. exact H. }
  split; [rewrite Hsl, Hfl, Hblocks; reflexivity|]. split; [exact Hsc|].
  rewrite (decode_of_frames LEB128.hexlify LEB128.hex_charset blocks false)
    by (assumption || apply NoDup_hex_charset || reflexivity).
  cbn [bind]. rewrite <- Hc, Hpad, Uint8Array_from_map. reflexivity.
Qed.

(** X10: the hexadecimal version of LEB128 writes two characters of
    [0123456789abcdef] for every byte of the default version, and [decode]
    reads them back, in upper or lower case, to what it makes of those
    bytes. *)
Theorem X10_leb128_hex (input : SmartInput.input) (v : Z) (signed : bool) :
  integer_input input v ->
  0 <= v \/ signed = true ->
  exists bs s,
    LEB128.encode input signed LEB128.default = Ok (LEB128.Uint8Output bs)
    /\ LEB128.encode input signed LEB128.hex = Ok (LEB128.HexOutput s)
    /\ len s = 2 * len bs
    /\ Forall (fun ch => In ch LEB128.hex_charset) s
    /\ forall s' signed',
        toLowerCase s' = s ->
        LEB128.decode (LEB128.FromHex s') signed'
        = LEB128.decode (LEB128.FromBytes bs) signed'.
Proof.
  intros Hin Hs.
  destruct (toBytes_integer input v true Hin) as (bytes & Hbytes & Hval).
  pose proof (encode_handled input bytes (v <? 0) signed LEB128.default Hbytes) as Hdef.
  pose proof (encode_handled input bytes (v <? 0) signed LEB128.hex Hbytes) as Hhex.
  destruct (encode_decode_integer input v signed Hin Hs) as (bs & Henc & _ & _).
  rewrite Henc in Hdef.
  assert (E : (v <? 0) && negb signed = false).
  { destruct Hs as [Hv | ->]; [|apply andb_false_r].
    destruct (Z.ltb_spec v 0); [lia | reflexivity]. }
  rewrite E in Hdef, Hhex. cbv zeta in Hdef, Hhex.
  destruct (if signed then LEB128.signed_loop _ _ else LEB128.unsigned_loop _ _)
    as [output | |]; try discriminate Hdef.
  cbn [bind] in Hdef, Hhex. injection Hdef as ->.
  destruct (hexlify_round_trip (Uint8Array_from output)) as (s & Hs1 & Hs2 & Hs3 & Hs4).
  rewrite Hs1 in Hhex. cbn [bind fst] in Hhex.
  exists (Uint8Array_from output), s.
  split; [exact Henc|]. split; [exact Hhex|]. split; [exact Hs2|]. split; [exact Hs3|].
  intros s' signed' Hlow. unfold LEB128.decode. rewrite Hlow, Hs4. reflexivity.
Qed.

Lemma X10_leb128_hex_witness :
  exists bs s,
    LEB128.encode (SmartInput.Number 300) false LEB128.default
    = Ok (LEB128.Uint8Output bs)
    /\ LEB128.encode (SmartInput.Number 300) false LEB128.hex = Ok (LEB128.HexOutput s)
    /\ len s = 2 * len bs
    /\ Forall (fun ch => In ch LEB128.hex_charset) s
    /\ forall s' signed',
        toLowerCase s' = s ->
        LEB128.decode (LEB128.FromHex s') signed'
        = LEB128.decode (LEB128.FromBytes bs) signed'.
Proof.
  apply (X10_leb128_hex (SmartInput.Number 300) 300 false).
  - right. split; [reflexivity | vm_compute; split; discriminate].
  - left. lia.
Defined.

(** ** The decimal converter without blocks *)

(** The base 10 converter without blocks on the decimal string of a number:
    the bytes of the number, as few as hold it. *)
Lemma decode_base10 (m : Z) (littleEndian : bool) :
  0 <= m ->
  exists out,
    BaseConverter.decode LEB128.converter (BaseConverter.BigInt_toString m)
      BaseConverter.decimal_digits littleEndian = Ok out
    /\ bytes_value littleEndian out = m
    /\ 1 <= len out
    /\ (len out = 1 \/ 256 ^ (len out - 1) <= m).
Proof.
  intros Hm.
  destruct (BigInt_toString_nonneg m Hm) as [ds [_ [Hin [Hval [Hhd Hs]]]]].
  rewrite Hs, decode_as_digits, known_digits_chars
    by (try apply NoDup_decimal_digits; exact Hin).
  unfold BaseConverter.decode_digits, LEB128.converter.
  cbn [BaseConverter.bsDec BaseConverter.bsEnc]. change (0 =? 0) with true.
  cbv iota. cbn [bind].
  assert (Hne : 0 < len ds).
  { destruct ds; [destruct Hhd as [[H _]|H]; [discriminate | simpl in H; lia]|].
    rewrite len_cons. pose proof (len_nonneg ds). lia. }
  pose proof (decode_blocks_concat (BaseConverter.new 10 0 0 0) (len ds) [ds]
                ltac:(simpl; lia) Hne
                ltac:(constructor; [split; [reflexivity | exact Hin] | constructor])
                [] [] (List.length ds)) as Hrun.
  cbn [List.concat map app] in Hrun. rewrite !app_nil_r in Hrun.
  change (len (@nil Z)) with 0 in Hrun.
  rewrite Hrun by (unfold len in Hne; simpl; lia). clear Hrun. cbn [bind].
  unfold block_bytes. cbn [BaseConverter.radix BaseConverter.bsEnc]. rewrite Hval.
  destruct (to_digits_spec 256 m ltac:(lia) Hm) as [bs [Hrun [Hbs [Hv [Hmin Hhd']]]]].
  rewrite Hrun.
  assert (Hu : BaseConverter.unshift_zeros 0 bs = bs).
  { unfold BaseConverter.unshift_zeros. pose proof (len_nonneg bs).
    replace (Z.to_nat (0 - len bs)) with 0%nat by lia. reflexivity. }
  rewrite Hu.
  assert (Hlen : 1 <= len bs).
  { destruct bs as [|y bs]; [destruct Hhd' as [[H _]|H]; [discriminate | simpl in H; lia]|].
    rewrite len_cons. pose proof (len_nonneg bs). lia. }
  assert (Hshort : len bs = 1 \/ 256 ^ (len bs - 1) <= m).
  { destruct (Z.eq_dec (len bs) 1) as [|Hne1]; [left; assumption | right].
    destruct (Z.le_gt_cases (256 ^ (len bs - 1)) m) as [|Hlt]; [assumption|].
    pose proof (Hmin (len bs - 2) ltac:(lia)) as Hk.
    replace (len bs - 2 + 1) with (len bs - 1) in Hk by lia. lia. }
  exists (Uint8Array_from (if littleEndian then rev bs else bs)).
  assert (Hl : len (Uint8Array_from (if littleEndian then rev bs else bs)) = len bs).
  { unfold Uint8Array_from. rewrite len_map. destruct littleEndian; rewrite ?len_rev; reflexivity. }
  rewrite Hl. split; [|split; [|split; assumption]].
  - destruct littleEndian; [|reflexivity].
    destruct (Z.ltb_spec 1 (len bs)) as [Hlong|Hshort'].
    + destruct bs as [|y bs]; [change (len (@nil Z)) with 0 in Hlong; lia|].
      destruct Hhd' as [[H _]|H].
      * inversion H; subst. change (len [0]) with 1 in Hlong. lia.
      * cbn [hd] in H. cbn [BaseConverter.shift_zeros].
        destruct (Z.eqb_spec y 0); [lia|]. reflexivity.
    + destruct bs as [|y [|y' bs]]; try reflexivity.
      rewrite !len_cons in Hshort'. pose proof (len_nonneg bs). lia.
  - rewrite <- big_endian_value.
    assert (E : (if littleEndian
                 then rev (Uint8Array_from (if littleEndian then rev bs else bs))
                 else Uint8Array_from (if littleEndian then rev bs else bs))
                = Uint8Array_from bs).
    { unfold Uint8Array_from. destruct littleEndian; [|reflexivity].
      rewrite <- map_rev, rev_involutive. reflexivity. }
    rewrite E, map_u8_to_Z_from; [exact Hv | exact Hbs].
Qed.

Lemma bytes_value_inj (littleEndian : bool) (b b' : list byte) :
  len b = len b' -> bytes_value littleEndian b = bytes_value littleEndian b' -> b = b'.
Proof.
  intros Hlen Hval.
  rewrite <- (big_endian_value littleEndian b), <- (big_endian_value littleEndian b') in Hval.
  assert (Hl : List.length (map u8_to_Z (if littleEndian then rev b else b))
               = List.length (map u8_to_Z (if littleEndian then rev b' else b'))).
  { rewrite !length_map. unfold len in Hlen.
    destruct littleEndian; rewrite ?length_rev; lia. }
  pose proof (horner_inj 256 ltac:(lia) _ _ (bytes_in_range _) (bytes_in_range _) Hl Hval) as E.
  assert (Hinj : forall l l' : list byte, map u8_to_Z l = map u8_to_Z l' -> l = l').
  { induction l as [|x l IH]; intros [|x' l'] H; try discriminate H; [reflexivity|].
    cbn [map] in H. injection H as Hx Hl'. f_equal; [apply u8_to_Z_inj, Hx | apply IH, Hl']. }
  apply Hinj in E. destruct littleEndian; [|exact E].
  rewrite <- (rev_involutive b), <- (rev_involutive b'), E. reflexivity.
Qed.

(** X11: the decimal converter without blocks writes the number that the
    bytes spell in the byte order given, and reads it back into as few
    bytes as hold it, at least one: the round trip is the identity exactly
    on the byte sequences without a zero byte on the most significant side
    (or of the single byte); an empty input comes back as one zero byte. *)
Theorem X11_decimal_round_trip (b : list byte) (littleEndian : bool) :
  exists s out,
    BaseConverter.encode LEB128.converter b None littleEndian None
    = Ok ((s, 0), if littleEndian then rev b else b)
    /\ BaseConverter.BigInt_of_string s = Ok (bytes_value littleEndian b)
    /\ BaseConverter.decode LEB128.converter s BaseConverter.decimal_digits littleEndian
       = Ok out
    /\ bytes_value littleEndian out = bytes_value littleEndian b
    /\ 1 <= len out
    /\ (len out = 1 \/ 256 ^ (len out - 1) <= bytes_value littleEndian b)
    /\ (out = b <->
        len b = 1 \/ 1 < len b /\ 256 ^ (len b - 1) <= bytes_value littleEndian b).
Proof.
  pose proof (bytes_value_bounds littleEndian b) as Hb.
  destruct (decode_base10 (bytes_value littleEndian b) littleEndian ltac:(lia))
    as (out & Hdec & Hval & Hlen & Hmin).
  exists (BaseConverter.BigInt_toString (bytes_value littleEndian b)), out.
  split; [apply encode_base10|].
  split; [apply BigInt_of_string_toString; lia|].
  split; [exact Hdec|]. split; [exact Hval|]. split; [exact Hlen|]. split; [exact Hmin|].
  pose proof (bytes_value_bounds littleEndian out) as Hout. rewrite Hval in Hout.
  split.
  - intros <-. destruct Hmin as [H1 | Hm]; [left; exact H1|].
    destruct (Z.eq_dec (len out) 1); [left; assumption | right; lia].
  - intros Hshort. apply (bytes_value_inj littleEndian); [|exact Hval].
    assert (Hle : forall x y, 0 <= x -> 0 <= y -> 256 ^ x < 256 ^ (y + 1) -> x <= y).
    { intros x y Hx Hy Hp. destruct (Z.le_gt_cases x y) as [|Hgt]; [assumption|].
      assert (256 ^ (y + 1) <= 256 ^ x) by (apply Z.pow_le_mono_r; lia). lia. }
    assert (H256 : forall l : list byte, len l = 1 -> 256 ^ len l = 256)
      by (intros l ->; reflexivity).
    pose proof (len_nonneg b).
    destruct Hshort as [H1 | [Hlong Hlow]]; destruct Hmin as [H1' | Hlow'].
    + lia.
    + rewrite (H256 b H1) in Hb.
      assert (len out - 1 <= 0);
        [apply Hle; try lia; change (256 ^ (0 + 1)) with 256; lia | lia].
    + rewrite (H256 out H1') in Hout.
      assert (len b - 1 <= 0);
        [apply Hle; try lia; change (256 ^ (0 + 1)) with 256; lia | lia].
    + assert (len out - 1 <= len b - 1)
        by (apply Hle; try lia; replace (len b - 1 + 1) with (len b) by lia; lia).
      assert (len b - 1 <= len out - 1)
        by (apply Hle; try lia; replace (len out - 1 + 1) with (len out) by lia; lia).
      lia.
Qed.

(** ** The base converter: what goes wrong *)

Lemma shift_zeros_zeros (k : nat) : BaseConverter.shift_zeros (repeat 0 k) = Diverge.
Proof. induction k as [|k IH]; [reflexivity | exact IH]. Qed.

Lemma concat_repeat_zeros (k m : nat) :
  List.concat (repeat (repeat 0 k) m) = repeat 0 (m * k).
Proof.
  induction m as [|m IH]; [reflexivity|].
  cbn [repeat List.concat]. rewrite IH, <- repeat_app. reflexivity.
Qed.

Lemma block_bytes_zeros (c : BaseConverter.t) (k : nat) :
  0 < BaseConverter.bsEnc c ->
  block_bytes c (repeat 0 k) = repeat 0 (Z.to_nat (BaseConverter.bsEnc c)).
Proof.
  intros He. unfold block_bytes.
  pose proof (horner_zeros (BaseConverter.radix c) k []) as Hz.
  rewrite app_nil_r in Hz. rewrite Hz. change (horner (BaseConverter.radix c) [] 0) with 0.
  change (BaseConverter.to_digits 256 0) with (@Ok (list Z) [0]).
  unfold BaseConverter.unshift_zeros. change (len [0]) with 1.
  change [0] with (repeat 0 1). rewrite <- repeat_app. f_equal. lia.
Qed.

(** X12: little endian [decode] does not return when all the digits it
    is given are zero and make up more than one byte: the loop that removes
    the zero bytes empties the array and goes on reading [undefined]. *)
Theorem X12_decode_little_endian_diverges (c : BaseConverter.t) (cs s : jsstring)
    (k : nat) :
  0 < BaseConverter.radix c ->
  0 < BaseConverter.bsEnc c ->
  0 < BaseConverter.bsDec c ->
  BaseConverter.decPadVal c = 0 ->
  BaseConverter.known_digits cs s = repeat 0 (S k) ->
  1 < BaseConverter.bsEnc c \/ BaseConverter.bsDec c < Z.of_nat (S k) ->
  BaseConverter.decode c s cs true = Diverge.
Proof.
  intros Hr He Hd Hpad Hdigits Hmore.
  rewrite decode_as_digits, Hdigits. unfold BaseConverter.decode_digits.
  destruct (Z.eqb_spec (BaseConverter.bsDec c) 0) as [E | _]; [lia|].
  set (d := BaseConverter.bsDec c) in *. set (e := BaseConverter.bsEnc c) in *.
  rewrite len_repeat.
  destruct (delta_spec (Z.of_nat (S k)) d ltac:(lia) Hd) as (-> & Hp & Hmult & _).
  set (p := (d - Z.of_nat (S k) mod d) mod d) in *.
  unfold new_Array_fill. destruct (Z.ltb_spec p 0); [lia|]. cbn [bind].
  rewrite Hpad, <- repeat_app.
  set (n := (Z.to_nat p + S k)%nat).
  assert (Hm : exists m : nat, n = (m * Z.to_nat d)%nat /\ (1 <= m)%nat
                               /\ (BaseConverter.bsDec c < Z.of_nat (S k) -> (2 <= m)%nat)).
  { exists (Z.to_nat ((Z.of_nat (S k) + p) / d)).
    pose proof (Z.div_mod (Z.of_nat (S k) + p) d ltac:(lia)) as Hdm.
    rewrite Hmult, Z.add_0_r in Hdm.
    assert (0 <= (Z.of_nat (S k) + p) / d) by (apply Z.div_pos; lia).
    fold d. unfold n. split; [|nia]. apply Nat2Z.inj.
    rewrite Nat2Z.inj_mul, Nat2Z.inj_add, !Z2Nat.id by lia. lia. }
  destruct Hm as (m & Hn & Hm1 & Hm2). rewrite Hn, <- concat_repeat_zeros.
  pose proof (decode_blocks_concat c d (repeat (repeat 0 (Z.to_nat d)) m) Hr Hd) as Hrun.
  specialize (Hrun ltac:(apply Forall_forall; intros block Hb; apply repeat_spec in Hb;
                         subst block; split;
                         [rewrite len_repeat; lia
                         |apply Forall_forall; intros x Hx; apply repeat_spec in Hx; lia])
                [] [] (List.length (List.concat (repeat (repeat 0 (Z.to_nat d)) m)))).
  cbn [app] in Hrun. change (len (@nil Z)) with 0 in Hrun.
  rewrite Hrun; [|rewrite concat_repeat_zeros, !repeat_length; nia].
  clear Hrun. cbn [bind].
  rewrite map_repeat, (block_bytes_zeros c _ He). fold e.
  rewrite concat_repeat_zeros, len_repeat.
  destruct (Z.ltb_spec 1 (Z.of_nat (m * Z.to_nat e))) as [_ | Hshort].
  - rewrite shift_zeros_zeros. reflexivity.
  - exfalso. destruct Hmore as [He2 | Hk]; [|specialize (Hm2 Hk)]; nia.
Qed.

Lemma X12_decode_little_endian_diverges_witness :
  BaseConverter.decode LEB128.hexlify (str "0000") LEB128.hex_charset true = Diverge.
Proof.
  apply (X12_decode_little_endian_diverges LEB128.hexlify LEB128.hex_charset
           (str "0000") 3); try reflexivity.
  right. vm_compute. reflexivity.
Defined.

(** X13: a converter of radix 10 with a block size, which is what the
    constructor makes without explicit block sizes, converts only the first
    block: in big endian order the bytes after the first [bsEnc] have no
    influence on the result, and an empty input makes it throw a TypeError
    (it reads a byte that is not there). *)
Theorem X13_encode_decimal_first_block (c : BaseConverter.t) :
  BaseConverter.radix c = 10 ->
  0 < BaseConverter.bsEnc c ->
  (forall charset littleEndian replacer,
      BaseConverter.encode c [] charset littleEndian replacer
      = Throw (TypeError "Cannot convert undefined to a BigInt"))
  /\ (forall block tail charset replacer,
         len block = BaseConverter.bsEnc c ->
         BaseConverter.encode c (block ++ tail) charset false replacer
         = Ok ((BaseConverter.BigInt_toString (bytes_value false block), 0),
               block ++ tail)).
Proof.
  intros Hr He. split.
  - intros charset littleEndian replacer. unfold BaseConverter.encode. cbv zeta.
    destruct (Z.eqb_spec (BaseConverter.bsEnc c) 0) as [E | _]; [lia|]. cbv iota.
    destruct (Z.eqb_spec (BaseConverter.bsEnc c) 0) as [E | _]; [lia|]. cbv iota.
    change (len (@nil byte)) with 0.
    rewrite Z.rem_0_l, Z.sub_0_r, Z.rem_same by lia.
    cbn [new_Array_fill Z.ltb Z.compare bind Z.to_nat repeat].
    rewrite Hr. change (10 =? 10) with true. cbv iota.
    assert (Hempty : (if littleEndian
                      then [] ++ map u8_to_Z (if littleEndian then rev [] else [])
                      else map u8_to_Z (if littleEndian then rev [] else []) ++ [])
                     = @nil Z) by (destruct littleEndian; reflexivity).
    rewrite Hempty.
    destruct (Z.to_nat (BaseConverter.bsEnc c)) as [|n] eqn:En; [lia|]. reflexivity.
  - intros block tail charset replacer Hlen. unfold BaseConverter.encode. cbv zeta.
    destruct (Z.eqb_spec (BaseConverter.bsEnc c) 0) as [E | _]; [lia|]. cbv iota.
    destruct (Z.eqb_spec (BaseConverter.bsEnc c) 0) as [E | _]; [lia|]. cbv iota.
    set (e := BaseConverter.bsEnc c) in *.
    destruct (delta_spec (len (block ++ tail)) e (len_nonneg _) He) as (-> & Hp & _).
    unfold new_Array_fill.
    destruct (Z.ltb_spec ((e - len (block ++ tail) mod e) mod e) 0); [lia|]. cbn [bind].
    rewrite Hr. change (10 =? 10) with true. cbv iota.
    rewrite map_app, <- app_assoc.
    replace (Z.to_nat e) with (List.length (map u8_to_Z block))
      by (rewrite length_map; unfold len in Hlen; lia).
    pose proof (read_bytes_horner (map u8_to_Z block) [] (map u8_to_Z tail ++ repeat 0
                 (Z.to_nat ((e - len (block ++ tail) mod e) mod e))) 0) as Hrun.
    cbn [app] in Hrun. change (len (@nil Z)) with 0 in Hrun. rewrite Hrun. cbn [bind].
    rewrite (big_endian_value false block). reflexivity.
Qed.

Lemma X13_encode_decimal_first_block_witness :
  BaseConverter.encode (BaseConverter.new 10 2 5 0) [] None false None
  = Throw (TypeError "Cannot convert undefined to a BigInt")
  /\ BaseConverter.encode (BaseConverter.new 10 2 5 0) ([x01; x00] ++ [xff; xff])
       None false None
     = Ok ((BaseConverter.BigInt_toString (bytes_value false [x01; x00]), 0),
           [x01; x00] ++ [xff; xff]).
Proof.
  destruct (X13_encode_decimal_first_block (BaseConverter.new 10 2 5 0))
    as [Hempty Hfirst]; [reflexivity | reflexivity |].
  split; [apply Hempty | apply Hfirst; reflexivity].
Defined.

Lemma to_digits_returns (n : Z) : exists ds, BaseConverter.to_digits 256 n = Ok ds.
Proof.
  destruct (Z.lt_ge_cases n 0) as [Hneg | Hpos].
  - unfold BaseConverter.to_digits. cbn [BaseConverter.divmod_loop].
    destruct (Z.leb_spec 256 n); [lia|]. eexists. reflexivity.
  - destruct (to_digits_spec 256 n ltac:(lia) Hpos) as (ds & H & _). exists ds. exact H.
Qed.

Lemma decode_blocks_returns (c : BaseConverter.t) (bs : Z) (blocks : list (list Z)) :
  0 < bs ->
  Forall (fun block => len block = bs) blocks ->
  forall pre b256Array fuel,
    (List.length blocks <= fuel)%nat ->
    exists out,
      BaseConverter.decode_blocks c fuel (pre ++ List.concat blocks) bs (len pre) b256Array
      = Ok out.
Proof.
  intros Hbs. induction 1 as [|block blocks Hlen _ IH]; intros pre b256Array fuel Hfuel.
  - cbn [List.concat]. rewrite app_nil_r. exists b256Array.
    destruct fuel; cbn [BaseConverter.decode_blocks]; rewrite Z.ltb_irrefl; reflexivity.
  - destruct fuel as [|fuel]; [simpl in Hfuel; lia|].
    cbn [BaseConverter.decode_blocks List.concat].
    destruct (Z.ltb_spec (len pre) (len (pre ++ block ++ List.concat blocks))) as [_|Hge];
      [|rewrite !len_app in Hge; pose proof (len_nonneg (List.concat blocks)); lia].
    replace (Z.to_nat bs) with (List.length block) by (unfold len in Hlen; lia).
    pose proof (sum_digits_horner c block [] pre (List.concat blocks) 0) as Hsum.
    change (len (@nil Z)) with 0 in Hsum. cbn [app] in Hsum.
    rewrite Z.add_0_l, Hlen in Hsum. rewrite Hsum. cbn [bind].
    destruct (to_digits_returns (0 + horner (BaseConverter.radix c) block 0)) as [ds Hrun].
    rewrite Hrun. cbn [bind].
    replace (pre ++ block ++ List.concat blocks) with ((pre ++ block) ++ List.concat blocks)
      by (rewrite <- app_assoc; reflexivity).
    replace (len pre + bs) with (len (pre ++ block)) by (rewrite len_app; lia).
    apply IH. simpl in Hfuel. lia.
Qed.

(** X14: big endian [decode] returns for every string and every charset,
    whatever the radix and the padding value of the converter: it never
    throws and its loops end. *)
Theorem X14_decode_big_endian_returns (c : BaseConverter.t) (cs s : jsstring) :
  0 <= BaseConverter.bsDec c ->
  exists out, BaseConverter.decode c s cs false = Ok out.
Proof.
  intros Hd. rewrite decode_as_digits.
  set (digits := BaseConverter.known_digits cs s).
  unfold BaseConverter.decode_digits.
  assert (Hblocks : forall (bs : Z) (byteArray : list Z),
             0 < bs -> (exists m : nat, len byteArray = Z.of_nat m * bs) ->
             exists out,
               BaseConverter.decode_blocks c (List.length byteArray) byteArray bs 0 [] = Ok out).
  { intros bs byteArray Hbs [m Hm].
    destruct (chunks_exist (Z.to_nat bs) m ltac:(lia) byteArray) as (blocks & Hc & Hall & Hcount).
    { apply Nat2Z.inj. rewrite Nat2Z.inj_mul, Z2Nat.id by lia. exact Hm. }
    assert (Hall' : Forall (fun block => len block = bs) blocks).
    { refine (Forall_impl _ _ Hall). intros block Hb. unfold len. lia. }
    pose proof (decode_blocks_returns c bs blocks Hbs Hall' [] []
                  (List.length byteArray)) as Hrun.
    cbn [app] in Hrun. change (len (@nil Z)) with 0 in Hrun. rewrite <- Hc in Hrun.
    apply Hrun. rewrite Hcount. unfold len in Hm. nia. }
  destruct (Z.eqb_spec (BaseConverter.bsDec c) 0) as [E | Hne].
  - cbn [bind]. destruct digits as [|x digits'] eqn:Ed.
    + eexists. reflexivity.
    + rewrite <- Ed.
      destruct (Hblocks (len digits) digits) as [out Hrun].
      { rewrite Ed, len_cons. pose proof (len_nonneg digits'). lia. }
      { exists 1%nat. lia. }
      rewrite Hrun. cbn [bind]. eexists. reflexivity.
  - set (d := BaseConverter.bsDec c) in *.
    destruct (delta_spec (len digits) d (len_nonneg _) ltac:(lia)) as (-> & Hp & Hmult & _).
    set (p := (d - len digits mod d) mod d) in *.
    unfold new_Array_fill. destruct (Z.ltb_spec p 0); [lia|]. cbn [bind].
    destruct (Hblocks d (digits ++ repeat (BaseConverter.decPadVal c) (Z.to_nat p)))
      as [out Hrun]; [lia| |].
    { rewrite len_app, len_repeat, Z2Nat.id by lia.
      exists (Z.to_nat ((len digits + p) / d)).
      pose proof (Z.div_mod (len digits + p) d ltac:(lia)) as Hdm.
      rewrite Hmult, Z.add_0_r in Hdm. pose proof (len_nonneg digits).
      rewrite Z2Nat.id by (apply Z.div_pos; lia). lia. }
    rewrite Hrun. cbn [bind]. unfold BaseConverter.padChars, Math_ceil_div. fold d.
    destruct (Z.eqb_spec d 0); [lia|]. cbn [bind]. eexists. reflexivity.
Qed.

Lemma X14_decode_big_endian_returns_witness :
  exists out,
    BaseConverter.decode base64_converter (str "TQ==") base64_charset false = Ok out.
Proof.
  apply (X14_decode_big_endian_returns base64_converter base64_charset (str "TQ==")).
  vm_compute. discriminate.
Defined.

(** ** The utilities *)

Lemma strip_zeros_spec (output : jsstring) :
  exists k,
    output = repeat "0"%char k ++ Utils.strip_zeros output
    /\ (output <> [] -> Utils.strip_zeros output <> [])
    /\ (forall rest, Utils.strip_zeros output = "0"%char :: rest -> rest = []).
Proof.
  induction output as [|c rest IH].
  - exists 0%nat. split; [reflexivity|]. split; [tauto | discriminate].
  - cbn [Utils.strip_zeros]. destruct rest as [|d rest'].
    + exists 0%nat. split; [reflexivity|]. split; [discriminate|].
      intros r H. injection H as _ <-. reflexivity.
    + destruct (Ascii.eqb_spec c "0"%char) as [-> | Hc].
      * destruct IH as (k & Hk & Hne & Hz). exists (S k).
        split; [cbn [repeat app]; rewrite <- Hk; reflexivity|].
        split; [intros _; apply Hne; discriminate | exact Hz].
      * exists 0%nat. split; [reflexivity|]. split; [discriminate|].
        intros r H. injection H as -> _. contradiction.
Qed.

Lemma known_digits_zeros (cs : jsstring) (k : nat) (s : jsstring) :
  indexOf cs "0"%char = 0 ->
  BaseConverter.known_digits cs (repeat "0"%char k ++ s)
  = repeat 0 k ++ BaseConverter.known_digits cs s.
Proof.
  intros H0. unfold BaseConverter.known_digits. rewrite flat_map_app. f_equal.
  induction k as [|k IH]; [reflexivity|].
  cbn [repeat flat_map]. rewrite H0, IH. reflexivity.
Qed.

(** X15: [toSignedStr] removes the zeros at the start of the output, all of
    them but never the last character, and puts the sign in front, which
    [extractSign] takes off again. The zeros removed do not change the
    number the digits spell in a charset whose digit zero is the
    character 0. *)
Theorem X15_toSignedStr (output : jsstring) (negative : bool) :
  ~ In "-"%char output ->
  extractSign (Utils.toSignedStr output negative) = (Utils.strip_zeros output, negative)
  /\ (exists k, output = repeat "0"%char k ++ Utils.strip_zeros output)
  /\ (output <> [] -> Utils.strip_zeros output <> [])
  /\ (forall rest, Utils.strip_zeros output = "0"%char :: rest -> rest = [])
  /\ (forall cs radix,
         indexOf cs "0"%char = 0 ->
         horner radix (BaseConverter.known_digits cs (Utils.strip_zeros output)) 0
         = horner radix (BaseConverter.known_digits cs output) 0).
Proof.
  intros Hsign. destruct (strip_zeros_spec output) as (k & Hk & Hne & Hz).
  split; [|split; [exists k; exact Hk | split; [exact Hne | split; [exact Hz|]]]].
  - unfold Utils.toSignedStr. destruct negative; [reflexivity|].
    destruct (Utils.strip_zeros output) as [|c rest] eqn:E; [reflexivity|].
    destruct (Ascii.eqb_spec c "-"%char) as [-> | Hc].
    + exfalso. apply Hsign. rewrite Hk. apply in_or_app. right. left. reflexivity.
    + unfold extractSign. destruct c as [[] [] [] [] [] [] [] []]; try reflexivity.
      contradiction Hc. reflexivity.
  - intros cs radix H0. rewrite Hk at 2.
    rewrite (known_digits_zeros cs k _ H0). symmetry. apply horner_zeros.
Qed.

Lemma X15_toSignedStr_witness :
  extractSign (Utils.toSignedStr (str "00ff") true) = (Utils.strip_zeros (str "00ff"), true).
Proof.
  apply (X15_toSignedStr (str "00ff") true).
  cbn. intuition discriminate.
Defined.

Lemma jsstring_eqb_eq (s t : jsstring) : Utils.jsstring_eqb s t = true <-> s = t.
Proof.
  revert t. induction s as [|c s IH]; intros [|d t]; cbn [Utils.jsstring_eqb];
    try (split; [discriminate | discriminate]); [tauto|].
  rewrite andb_true_iff, IH, Ascii.eqb_eq. split.
  - intros [-> ->]. reflexivity.
  - intros H. injection H as -> ->. auto.
Qed.

Lemma includes_In (a : list jsstring) (x : jsstring) :
  Utils.includes a x = true <-> In x a.
Proof.
  unfold Utils.includes. rewrite existsb_exists. split.
  - intros (y & Hy & E). apply jsstring_eqb_eq in E. subst y. exact Hy.
  - intros H. exists x. split; [exact H | apply jsstring_eqb_eq; reflexivity].
Qed.

(** [new Set(iterable)] has every element of the iterable once. *)
Lemma Set_from_spec (iterable : list jsstring) :
  NoDup (Utils.Set_from iterable)
  /\ (forall x, In x (Utils.Set_from iterable) <-> In x iterable)
  /\ (NoDup iterable -> Utils.Set_from iterable = iterable).
Proof.
  unfold Utils.Set_from.
  assert (H : forall l set,
             NoDup set ->
             let r := fold_left (fun set x => if Utils.includes set x then set
                                              else set ++ [x]) l set in
             NoDup r /\ (forall x, In x r <-> In x set \/ In x l)
             /\ (NoDup (set ++ l) -> r = set ++ l)).
  { induction l as [|y l IH]; intros set Hset; cbv zeta.
    - cbn [fold_left]. rewrite app_nil_r. split; [exact Hset|]. split; [|reflexivity].
      intros x. cbn [In]. tauto.
    - cbn [fold_left]. destruct (Utils.includes set y) eqn:E.
      + apply includes_In in E. destruct (IH set Hset) as (H1 & H2 & H3).
        split; [exact H1|]. split.
        * intros x. rewrite H2. cbn [In]. split; [tauto|].
          intros [Hx | [<- | Hx]]; tauto.
        * intros Hnd. exfalso. apply NoDup_remove_2 in Hnd. apply Hnd.
          apply in_or_app. left. exact E.
      + assert (Hy : ~ In y set).
        { intros Hy. apply includes_In in Hy. rewrite Hy in E. discriminate. }
        assert (Hset' : NoDup (set ++ [y])).
        { apply NoDup_app; [exact Hset | constructor; [intros [] | constructor]|].
          intros x Hx [<- | []]. contradiction. }
        destruct (IH (set ++ [y]) Hset') as (H1 & H2 & H3).
        split; [exact H1|]. split.
        * intros x. rewrite H2, in_app_iff. cbn [In]. tauto.
        * intros Hnd. rewrite <- app_assoc in H3. apply H3. exact Hnd. }
  destruct (H iterable [] (NoDup_nil _)) as (H1 & H2 & H3).
  split; [exact H1|]. split; [|exact H3].
  intros x. rewrite H2. cbn [In]. tauto.
Qed.

Lemma concat_singletons (l : list jsstring) :
  (forall x, In x l -> exists c, x = [c]) ->
  NoDup l ->
  NoDup (List.concat l)
  /\ len (List.concat l) = len l
  /\ (forall ch, In ch (List.concat l) <-> In [ch] l).
Proof.
  induction l as [|x l IH]; intros Hs Hnd.
  - split; [constructor|]. split; [reflexivity|]. intros ch. cbn. tauto.
  - inversion Hnd as [|? ? Hx Hl]; subst.
    destruct (Hs x (or_introl eq_refl)) as [c ->].
    destruct (IH (fun y Hy => Hs y (or_intror Hy)) Hl) as (H1 & H2 & H3).
    cbn [List.concat app]. split; [|split].
    + constructor; [|exact H1]. rewrite H3. exact Hx.
    + rewrite !len_cons, H2. reflexivity.
    + intros ch. cbn [In]. rewrite H3. split.
      * intros [-> | H]; [left; reflexivity | right; exact H].
      * intros [H | H]; [injection H as ->; left; reflexivity | right; exact H].
Qed.

Lemma NoDup_singletons (s : jsstring) : NoDup s -> NoDup (map (fun c => [c]) s).
Proof.
  induction 1 as [|c s Hc _ IH]; [constructor|].
  cbn [map]. constructor; [|exact IH].
  rewrite in_map_iff. intros (d & E & Hd). injection E as ->. contradiction.
Qed.

Lemma In_singletons (s : jsstring) (ch : ascii) :
  In [ch] (map (fun c => [c]) s) <-> In ch s.
Proof.
  rewrite in_map_iff. split.
  - intros (d & E & Hd). injection E as ->. exact Hd.
  - intros H. exists ch. auto.
Qed.

(** X16: [addCharset] accepts a string exactly when the number of its
    distinct characters is the radix, repeated characters or not: the
    charset it stores holds each character of the string once and has the
    length of the radix. A string it rejects for repetitive characters has
    the length of the radix and a repeated character; a string it rejects
    for its length has another length, and another number of distinct
    characters. *)
Theorem X16_addCharset (setLen : Z) (s : jsstring) :
  match Utils.addCharset setLen (Utils.CharsetString s) with
  | Utils.Added charset =>
      NoDup charset /\ len charset = setLen /\ (forall ch, In ch charset <-> In ch s)
  | Utils.RepetitiveChars => len s = setLen /\ ~ NoDup s
  | Utils.WrongLength =>
      len s <> setLen
      /\ forall charset,
          NoDup charset -> (forall ch, In ch charset <-> In ch s) -> len charset <> setLen
  | Utils.WrongType => False
  end
  /\ (NoDup s -> len s = setLen ->
      Utils.addCharset setLen (Utils.CharsetString s) = Utils.Added s).
Proof.
  unfold Utils.addCharset.
  destruct (Set_from_spec (map (fun c => [c]) s)) as (Hnd & Hin & Hsame).
  set (set := Utils.Set_from (map (fun c => [c]) s)) in *.
  assert (Hsingle : forall x, In x set -> exists c, x = [c]).
  { intros x Hx. apply Hin, in_map_iff in Hx. destruct Hx as (c & <- & _). exists c.
    reflexivity. }
  destruct (concat_singletons set Hsingle Hnd) as (Hc1 & Hc2 & Hc3).
  assert (Hchars : forall ch, In ch (List.concat set) <-> In ch s).
  { intros ch. rewrite Hc3, Hin. apply In_singletons. }
  assert (Hcount : forall charset,
             NoDup charset -> (forall ch, In ch charset <-> In ch s) ->
             len charset = len set).
  { intros charset Hnd' Hin'. rewrite <- Hc2. unfold len. f_equal.
    apply Nat.le_antisymm; apply NoDup_incl_length; try assumption;
      intros ch Hch; [apply Hchars, Hin' | apply Hin', Hchars]; exact Hch. }
  split.
  - destruct (Z.eqb_spec (len set) setLen) as [E | Hne].
    + split; [exact Hc1|]. split; [rewrite Hc2; exact E | exact Hchars].
    + destruct (Z.eqb_spec (len s) setLen) as [E | Hne'].
      * split; [exact E|]. intros Hs. apply Hne. rewrite <- E.
        symmetry. apply Hcount; [exact Hs | tauto].
      * split; [exact Hne'|]. intros charset H1 H2. rewrite (Hcount charset H1 H2).
        exact Hne.
  - intros Hs Hl.
    assert (E : set = map (fun c => [c]) s) by (apply Hsame, NoDup_singletons, Hs).
    rewrite E, len_map, Hl, Z.eqb_refl. f_equal.
    clear. induction s as [|c s IH]; [reflexivity|]. cbn [map List.concat app].
    rewrite IH. reflexivity.
Qed.

(** ** The validation of the arguments *)

Lemma extraArg_cases (option0 option1 : string) (mutable : bool)
    (set : Utils.parameters -> bool -> Utils.parameters) (arg : jsstring)
    (state : Utils.parameters * bool) :
  Utils.extraArg option0 option1 mutable set arg state = Ok state
  /\ Utils.includes [str option0; str option1] arg = false
  \/ (exists b, Utils.extraArg option0 option1 mutable set arg state
                = Ok (set (fst state) b, false))
     /\ mutable = true
  \/ Utils.extraArg option0 option1 mutable set arg state
     = Throw (TypeError "Argument is not allowed for this type of converter.")
     /\ mutable = false /\ Utils.includes [str option0; str option1] arg = true.
Proof.
  unfold Utils.extraArg.
  destruct (Utils.includes [str option0; str option1] arg); [|left; split; reflexivity].
  destruct mutable; [right; left | right; right]; [|auto].
  split; [eexists; reflexivity | reflexivity].
Qed.

Lemma walk_kept (r : Utils.root) (outputTypes : list jsstring)
    (p p' : Utils.parameters) (arg : jsstring) :
  Utils.walk r outputTypes p arg = Ok p' -> kept r p -> kept r p'.
Proof.
  unfold Utils.walk. intros H (K1 & K2 & K3 & K4).
  destruct (Utils.includes (Utils.versions r) (toLowerCase arg));
    [injection H as <-; repeat split; assumption|].
  destruct (Utils.includes outputTypes (toLowerCase arg));
    [injection H as <-; repeat split; assumption|].
  destruct (extraArg_cases "be" "le" (Utils.mutable_littleEndian (Utils.isMutable r))
              Utils.set_littleEndian (toLowerCase arg) (p, true))
    as [[E1 _] | [[[b1 E1] M1] | [E1 _]]]; rewrite E1 in H; cbn [bind] in H;
    try discriminate H.
  all: match type of H with
       | context [Utils.extraArg "nopad" "pad" _ _ _ ?st] =>
           destruct (extraArg_cases "nopad" "pad"
                       (Utils.mutable_padding (Utils.isMutable r))
                       Utils.set_padding (toLowerCase arg) st)
             as [[E2 _] | [[[b2 E2] M2] | [E2 _]]]; rewrite E2 in H; cbn [bind] in H;
           try discriminate H
       end.
  all: match type of H with
       | context [Utils.extraArg "unsigned" "signed" _ _ _ ?st] =>
           destruct (extraArg_cases "unsigned" "signed"
                       (Utils.mutable_signed (Utils.isMutable r))
                       Utils.set_signed (toLowerCase arg) st)
             as [[E3 _] | [[[b3 E3] M3] | [E3 _]]]; rewrite E3 in H; cbn [bind] in H;
           try discriminate H
       end.
  all: match type of H with
       | context [Utils.extraArg "lower" "upper" _ _ _ ?st] =>
           destruct (extraArg_cases "lower" "upper"
                       (Utils.mutable_upper (Utils.isMutable r))
                       Utils.set_upper (toLowerCase arg) st)
             as [[E4 _] | [[[b4 E4] M4] | [E4 _]]]; rewrite E4 in H; cbn [bind] in H;
           try discriminate H
       end.
  all: cbn [snd fst] in H; try discriminate H; injection H as <-.
  all: unfold kept; cbn; repeat split; intros; try congruence; auto.
Qed.

Lemma fold_walk_stops {A : Type} (f : A -> jsstring -> result A) (args : list jsstring)
    (failed : result A) :
  (forall a, failed <> Ok a) ->
  fold_left (fun state arg => bind state (fun p => f p arg)) args failed = failed.
Proof.
  intros Hf. induction args as [|arg args IH]; [reflexivity|].
  cbn [fold_left]. destruct failed as [a | e |]; [destruct (Hf a eq_refl) | exact IH..].
Qed.

Lemma fold_walk_kept (r : Utils.root) (outputTypes : list jsstring) (args : list jsstring) :
  forall p p',
    fold_left (fun state arg => bind state (fun p => Utils.walk r outputTypes p arg))
      args (Ok p) = Ok p' ->
    kept r p -> kept r p'.
Proof.
  induction args as [|arg args IH]; intros p p' H K.
  - injection H as <-. exact K.
  - cbn [fold_left bind] in H.
    destruct (Utils.walk r outputTypes p arg) as [p1 | e |] eqn:E.
    + apply (IH p1 p' H). apply (walk_kept r outputTypes p p1 arg E K).
    + rewrite fold_walk_stops in H by discriminate. discriminate H.
    + rewrite fold_walk_stops in H by discriminate. discriminate H.
Qed.

Ltac validate_tail H :=
  cbv beta iota zeta in H;
  match type of H with
  | context [Utils.extractArg (str "number") ?args] =>
      destruct (Utils.extractArg (str "number") args)
  end;
  cbv beta iota zeta in H;
  let p1 := fresh "p" in
  let F := fresh "F" in
  match type of H with
  | context [fold_left ?f ?args (Ok ?p0)] =>
      destruct (fold_left f args (Ok p0)) as [p1 | |] eqn:F;
      cbn [bind] in H; try discriminate H;
      apply fold_walk_kept in F; [|repeat split; intros; reflexivity];
      destruct F as (? & ? & ? & ?)
  end;
  injection H as <- <-;
  let Epad := fresh "Epad" in
  let Esig := fresh "Esig" in
  destruct (Utils.padding p1) eqn:Epad; destruct (Utils.signed p1) eqn:Esig;
  cbn [andb Utils.set_padding Utils.padding Utils.signed Utils.littleEndian Utils.upper];
  rewrite ?Epad, ?Esig;
  repeat split; intros; try discriminate; try reflexivity;
  repeat match goal with
         | K : ?c -> _, C : ?c |- _ => specialize (K C)
         end;
  try congruence;
  try match goal with
      | K : _ = Utils.padding _ |- _ => rewrite <- K; reflexivity
      end.

(** X17: the settings [validateArgs] returns differ from the settings of
    the converter only in what the arguments may change: a parameter that
    is not mutable keeps its value, except that padding is switched off
    when arguments are given and the settings are signed; given any
    arguments, the settings returned are never both padded and signed; and
    only an initial call changes the handlers. *)
Theorem X17_validateArgs_settings (r : Utils.root) (io io' : Utils.handlers)
    (args : list jsstring) (initial : bool) (p : Utils.parameters) :
  Utils.validateArgs r io args initial = Ok (p, io') ->
  (Utils.mutable_littleEndian (Utils.isMutable r) = false ->
   Utils.littleEndian p = Utils.littleEndian (Utils.defaults r))
  /\ (Utils.mutable_signed (Utils.isMutable r) = false ->
      Utils.signed p = Utils.signed (Utils.defaults r))
  /\ (Utils.mutable_upper (Utils.isMutable r) = false ->
      Utils.upper p = Utils.upper (Utils.defaults r))
  /\ (Utils.mutable_padding (Utils.isMutable r) = false ->
      Utils.padding p
      = Utils.padding (Utils.defaults r)
        && (negb (Utils.signed p) || match args with [] => true | _ => false end))
  /\ (args <> [] -> Utils.padding p && Utils.signed p = false)
  /\ (initial = false -> io' = io).
Proof.
  unfold Utils.validateArgs. destruct args as [|a args].
  - intros H. injection H as <- <-.
    repeat split; try reflexivity; try contradiction.
    + intros _. rewrite orb_true_r, andb_true_r. reflexivity.
    + intros ->. reflexivity.
  - intros H. destruct initial.
    + destruct (Utils.extractArg (str "bytes_only") (a :: args)).
      * validate_tail H.
      * destruct (Utils.extractArg (str "bytes_in") (a :: args));
          cbv beta iota zeta in H;
          match type of H with
          | context [Utils.extractArg (str "bytes_out") ?l] =>
              destruct (Utils.extractArg (str "bytes_out") l)
          end;
          validate_tail H.
    + validate_tail H.
Qed.

Lemma X17_validateArgs_settings_witness :
  exists p io',
    Utils.validateArgs LEB128.root
      {| Utils.inputHandler := Utils.Smart; Utils.outputHandler := Utils.Smart |}
      [str "Signed"; str "HEX"; str "int_n"] false = Ok (p, io')
    /\ Utils.littleEndian p = Utils.littleEndian (Utils.defaults LEB128.root)
    /\ Utils.padding p && Utils.signed p = false.
Proof.
  eexists. eexists. split; [reflexivity|].
  pose proof (X17_validateArgs_settings LEB128.root
                {| Utils.inputHandler := Utils.Smart; Utils.outputHandler := Utils.Smart |}
                _ [str "Signed"; str "HEX"; str "int_n"] false _ eq_refl)
    as (H1 & _ & _ & _ & H5 & _).
  split; [apply H1; reflexivity | apply H5; discriminate].
Defined.







(** ** Base phi: what decode reads *)

Lemma value_up_app (l l' : jsstring) :
  forall j, value_up (l ++ l') j = value_up l j + value_up l' (j + len l).
Proof.
  induction l as [|ch l IH]; intros j.
  - cbn [app value_up]. change (len (@nil ascii)) with 0. rewrite Z.add_0_r. reflexivity.
  - cbn [app value_up]. rewrite IH, len_cons.
    replace (j + 1 + len l) with (j + (len l + 1)) by lia. lia.
Qed.

Lemma value_down_app (l l' : jsstring) :
  forall j, value_down (l ++ l') j = value_down l j + value_down l' (j - len l).
Proof.
  induction l as [|ch l IH]; intros j.
  - cbn [app value_down]. change (len (@nil ascii)) with 0. rewrite Z.sub_0_r. reflexivity.
  - cbn [app value_down]. rewrite IH, len_cons.
    replace (j - 1 - len l) with (j - (len l + 1)) by lia. lia.
Qed.

(** [decode] on a string of binary digits with a radix point: the sum of
    the powers of Phi at the positions of the digit 1. *)
Lemma decode_number_binary (normalizeInput : jsstring -> jsstring) (I F : jsstring) :
  (forall s, Forall (fun c => In c (str "-.01")) s -> normalizeInput s = s) ->
  Forall binary_digit I -> Forall binary_digit F ->
  BasePhi.decode_number 0 BasePhi.default_charset normalizeInput (I ++ "."%char :: F)
  = Ok (value_up (rev I) 0 + value_down F (-1), false).
Proof.
  intros Hnorm HI HF. unfold BasePhi.decode_number.
  assert (Hb : forall l, Forall binary_digit l -> Forall (fun c => In c (str "-.01")) l).
  { intros l Hl. eapply Forall_impl; [|exact Hl]. intros c [-> | ->]; cbn; tauto. }
  rewrite Hnorm
    by (apply Forall_app; split; [apply Hb, HI | constructor; [cbn; tauto | apply Hb, HF]]).
  assert (Hsign : extractSign (I ++ "."%char :: F) = (I ++ "."%char :: F, false)).
  { destruct I as [|ch I']; [reflexivity|].
    inversion HI as [|? ? Hch _]; subst. destruct Hch as [-> | ->]; reflexivity. }
  rewrite Hsign, (split_point_one I F [] HI HF). cbn [app nth nth_error].
  change (BasePhi.Phi 0 - Big.one 0) with (phi_power (0 - 1)).
  change (Big.one 0) with (phi_power 0) at 1.
  rewrite (sum_up_value (rev I) 0 0) by (apply Forall_rev; exact HI).
  cbn [bind]. destruct F as [|c F'].
  - cbn [bind value_down]. f_equal. f_equal. lia.
  - change (phi_power (0 - 1)) with (phi_power (-1)).
    change (Big.one 0) with (phi_power (-1 + 1)).
    rewrite (sum_down_value (c :: F') (-1)) by exact HF.
    reflexivity.
Qed.

(** X19: [decode] reads every string of the two digits with a radix point,
    canonical or not, as the sum of the powers of Phi at the places of the
    digit 1; a digit 1 followed by two digits 0 can be replaced by a digit
    0 followed by two digits 1, in the integer part as well as in the
    fractional part: [decode] returns for both strings, and the same
    number, since every power is computed as the sum of the two before
    it. *)
Theorem X19_decode_phi_identity (normalizeInput : jsstring -> jsstring)
    (a b F : jsstring) :
  (forall s, Forall (fun c => In c (str "-.01")) s -> normalizeInput s = s) ->
  Forall binary_digit a -> Forall binary_digit b -> Forall binary_digit F ->
  (exists n,
      BasePhi.decode_number 0 BasePhi.default_charset normalizeInput
        ((a ++ str "100" ++ b) ++ "."%char :: F) = Ok (n, false)
      /\ BasePhi.decode_number 0 BasePhi.default_charset normalizeInput
           ((a ++ str "011" ++ b) ++ "."%char :: F) = Ok (n, false))
  /\ (exists n,
         BasePhi.decode_number 0 BasePhi.default_charset normalizeInput
           (F ++ "."%char :: (a ++ str "100" ++ b)) = Ok (n, false)
         /\ BasePhi.decode_number 0 BasePhi.default_charset normalizeInput
              (F ++ "."%char :: (a ++ str "011" ++ b)) = Ok (n, false)).
Proof.
  intros Hnorm Ha Hb HF.
  assert (H100 : Forall binary_digit (a ++ str "100" ++ b)).
  { apply Forall_app. split; [exact Ha|]. apply Forall_app. split; [|exact Hb].
    repeat constructor; (left; reflexivity) || (right; reflexivity). }
  assert (H011 : Forall binary_digit (a ++ str "011" ++ b)).
  { apply Forall_app. split; [exact Ha|]. apply Forall_app. split; [|exact Hb].
    repeat constructor; (left; reflexivity) || (right; reflexivity). }
  rewrite !decode_number_binary by assumption.
  split; eexists; (split; [reflexivity|]); f_equal; f_equal; symmetry.
  - f_equal. rewrite !rev_app_distr, <- !app_assoc, !value_up_app. f_equal.
    change (rev (str "100")) with (str "001"). change (rev (str "011")) with (str "110").
    f_equal. cbn [str list_ascii_of_string value_up Ascii.eqb].
    cbn [Ascii.eqb Bool.eqb andb].
    pose proof (phi_power_rec (0 + len (rev b) + 1)) as Hrec.
    replace (0 + len (rev b) + 1 + 1) with (0 + len (rev b) + 1 + 1) in Hrec by lia.
    replace (0 + len (rev b) + 1 - 1) with (0 + len (rev b)) in Hrec by lia.
    lia.
  - f_equal. rewrite !value_down_app. f_equal. f_equal.
    cbn [str list_ascii_of_string value_down Ascii.eqb].
    cbn [Ascii.eqb Bool.eqb andb].
    pose proof (phi_power_rec (-1 - len a - 1)) as Hrec.
    replace (-1 - len a - 1 + 1) with (-1 - len a) in Hrec by lia.
    lia.
Qed.

Lemma X19_decode_phi_identity_witness :
  (exists n,
      BasePhi.decode_number 0 BasePhi.default_charset (fun s => s)
        ((str "1" ++ str "100" ++ str "0") ++ "."%char :: str "01") = Ok (n, false)
      /\ BasePhi.decode_number 0 BasePhi.default_charset (fun s => s)
           ((str "1" ++ str "011" ++ str "0") ++ "."%char :: str "01") = Ok (n, false))
  /\ (exists n,
         BasePhi.decode_number 0 BasePhi.default_charset (fun s => s)
           (str "01" ++ "."%char :: (str "1" ++ str "100" ++ str "0")) = Ok (n, false)
         /\ BasePhi.decode_number 0 BasePhi.default_charset (fun s => s)
              (str "01" ++ "."%char :: (str "1" ++ str "011" ++ str "0")) = Ok (n, false)).
Proof.
  refine (X19_decode_phi_identity (fun s => s) (str "1") (str "0") (str "01") _ _ _ _).
  - intros s _. reflexivity.
  - constructor; [right; reflexivity | constructor].
  - constructor; [left; reflexivity | constructor].
  - constructor; [left; reflexivity|].
    constructor; [right; reflexivity | constructor].
Defined.

Section CharsetErrors.

Variable extra : nat.
Variable charset : jsstring.
Variable normalizeInput : jsstring -> jsstring.

Lemma digit_value_cases (c : ascii) (n cur : Z) :
  phi_digit charset c /\ (exists n', BasePhi.digit_value charset c n cur = Ok n')
  \/ ~ phi_digit charset c /\ BasePhi.digit_value charset c n cur = Throw (CharsetError c).
Proof.
  unfold BasePhi.digit_value, phi_digit.
  destruct (Z.eqb_spec (indexOf charset c) 1) as [E1 | N1];
    [left; split; [right; exact E1 | eexists; reflexivity]|].
  destruct (Z.eqb_spec (indexOf charset c) 0) as [E0 | N0];
    [left; split; [left; exact E0 | eexists; reflexivity]|].
  right. split; [intros [H | H]; contradiction | reflexivity].
Qed.

Lemma sum_up_cases (chars : jsstring) :
  forall n last cur,
    Forall (phi_digit charset) chars /\ (exists n', BasePhi.sum_up charset chars n last cur = Ok n')
    \/ exists c, In c chars /\ ~ phi_digit charset c
                 /\ BasePhi.sum_up charset chars n last cur = Throw (CharsetError c).
Proof.
  induction chars as [|c chars IH]; intros n last cur.
  - left. split; [constructor | eexists; reflexivity].
  - cbn [BasePhi.sum_up].
    destruct (digit_value_cases c n cur) as [[Hc [n' Hn']] | [Hc Hthrow]].
    + rewrite Hn'. cbn [bind]. unfold BasePhi.nextPhiExp.
      destruct (IH n' cur (last + cur)) as [[Hall Hok] | (c' & Hin & Hf & Hthrow)].
      * left. split; [constructor; assumption | exact Hok].
      * right. exists c'. split; [right; exact Hin | split; assumption].
    + right. exists c. rewrite Hthrow. split; [left; reflexivity | split; [exact Hc | reflexivity]].
Qed.

Lemma sum_down_cases (chars : jsstring) :
  forall n cur prev,
    Forall (phi_digit charset) chars /\ (exists n', BasePhi.sum_down charset chars n cur prev = Ok n')
    \/ exists c, In c chars /\ ~ phi_digit charset c
                 /\ BasePhi.sum_down charset chars n cur prev = Throw (CharsetError c).
Proof.
  induction chars as [|c chars IH]; intros n cur prev.
  - left. split; [constructor | eexists; reflexivity].
  - cbn [BasePhi.sum_down].
    destruct (digit_value_cases c n cur) as [[Hc [n' Hn']] | [Hc Hthrow]].
    + rewrite Hn'. cbn [bind]. unfold BasePhi.prevPhiExp.
      destruct (IH n' (prev - cur) cur) as [[Hall Hok] | (c' & Hin & Hf & Hthrow)].
      * left. split; [constructor; assumption | exact Hok].
      * right. exists c'. split; [right; exact Hin | split; assumption].
    + right. exists c. rewrite Hthrow. split; [left; reflexivity | split; [exact Hc | reflexivity]].
Qed.

Lemma split_point_fields (t t' : jsstring) :
  forall field,
    ~ In "."%char t -> ~ In "."%char t' ->
    BasePhi.split_point (t ++ "."%char :: t') field = [field ++ t; t'].
Proof.
  assert (Hnone : forall u field, ~ In "."%char u -> BasePhi.split_point u field = [field ++ u]).
  { induction u as [|ch u IH]; intros field Hu.
    - cbn. rewrite app_nil_r. reflexivity.
    - cbn [BasePhi.split_point]. destruct (Ascii.eqb_spec ch "."%char) as [-> | _].
      + exfalso. apply Hu. left. reflexivity.
      + rewrite IH by (intros H; apply Hu; right; exact H).
        rewrite <- app_assoc. reflexivity. }
  induction t as [|ch t IH]; intros field Ht Ht'.
  - cbn [app BasePhi.split_point]. change (Ascii.eqb "." ".") with true. cbv iota.
    rewrite (Hnone t' [] Ht'), app_nil_r. reflexivity.
  - cbn [app BasePhi.split_point]. destruct (Ascii.eqb_spec ch "."%char) as [-> | _].
    + exfalso. apply Ht. left. reflexivity.
    + rewrite IH by (try assumption; intros H; apply Ht; right; exact H).
      rewrite <- app_assoc. reflexivity.
Qed.

(** X20: [decode] returns a number exactly for the strings made of the two
    digits of the charset: when the integer part or the fractional part
    holds any other character, one that is not at index 0 or 1 of the
    charset, [decode] throws a CharsetError that names such a character. *)
Theorem X20_decode_charset_error (s I F : jsstring) (negative : bool) :
  extractSign (normalizeInput s) = (I ++ "."%char :: F, negative) ->
  ~ In "."%char I -> ~ In "."%char F ->
  (Forall (phi_digit charset) (I ++ F) ->
   exists n, BasePhi.decode_number extra charset normalizeInput s = Ok (n, negative))
  /\ (~ Forall (phi_digit charset) (I ++ F) ->
      exists c, In c (I ++ F) /\ ~ phi_digit charset c
                /\ BasePhi.decode_number extra charset normalizeInput s
                   = Throw (CharsetError c)).
Proof.
  intros Hsign HI HF. unfold BasePhi.decode_number.
  rewrite Hsign, (split_point_fields I F [] HI HF). cbn [app nth nth_error].
  destruct (sum_up_cases (rev I) 0 (BasePhi.Phi extra - Big.one extra) (Big.one extra))
    as [[Hall [n Hn]] | (c & Hin & Hc & Hthrow)].
  - rewrite Hn. cbn [bind]. apply Forall_rev in Hall. rewrite rev_involutive in Hall.
    destruct F as [|ch F'].
    + split.
      * intros _. exists n. reflexivity.
      * intros Hnot. exfalso. apply Hnot. rewrite app_nil_r. exact Hall.
    + destruct (sum_down_cases (ch :: F') n (BasePhi.Phi extra - Big.one extra)
                  (Big.one extra)) as [[Hall' [n' Hn']] | (c & Hin & Hc & Hthrow)].
      * rewrite Hn'. cbn [bind]. split.
        -- intros _. exists n'. reflexivity.
        -- intros Hnot. exfalso. apply Hnot. apply Forall_app. split; assumption.
      * rewrite Hthrow. cbn [bind]. split.
        -- intros Hall'. exfalso. apply Forall_app in Hall'. destruct Hall' as [_ Hall'].
           rewrite Forall_forall in Hall'. apply Hc, Hall', Hin.
        -- intros _. exists c. split; [apply in_or_app; right; exact Hin|].
           split; [exact Hc | reflexivity].
  - rewrite Hthrow. cbn [bind]. apply in_rev in Hin. split.
    + intros Hall. exfalso. apply Forall_app in Hall. destruct Hall as [Hall _].
      rewrite Forall_forall in Hall. apply Hc, Hall, Hin.
    + intros _. exists c. split; [apply in_or_app; left; exact Hin|].
      split; [exact Hc | reflexivity].
Qed.

End CharsetErrors.

Lemma X20_decode_charset_error_witness :
  exists c, In c (str "10" ++ str "2") /\ ~ phi_digit BasePhi.default_charset c
            /\ BasePhi.decode_number 0 BasePhi.default_charset (fun s => s) (str "-10.2")
               = Throw (CharsetError c).
Proof.
  refine (proj2 (X20_decode_charset_error 0 BasePhi.default_charset (fun s => s)
                   (str "-10.2") (str "10") (str "2") true _ _ _) _).
  - reflexivity.
  - cbn. intuition discriminate.
  - cbn. intuition discriminate.
  - intros H. apply Forall_app in H. destruct H as [_ H].
    inversion H as [|? ? Hc _]; subst. destruct Hc as [Hc | Hc]; discriminate Hc.
Defined.

(** ** Base phi: the standard form *)

Lemma gapped_up_In (exps : list Z) :
  forall lo e, gapped_up lo exps -> In e exps -> lo <= e.
Proof.
  induction exps as [|x rest IH]; intros lo e H He; [destruct He|].
  destruct H as [Hx H]. destruct He as [<-|He]; [exact Hx|].
  specialize (IH (x + 2) e H He). lia.
Qed.

Lemma gapped_down_In (decs : list Z) :
  forall hi d, gapped_down hi decs -> In d decs -> d <= hi.
Proof.
  induction decs as [|x rest IH]; intros hi d H Hd; [destruct Hd|].
  destruct H as [Hx H]. destruct Hd as [<-|Hd]; [exact Hx|].
  specialize (IH (x - 2) d H Hd). lia.
Qed.

Lemma gapped_up_weaken (exps : list Z) (lo lo' : Z) :
  gapped_up lo exps -> lo' <= lo -> gapped_up lo' exps.
Proof.
  destruct exps as [|e rest]; intros H Hle; [exact I|].
  destruct H as [He H]. split; [lia | exact H].
Qed.

Lemma gapped_down_below (decs : list Z) (hi hi' : Z) :
  gapped_down hi decs -> (forall d, In d decs -> d <= hi') -> gapped_down hi' decs.
Proof.
  destruct decs as [|d rest]; intros H Hall; [exact I|].
  destruct H as [_ H]. split; [apply Hall; left; reflexivity | exact H].
Qed.

Lemma gapped_down_snoc (decs : list Z) :
  forall hi e, gapped_down hi decs -> e <= hi -> (forall x, In x decs -> e + 2 <= x) ->
    gapped_down hi (decs ++ [e]).
Proof.
  induction decs as [|x rest IH]; intros hi e H He Hall.
  - split; [exact He | exact I].
  - destruct H as [Hx H]. split; [exact Hx|].
    apply IH; [exact H | | intros y Hy; apply Hall; right; exact Hy].
    specialize (Hall x (or_introl eq_refl)). lia.
Qed.

(** One call of [reduceN]: it returns, or stores an exponent and calls
    itself. *)
Lemma reduceN_step (rounds fuel : nat) (v : BasePhi.vars) (k b top : Z) (v' : BasePhi.vars) :
  spacing v k b top ->
  BasePhi.reduceN 0 rounds fuel v (phi_power k) (phi_power (k + 1)) k = Ok v' ->
  (v' = v /\ 2 * BasePhi.n v < 10 ^ 70)
  \/ exists k' fuel',
      fuel = S fuel'
      /\ spacing
           {| BasePhi.n := BasePhi.n v - phi_power k';
              BasePhi.exponents :=
                if -1 <? k' then k' :: BasePhi.exponents v
                else BasePhi.exponents v;
              BasePhi.decExponents :=
                if -1 <? k' then BasePhi.decExponents v
                else BasePhi.decExponents v ++ [k'];
              BasePhi.warned := BasePhi.warned v |} k' (k' - 1) top
      /\ BasePhi.reduceN 0 rounds fuel'
           {| BasePhi.n := BasePhi.n v - phi_power k';
              BasePhi.exponents :=
                if -1 <? k' then k' :: BasePhi.exponents v
                else BasePhi.exponents v;
              BasePhi.decExponents :=
                if -1 <? k' then BasePhi.decExponents v
                else BasePhi.decExponents v ++ [k'];
              BasePhi.warned := BasePhi.warned v |}
           (phi_power k') (phi_power (k' + 1)) k' = Ok v'.
Proof.
  intros Hsp Hrun.
  destruct Hsp as [Hn Hk Hb Hexps Hdecs Habove Hcross Htop].
  assert (Hunfold :
            BasePhi.reduceN 0 rounds fuel v (phi_power k) (phi_power (k + 1)) k
            = if BasePhi.approxNull 0 (BasePhi.n v) then Ok v
              else
                fit <- BasePhi.fitting_exp rounds (BasePhi.n v) (phi_power k)
                         (phi_power (k + 1)) k ;;
                match fit with
                | None =>
                    Ok {| BasePhi.n := BasePhi.n v;
                          BasePhi.exponents := BasePhi.exponents v;
                          BasePhi.decExponents := BasePhi.decExponents v;
                          BasePhi.warned := true |}
                | Some (cur, prev, exp) =>
                    match fuel with
                    | O => Diverge
                    | S fuel' =>
                        BasePhi.reduceN 0 rounds fuel'
                          {| BasePhi.n := BasePhi.n v - cur;
                             BasePhi.exponents :=
                               if -1 <? exp then exp :: BasePhi.exponents v
                               else BasePhi.exponents v;
                             BasePhi.decExponents :=
                               if -1 <? exp then BasePhi.decExponents v
                               else BasePhi.decExponents v ++ [exp];
                             BasePhi.warned := BasePhi.warned v |} cur prev exp
                    end
                end).
  { destruct fuel; reflexivity. }
  rewrite Hunfold in Hrun. clear Hunfold.
  rewrite approxNull_spec, Z.abs_eq in Hrun by lia.
  destruct (Z.ltb_spec (2 * BasePhi.n v) (10 ^ 70)) as [Hnull|Hbig].
  { left. injection Hrun as E. subst v'. split; [reflexivity | exact Hnull]. }
  right.
  destruct lowest_power_small as [Hsmall Hsmall'].
  set (R := (rounds + S (Z.to_nat (k - lowest)))%nat).
  destruct (fitting_exp_good R (BasePhi.n v) k Hk ltac:(lia) ltac:(unfold R; lia))
    as (k' & Hfit & Hk' & Hle & Hor).
  destruct (BasePhi.fitting_exp rounds (BasePhi.n v) (phi_power k) (phi_power (k + 1)) k)
    as [r| |] eqn:Hfit'; try discriminate Hrun.
  apply (fitting_exp_mono rounds R) in Hfit'; [|unfold R; lia].
  rewrite Hfit in Hfit'. inversion Hfit'; subst r. clear Hfit'.
  cbn [bind] in Hrun.
  destruct fuel as [|fuel']; [discriminate Hrun|].
  exists k', fuel'. split; [reflexivity|]. split; [|exact Hrun].
  pose proof (phi_power_monotone b (k + 1) ltac:(lia) ltac:(lia)) as Hbk.
  assert (Hnext : BasePhi.n v < phi_power (k' + 1)).
  { destruct Hor as [->|H]; [lia | exact H]. }
  assert (Hlow : lowest < k').
  { destruct (Z.eq_dec k' lowest) as [E|E]; [|lia].
    exfalso. rewrite E in Hnext. lia. }
  pose proof (phi_power_increasing (k' - 1) ltac:(lia)) as Hinc.
  replace (k' - 1 + 1) with k' in Hinc by lia.
  pose proof (phi_power_rec k') as Hrec.
  assert (Hlt : k' < b) by (apply phi_power_lt_inv; lia).
  constructor; cbn [BasePhi.n BasePhi.exponents BasePhi.decExponents BasePhi.warned].
  - lia.
  - lia.
  - lia.
  - destruct (Z.ltb_spec (-1) k') as [Hpos|Hneg].
    + split; [lia|]. apply (gapped_up_weaken _ _ _ Hexps). lia.
    + apply (gapped_up_weaken _ _ _ Hexps). lia.
  - destruct (Z.ltb_spec (-1) k') as [Hpos|Hneg]; [exact Hdecs|].
    apply gapped_down_snoc; [exact Hdecs | lia |].
    intros x Hx. specialize (Habove x Hx). lia.
  - intros d Hd. destruct (Z.ltb_spec (-1) k') as [Hpos|Hneg].
    + specialize (Habove d Hd). lia.
    + apply in_app_or in Hd. destruct Hd as [Hd|[<-|[]]]; [|lia].
      specialize (Habove d Hd). lia.
  - intros e d He Hd. destruct (Z.ltb_spec (-1) k') as [Hpos|Hneg].
    + pose proof (gapped_down_In _ _ _ Hdecs Hd) as Hd1.
      specialize (Habove d Hd). lia.
    + pose proof (gapped_up_In _ _ _ Hexps He) as He1.
      apply in_app_or in Hd. destruct Hd as [Hd|[<-|[]]]; [|lia].
      exact (Hcross e d He Hd).
  - right. destruct Htop as [(Hnil & Eb & Ek & Htop0 & Htop) | (rest & Hrest)].
    + assert (k' = k).
      { rewrite <- Ek in Htop. destruct Hor as [->|H]; [reflexivity|].
        destruct (Z.eq_dec k' k) as [E|E]; [exact E|].
        pose proof (phi_power_monotone (k' + 1) k ltac:(lia) ltac:(lia)). lia. }
      subst k'. destruct (Z.ltb_spec (-1) k) as [Hpos|Hneg]; [|lia].
      exists []. rewrite Hnil, Ek. reflexivity.
    + destruct (Z.ltb_spec (-1) k') as [Hpos|Hneg].
      * exists (k' :: rest). rewrite Hrest. reflexivity.
      * exists rest. exact Hrest.
Qed.

(** The greedy reduction never stores two neighbouring exponents: after
    the power at [k'] is taken off a number below the power at [k' + 1],
    what is left is below the power at [k' - 1]. *)
Lemma reduceN_spaced (fuel : nat) :
  forall rounds v k b top v',
    spacing v k b top ->
    BasePhi.reduceN 0 rounds fuel v (phi_power k) (phi_power (k + 1)) k = Ok v' ->
    spaced v' top.
Proof.
  induction fuel as [|fuel IH]; intros rounds v k b top v' Hsp Hrun;
    destruct (reduceN_step _ _ _ _ _ _ _ Hsp Hrun) as [[-> Hnull] | (k' & fuel' & E & Hsp' & Hrun')];
    try discriminate E.
  - destruct Hsp as [Hn Hk Hb Hexps Hdecs Habove Hcross Htop].
    constructor; auto.
    + apply (gapped_up_weaken _ _ _ Hexps). lia.
    + destruct Htop as [(Hnil & Eb & Ek & Htop0 & Htop) | Hrest]; [|exact Hrest].
      exfalso.
      pose proof (phi_power_monotone 0 top ltac:(unfold lowest; lia) Htop0) as Hmono.
      assert (10 ^ 70 < phi_power 0) by (vm_compute; reflexivity). lia.
  - destruct Hsp as [Hn Hk Hb Hexps Hdecs Habove Hcross Htop].
    constructor; auto.
    + apply (gapped_up_weaken _ _ _ Hexps). lia.
    + destruct Htop as [(Hnil & Eb & Ek & Htop0 & Htop) | Hrest]; [|exact Hrest].
      exfalso.
      pose proof (phi_power_monotone 0 top ltac:(unfold lowest; lia) Htop0) as Hmono.
      assert (10 ^ 70 < phi_power 0) by (vm_compute; reflexivity). lia.
  - inversion E; subst fuel'. exact (IH _ _ _ _ _ _ Hsp' Hrun').
Qed.

Lemma adjacent_ones_zeros (k : nat) (t : jsstring) (after_one : bool) :
  adjacent_ones (repeat "0"%char k ++ t) after_one
  = adjacent_ones t (match k with O => after_one | S _ => false end).
Proof.
  destruct k as [|k]; [reflexivity|].
  cbn [repeat app adjacent_ones]. change (Ascii.eqb "0" ".") with false.
  change (Ascii.eqb "0" "1") with false. cbv iota.
  induction k as [|k IH]; [reflexivity|].
  cbn [repeat app adjacent_ones]. change (Ascii.eqb "0" ".") with false.
  change (Ascii.eqb "0" "1") with false. cbv iota. exact IH.
Qed.

Lemma adjacent_ones_down (decs : list Z) :
  forall hi exp after_one,
    gapped_down hi decs -> hi <= exp -> (after_one = true -> hi < exp) ->
    adjacent_ones (down_string decs exp) after_one = false.
Proof.
  induction decs as [|d rest IH]; intros hi exp after_one H Hle Hone; [reflexivity|].
  destruct H as [Hd H]. cbn [down_string]. rewrite adjacent_ones_zeros.
  cbn [adjacent_ones]. change (Ascii.eqb "1" ".") with false.
  change (Ascii.eqb "1" "1") with true. cbv iota.
  rewrite (IH (d - 2) (d - 1) true H ltac:(lia) ltac:(lia)), orb_false_r.
  destruct (Z.to_nat (exp - d)) eqn:E; [|reflexivity].
  destruct after_one; [|reflexivity]. specialize (Hone eq_refl). lia.
Qed.

Lemma adjacent_ones_up (exps : list Z) :
  forall lo exp t,
    gapped_up lo exps -> exp <= lo ->
    adjacent_ones t false = false ->
    (In exp exps -> adjacent_ones t true = false) ->
    adjacent_ones (rev (up_string exps exp) ++ t) false = false.
Proof.
  induction exps as [|e rest IH]; intros lo exp t H Hle Ht Hhead; [exact Ht|].
  destruct H as [He H]. cbn [up_string].
  rewrite rev_app_distr. cbn [rev]. rewrite rev_repeat_char, <- !app_assoc.
  cbn [app].
  apply (IH (e + 2) (e + 1)); [exact H | lia | |].
  - cbn [adjacent_ones]. change (Ascii.eqb "1" ".") with false.
    change (Ascii.eqb "1" "1") with true. cbv iota. cbn [orb].
    rewrite adjacent_ones_zeros.
    destruct (Z.to_nat (e - exp)) eqn:E; [|exact Ht].
    apply Hhead. left. lia.
  - intros Hin. pose proof (gapped_up_In _ _ _ H Hin). lia.
Qed.

Lemma up_string_last (rest : list Z) :
  forall top exp, exists t, up_string (rest ++ [top]) exp = t ++ ["1"%char].
Proof.
  induction rest as [|e rest IH]; intros top exp.
  - exists (repeat "0"%char (Z.to_nat (top - exp))). reflexivity.
  - destruct (IH top (e + 1)) as [t Ht].
    exists (repeat "0"%char (Z.to_nat (e - exp)) ++ "1"%char :: t).
    cbn [app up_string]. rewrite Ht, <- app_assoc. reflexivity.
Qed.

Lemma len_up_string (rest : list Z) :
  forall top exp,
    ascending exp (rest ++ [top]) ->
    len (up_string (rest ++ [top]) exp) = top + 1 - exp.
Proof.
  induction rest as [|e rest IH]; intros top exp H.
  - destruct H as [H _]. cbn [app up_string].
    rewrite len_app, len_repeat, len_cons, len_nil. lia.
  - destruct H as [He H]. cbn [app up_string].
    rewrite len_app, len_repeat, len_cons, (IH top (e + 1) H). lia.
Qed.

(** The string written for exponents that are two apart. *)
Lemma written_spaced (negative : bool) (n0 : Z) (v : BasePhi.vars) (top : Z) :
  reduced n0 v -> spaced v top ->
  exists I F,
    written negative v = (if negative then ["-"%char] else []) ++ "1"%char :: I ++ "."%char :: F
    /\ len I = top
    /\ Forall binary_digit (I ++ F)
    /\ adjacent_ones ("1"%char :: I ++ "."%char :: F) false = false.
Proof.
  intros Hred Hsp.
  destruct Hred as [_ Hasc Hdesc _ _].
  destruct Hsp as [Hup Hdown Hcross (rest & Hrest)].
  destruct (up_string_last rest top 0) as [t Ht].
  exists (rev t), (down_string (BasePhi.decExponents v) (-1)).
  assert (Hrev : rev (up_string (BasePhi.exponents v) 0) = "1"%char :: rev t).
  { rewrite Hrest, Ht, rev_app_distr. reflexivity. }
  split; [|split; [|split]].
  - unfold written.
    assert (E : fst (fold_left (BasePhi.write_exponent BasePhi.default_charset)
                       (BasePhi.exponents v) ([], 0))
                = "1"%char :: rev t).
    { rewrite <- Hrev. rewrite <- (app_nil_r (rev _)).
      exact (write_exponents_string _ [] 0 Hasc). }
    rewrite E.
    assert (E' : forall output,
               fst (fold_left (BasePhi.write_decExponent BasePhi.default_charset)
                      (BasePhi.decExponents v) (output, -1))
               = output ++ down_string (BasePhi.decExponents v) (-1)).
    { intros output. exact (write_decExponents_string _ output (-1) Hdesc). }
    rewrite E'. cbn [app str]. rewrite <- app_assoc.
    destruct negative; reflexivity.
  - rewrite len_rev.
    pose proof (len_up_string rest top 0) as Hlen.
    rewrite <- Hrest in Hlen. specialize (Hlen Hasc).
    rewrite Hrest, Ht, len_app, len_cons, len_nil in Hlen. lia.
  - apply Forall_app. split; [|apply down_string_binary].
    pose proof (up_string_binary (rest ++ [top]) 0) as Hbin.
    rewrite Ht in Hbin. apply Forall_app in Hbin. apply Forall_rev. exact (proj1 Hbin).
  - change ("1"%char :: rev t ++ "."%char :: down_string (BasePhi.decExponents v) (-1))
      with (("1"%char :: rev t) ++ "."%char :: down_string (BasePhi.decExponents v) (-1)).
    rewrite <- Hrev.
    apply (adjacent_ones_up _ 0 0); [exact Hup | lia | |].
    + cbn [adjacent_ones]. change (Ascii.eqb "." ".") with true. cbv iota.
      apply (adjacent_ones_down _ (-1)); [exact Hdown | lia | discriminate].
    + intros Hin. cbn [adjacent_ones]. change (Ascii.eqb "." ".") with true. cbv iota.
      apply (adjacent_ones_down _ (-2)); [|lia|lia].
      apply (gapped_down_below _ (-1)); [exact Hdown|].
      intros d Hd. specialize (Hcross 0 d Hin Hd). lia.
Qed.

(** The run of [encode] on an integer from 2 on: the highest exponent
    found, the variables [reduceN] returns, and the string. *)
Lemma encode_number_trace (m : Z) :
  2 <= m ->
  exists k v rounds fuel0,
    0 <= k
    /\ Big.of_integer 0 m <= phi_power (k + 1)
    /\ phi_power k < Big.of_integer 0 m
    /\ BasePhi.reduceN 0 rounds fuel0
         {| BasePhi.n := Big.of_integer 0 m; BasePhi.exponents := [];
            BasePhi.decExponents := []; BasePhi.warned := false |}
         (phi_power k) (phi_power (k + 1)) k = Ok v
    /\ reduced (Big.of_integer 0 m) v
    /\ forall negative fuel,
         2 * Big.of_integer 0 m + BasePhi.Phi 0 < Z.of_nat fuel ->
         BasePhi.encode_number 0 BasePhi.default_charset fuel negative (Big.of_integer 0 m)
         = Ok (written negative v, false).
Proof.
  intros Hm.
  pose proof (one_pos 0) as Hone. pose proof (Phi_bounds 0) as HPhi.
  assert (Hn0 : 2 * Big.one 0 <= Big.of_integer 0 m) by (unfold Big.of_integer; nia).
  set (n0 := Big.of_integer 0 m) in *.
  set (fuel0 := S (Z.to_nat (2 * n0 + BasePhi.Phi 0))).
  assert (Hfuel0 : Z.of_nat fuel0 = 2 * n0 + BasePhi.Phi 0 + 1).
  { unfold fuel0. rewrite Nat2Z.inj_succ, Z2Nat.id by lia. lia. }
  assert (Hlarge : 252 < BasePhi.Phi 0).
  { apply Z.lt_trans with (Big.one 0); [|lia]. reflexivity. }
  destruct (highest_exp_good fuel0 n0 0 ltac:(lia)) as (k & Hhigh & Hk0 & Hle & Hk).
  { pose proof (phi_power_increasing 0 ltac:(unfold lowest; lia)). lia. }
  assert (Hkn : k < n0).
  { destruct Hk as [-> | Hk]; [lia|]. pose proof (phi_power_above k Hk0). lia. }
  destruct (reduceN_good n0 fuel0 fuel0
              {| BasePhi.n := n0; BasePhi.exponents := []; BasePhi.decExponents := [];
                 BasePhi.warned := false |} k (k + 1)) as (v & Hred & Hv).
  - constructor; cbn [BasePhi.n BasePhi.exponents BasePhi.decExponents BasePhi.warned
                        ascending descending sum_powers fold_right In].
    + lia.
    + unfold lowest. lia.
    + right; reflexivity.
    + exact I.
    + exact I.
    + intros e [].
    + reflexivity.
    + lia.
    + reflexivity.
  - unfold lowest. lia.
  - unfold lowest. lia.
  - exists k, v, fuel0, fuel0. split; [exact Hk0|]. split; [exact Hle|].
    split; [|split; [exact Hred|split; [exact Hv|]]].
    { destruct Hk as [-> | Hk]; [|exact Hk]. rewrite phi_power_0. lia. }
    intros negative fuel Hfuel.
    apply (encode_number_mono 0 BasePhi.default_charset fuel0 fuel); [lia|].
    unfold BasePhi.encode_number.
    assert (E0 : (n0 =? 0) = false) by (apply Z.eqb_neq; lia).
    assert (E1 : (n0 =? Big.one 0) = false) by (apply Z.eqb_neq; lia).
    rewrite E0, E1. cbn [orb].
    change (BasePhi.highest_exp fuel0 n0 (Big.one 0) (BasePhi.Phi 0) 0)
      with (BasePhi.highest_exp fuel0 n0 (phi_power 0) (phi_power (0 + 1)) 0).
    rewrite Hhigh. cbn [bind]. rewrite Hred. cbn [bind].
    rewrite (fin_warned _ _ Hv). reflexivity.
Qed.

(** X21: [encode] writes a negative integer as the minus sign followed by
    what it writes for the magnitude; the digits do not depend on the sign
    and the approximation warning is never given for an integer. *)
Theorem X21_encode_sign (input input' : SmartInput.input) (v : Z) :
  integer_input input v ->
  integer_input input' (- v) ->
  0 < v ->
  exists s,
    ~ In "-"%char s
    /\ forall fuel,
        2 * Big.of_integer 0 v + BasePhi.Phi 0 < Z.of_nat fuel ->
        BasePhi.encode 0 BasePhi.default_charset fuel input = Ok s
        /\ BasePhi.encode 0 BasePhi.default_charset fuel input' = Ok ("-"%char :: s)
        /\ (forall negative,
               BasePhi.encode_number 0 BasePhi.default_charset fuel negative
                 (Big.of_integer 0 v)
               = Ok (if negative then "-"%char :: s else s, false)).
Proof.
  intros Hin Hin' Hv.
  assert (Hcases : v = 1 \/ 2 <= v) by lia.
  assert (Eneg : (- v <? 0) = true) by (apply Z.ltb_lt; lia).
  assert (Epos : (v <? 0) = false) by (apply Z.ltb_ge; lia).
  assert (Eabs : Z.abs (- v) = v) by lia.
  assert (Eabs' : Z.abs v = v) by lia.
  destruct Hcases as [-> | H2].
  - exists (str "1"). split.
    { cbn. intros [H|[]]. discriminate H. }
    intros fuel _.
    rewrite (encode_phi_integer 0 _ fuel input 1 Hin).
    rewrite (encode_phi_integer 0 _ fuel input' (- 1) Hin').
    split; [reflexivity|]. split; [reflexivity|].
    intros negative. destruct negative; reflexivity.
  - destruct (encode_number_trace v H2) as (k & w & rounds & fuel0 & _ & _ & _ & _ & Hw & Henc).
    exists (written false w). split.
    { destruct Hw as [_ Hasc Hdesc _ _]. unfold written.
      assert (E : fst (fold_left (BasePhi.write_exponent BasePhi.default_charset)
                         (BasePhi.exponents w) ([], 0))
                  = rev (up_string (BasePhi.exponents w) 0)).
      { rewrite <- (app_nil_r (rev _)). exact (write_exponents_string _ [] 0 Hasc). }
      rewrite E.
      assert (E' : forall output,
                 fst (fold_left (BasePhi.write_decExponent BasePhi.default_charset)
                        (BasePhi.decExponents w) (output, -1))
                 = output ++ down_string (BasePhi.decExponents w) (-1)).
      { intros output. exact (write_decExponents_string _ output (-1) Hdesc). }
      rewrite E'.
      assert (Hbin : forall t, Forall binary_digit t -> ~ In "-"%char t).
      { intros t Ht Hi. rewrite Forall_forall in Ht. destruct (Ht _ Hi); discriminate. }
      intros Hi. apply in_app_or in Hi. destruct Hi as [Hi|Hi].
      - destruct (rev (up_string (BasePhi.exponents w) 0)) as [|c o] eqn:Eo.
        + cbn in Hi. destruct Hi as [H|[H|[]]]; discriminate H.
        + apply in_app_or in Hi. destruct Hi as [Hi|[H|[]]]; [|discriminate H].
          apply (Hbin (c :: o)); [|exact Hi].
          rewrite <- Eo. apply Forall_rev. apply up_string_binary.
      - exact (Hbin _ (down_string_binary _ _) Hi). }
    intros fuel Hfuel.
    rewrite (encode_phi_integer 0 _ fuel input v Hin).
    rewrite (encode_phi_integer 0 _ fuel input' (- v) Hin').
    rewrite Eneg, Epos, Eabs, Eabs', (Henc true fuel Hfuel), (Henc false fuel Hfuel).
    cbn [bind fst].
    split; [reflexivity|]. split; [reflexivity|].
    intros negative. rewrite (Henc negative fuel Hfuel). destruct negative; reflexivity.
Qed.

Lemma X21_encode_sign_witness :
  exists s,
    ~ In "-"%char s
    /\ forall fuel,
        2 * Big.of_integer 0 12 + BasePhi.Phi 0 < Z.of_nat fuel ->
        BasePhi.encode 0 BasePhi.default_charset fuel (SmartInput.Number 12) = Ok s
        /\ BasePhi.encode 0 BasePhi.default_charset fuel (SmartInput.BigInt (-12))
           = Ok ("-"%char :: s)
        /\ (forall negative,
               BasePhi.encode_number 0 BasePhi.default_charset fuel negative
                 (Big.of_integer 0 12)
               = Ok (if negative then "-"%char :: s else s, false)).
Proof.
  apply (X21_encode_sign (SmartInput.Number 12) (SmartInput.BigInt (-12)) 12).
  - right. split; [reflexivity | vm_compute; split; discriminate].
  - left. reflexivity.
  - lia.
Defined.

(** X22: [encode] writes an integer in the standard form of base phi. For
    a magnitude strictly between the powers of Phi at the exponents [k] and
    [k + 1], as the converter computes them, the integer part has [k + 1]
    digits and begins with the digit 1, every character besides the sign
    and the radix point is a digit 0 or 1, and no two digits 1 stand side
    by side, across the radix point neither. *)
Theorem X22_encode_standard_form (input : SmartInput.input) (v k : Z) :
  integer_input input v ->
  0 <= k ->
  phi_power k < Big.of_integer 0 (Z.abs v) < phi_power (k + 1) ->
  exists I F,
    (forall fuel,
        2 * Big.of_integer 0 (Z.abs v) + BasePhi.Phi 0 < Z.of_nat fuel ->
        BasePhi.encode 0 BasePhi.default_charset fuel input
        = Ok ((if v <? 0 then ["-"%char] else []) ++ "1"%char :: I ++ "."%char :: F))
    /\ len I = k
    /\ Forall binary_digit (I ++ F)
    /\ adjacent_ones ("1"%char :: I ++ "."%char :: F) false = false.
Proof.
  intros Hin Hk [Hlo Hhi].
  pose proof (one_pos 0) as Hone.
  assert (H2 : 2 <= Z.abs v).
  { pose proof (phi_power_monotone 0 k ltac:(unfold lowest; lia) Hk) as Hmono.
    rewrite phi_power_0 in Hmono. unfold Big.of_integer in Hlo. nia. }
  destruct (encode_number_trace (Z.abs v) H2)
    as (k0 & w & rounds & fuel0 & Hk0 & Hle & Hgt & Hrun & Hw & Henc).
  assert (E : k0 = k).
  { assert (k0 < k + 1)
      by (apply phi_power_lt_inv; unfold lowest; lia).
    assert (k < k0 + 1)
      by (apply phi_power_lt_inv; unfold lowest; lia).
    lia. }
  subst k0.
  assert (Hsp : spaced w k).
  { refine (reduceN_spaced fuel0 rounds _ k (k + 1) k w _ Hrun).
    constructor; cbn [BasePhi.n BasePhi.exponents BasePhi.decExponents gapped_up
                        gapped_down In]; try exact I; try tauto.
    - unfold Big.of_integer in *. lia.
    - unfold lowest. lia.
    - unfold lowest. lia.
    - left. repeat split; try lia. }
  destruct (written_spaced (v <? 0) _ w k Hw Hsp) as (I & F & Hwritten & Hlen & Hbin & Hadj).
  exists I, F. split; [|split; [exact Hlen | split; [exact Hbin | exact Hadj]]].
  intros fuel Hfuel.
  rewrite (encode_phi_integer 0 _ fuel input v Hin), (Henc _ fuel Hfuel).
  cbn [bind fst]. rewrite Hwritten. reflexivity.
Qed.

Lemma X22_encode_standard_form_witness :
  exists I F,
    (forall fuel,
        2 * Big.of_integer 0 (Z.abs (-12)) + BasePhi.Phi 0 < Z.of_nat fuel ->
        BasePhi.encode 0 BasePhi.default_charset fuel (SmartInput.Number (-12))
        = Ok ((if -12 <? 0 then ["-"%char] else []) ++ "1"%char :: I ++ "."%char :: F))
    /\ len I = 5
    /\ Forall binary_digit (I ++ F)
    /\ adjacent_ones ("1"%char :: I ++ "."%char :: F) false = false.
Proof.
  apply (X22_encode_standard_form (SmartInput.Number (-12)) (-12) 5).
  - right. split; [reflexivity | vm_compute; split; discriminate].
  - lia.
  - vm_compute. split; reflexivity.
Defined.

(** ** The output handler: integers read in two's complement *)

(** X23: for the types [int_n] and [bigint_n], [compile] reads the bytes
    as one integer in two's complement, of as many bits as the bytes have
    (16 for a single byte): bytes whose most significant bit is set give a
    negative integer, where the type [uint_n] gives the unsigned value. A
    single byte is always read as it is. *)
Theorem X23_compile_int_n (bytes : list byte) (littleEndian : bool) :
  bytes <> [] ->
  let w := 8 * (if len bytes =? 1 then 2 else len bytes) in
  let u := bytes_value littleEndian bytes in
  let n := if u <? 2 ^ (w - 1) then u else u - 2 ^ w in
  SmartOutput.compile bytes SmartOutput.int_n littleEndian false = Ok (integer_output n)
  /\ SmartOutput.compile bytes SmartOutput.bigint_n littleEndian false
     = Ok (SmartOutput.BigIntValue n)
  /\ SmartOutput.compile bytes SmartOutput.uint_n littleEndian false
     = Ok (integer_output u)
  /\ (len bytes = 1 -> n = u).
Proof.
  intros Hne w u n.
  assert (Hlen : 1 <= len bytes).
  { destruct bytes as [|b l]; [contradiction|]. rewrite len_cons.
    pose proof (len_nonneg l). lia. }
  pose proof (bytes_value_bounds littleEndian bytes) as Hu. fold u in Hu.
  assert (Hw : 8 * len bytes <= w).
  { unfold w. destruct (Z.eqb_spec (len bytes) 1); lia. }
  assert (Hpow : 256 ^ len bytes <= 2 ^ w).
  { change 256 with (2 ^ 8). rewrite <- Z.pow_mul_r by lia.
    apply Z.pow_le_mono_r; lia. }
  assert (Hhalf : 2 ^ w = 2 * 2 ^ (w - 1)).
  { replace w with (1 + (w - 1)) at 1 by lia. rewrite Z.pow_add_r by lia. reflexivity. }
  assert (Hint : SmartOutput.asIntN w u = n).
  { unfold SmartOutput.asIntN, n. destruct (Z.leb_spec w 0); [lia|].
    rewrite Z.mod_small by lia.
    destruct (Z.leb_spec (2 ^ (w - 1)) u), (Z.ltb_spec u (2 ^ (w - 1))); lia. }
  split; [|split; [|split]].
  - unfold SmartOutput.compile. cbn [bind]. rewrite integer_value_spec.
    fold u. fold w. rewrite Hint. unfold integer_output.
    destruct (SmartOutput.is_safe n); reflexivity.
  - unfold SmartOutput.compile. cbn [bind]. rewrite integer_value_spec.
    fold u. fold w. rewrite Hint. reflexivity.
  - apply compile_uint_n.
  - intros H1. unfold n, w. rewrite H1. cbn [Z.eqb Pos.eqb].
    rewrite H1 in Hu. change (256 ^ 1) with 256 in Hu.
    destruct (Z.ltb_spec u (2 ^ (8 * 2 - 1))) as [|Hge]; [reflexivity|].
    change (2 ^ (8 * 2 - 1)) with 32768 in Hge. lia.
Qed.

Lemma X23_compile_int_n_witness :
  SmartOutput.compile [x9c; x40] SmartOutput.int_n false false
  = Ok (integer_output (-25536)).
Proof.
  refine (proj1 (X23_compile_int_n [x9c; x40] false _)). discriminate.
Defined.

(** ** LEB128 with the default output type *)

(** X24: with the default output type, [buffer], [decode] of what [encode]
    returns for an integer is an ArrayBuffer of little endian bytes: the
    bytes of the integer itself when it is not negative, and for a negative
    integer (in signed mode) at least two bytes that hold it in two's
    complement. *)
Theorem X24_leb128_default_output (input : SmartInput.input) (v : Z) (signed : bool) :
  integer_input input v ->
  0 <= v \/ signed = true ->
  exists bs buffer,
    LEB128.encode input signed LEB128.default = Ok (LEB128.Uint8Output bs)
    /\ LEB128.decode_compiled (LEB128.FromBytes bs) signed SmartOutput.buffer
       = Ok (SmartOutput.ArrayBuffer buffer)
    /\ (0 <= v -> le_value buffer = v)
    /\ (v < 0 ->
        2 <= len buffer
        /\ SmartOutput.asIntN (8 * len buffer) (le_value buffer) = v).
Proof.
  intros Hin Hs.
  destruct (encode_decode_integer input v signed Hin Hs) as (bs & Henc & _ & Hint).
  destruct (decode_FromBytes_value bs signed) as (out & Hdec & Hmag).
  rewrite Hint in Hdec, Hmag.
  destruct (Z.ltb_spec v 0) as [Hneg | Hpos].
  - destruct (negative_bytes out true) as (twos & Hrun & Hlen & Hval).
    cbv zeta in Hrun. unfold bytes_value in Hval. rewrite Hmag in Hval.
    exists bs, twos. split; [exact Henc|]. split.
    + unfold LEB128.decode_compiled. rewrite Hdec. cbn [bind].
      unfold SmartOutput.compile. rewrite Hrun. reflexivity.
    + split; [lia|]. intros _. split; [exact Hlen|]. rewrite Hval. lia.
  - exists bs, out. split; [exact Henc|]. split.
    + unfold LEB128.decode_compiled. rewrite Hdec. reflexivity.
    + split; [intros _; lia | lia].
Qed.

Lemma X24_leb128_default_output_witness :
  exists bs buffer,
    LEB128.encode (SmartInput.Number (-129)) true LEB128.default
    = Ok (LEB128.Uint8Output bs)
    /\ LEB128.decode_compiled (LEB128.FromBytes bs) true SmartOutput.buffer
       = Ok (SmartOutput.ArrayBuffer buffer)
    /\ (0 <= -129 -> le_value buffer = -129)
    /\ (-129 < 0 ->
        2 <= len buffer
        /\ SmartOutput.asIntN (8 * len buffer) (le_value buffer) = -129).
Proof.
  apply (X24_leb128_default_output (SmartInput.Number (-129)) (-129) true).
  - right. split; [reflexivity | vm_compute; split; discriminate].
  - right. reflexivity.
Defined.

(** ** Base phi: the fields of the input *)

Lemma split_point_first (t u : jsstring) :
  forall field,
    ~ In "."%char t ->
    BasePhi.split_point (t ++ "."%char :: u) field
    = (field ++ t) :: BasePhi.split_point u [].
Proof.
  induction t as [|ch t IH]; intros field Ht.
  - cbn [app BasePhi.split_point]. change (Ascii.eqb "." ".") with true. cbv iota.
    rewrite app_nil_r. reflexivity.
  - cbn [app BasePhi.split_point]. destruct (Ascii.eqb_spec ch "."%char) as [-> | _].
    + exfalso. apply Ht. left. reflexivity.
    + rewrite IH by (intros H; apply Ht; right; exact H).
      rewrite <- app_assoc. reflexivity.
Qed.

Lemma split_point_last (t : jsstring) :
  forall field, ~ In "."%char t -> BasePhi.split_point t field = [field ++ t].
Proof.
  induction t as [|ch t IH]; intros field Ht.
  - cbn. rewrite app_nil_r. reflexivity.
  - cbn [BasePhi.split_point]. destruct (Ascii.eqb_spec ch "."%char) as [-> | _].
    + exfalso. apply Ht. left. reflexivity.
    + rewrite IH by (intros H; apply Ht; right; exact H).
      rewrite <- app_assoc. reflexivity.
Qed.

(** X25: [decode] reads the first two fields of its input only. What
    follows a second radix point is ignored, whatever characters it holds,
    and an input without a radix point is read like its integer part
    followed by a radix point. *)
Theorem X25_decode_fields (extra : nat) (charset : jsstring)
    (normalizeInput : jsstring -> jsstring)
    (s s' s'' I F rest : jsstring) (negative : bool) :
  ~ In "."%char I -> ~ In "."%char F ->
  extractSign (normalizeInput s) = (I ++ "."%char :: F, negative) ->
  (extractSign (normalizeInput s') = (I ++ "."%char :: F ++ "."%char :: rest, negative) ->
   BasePhi.decode_number extra charset normalizeInput s'
   = BasePhi.decode_number extra charset normalizeInput s)
  /\ (F = [] ->
      extractSign (normalizeInput s'') = (I, negative) ->
      BasePhi.decode_number extra charset normalizeInput s''
      = BasePhi.decode_number extra charset normalizeInput s).
Proof.
  intros HI HF Hs. split.
  - intros Hs'. unfold BasePhi.decode_number. rewrite Hs, Hs'.
    rewrite (split_point_first I (F ++ "."%char :: rest) [] HI).
    rewrite (split_point_first F rest [] HF).
    rewrite (split_point_first I F [] HI), (split_point_last F [] HF).
    reflexivity.
  - intros -> Hs''. unfold BasePhi.decode_number. rewrite Hs, Hs''.
    rewrite (split_point_first I [] [] HI), (split_point_last I [] HI).
    reflexivity.
Qed.

Lemma X25_decode_fields_witness :
  BasePhi.decode_number 0 BasePhi.default_charset (fun s => s) (str "-101.01.2x")
  = BasePhi.decode_number 0 BasePhi.default_charset (fun s => s) (str "-101.01").
Proof.
  refine (proj1 (X25_decode_fields 0 BasePhi.default_charset (fun s => s)
                   (str "-101.01") (str "-101.01.2x") [] (str "101") (str "01")
                   (str "2x") true _ _ _) _).
  - cbn. intuition discriminate.
  - cbn. intuition discriminate.
  - reflexivity.
  - reflexivity.
Defined.
